(** * mindmap: the server, the graph renderer, the page and the sync script

    A shallow embedding of the pieces of the repository that carry the
    specified behaviour, and of the code around them:

    - [Server]: the handler of [GET /api/graph/:id/node/:name] in
      [server.js], a breadth-first expansion over the [nodes] and
      [relationships] tables;
    - [Renderer]: [GraphRenderer] of [graph.js]: the subgraph built by
      [render], the size-tiered force parameters, [highlightNodes], the
      minimap projection of [updateMinimap] and the guard of [zoomToFit];
    - [View]: [getNodeTypes], [focusNode] and [destroy] of [graph.js];
    - [Sync]: [shouldSync] and the loop of [main] in [sync.js];
    - [App]: [escapeAttr], [timeAgo] and [findConnections] of [app.js];
    - [Routes]: [POST /api/sync], [GET /api/graph/:id],
      [GET /api/graph/:id/search] and [GET /api/stats] of [server.js].

    What is outside the code of the repository is taken as follows.  A
    query does not fail and returns its rows in table order.  [JSON.parse],
    [JSON.stringify], [String.prototype.toLowerCase], the [LIKE] of SQLite
    and the results of [Math.random] are parameters.  [decodeURIComponent] is
    a parameter of the node route, which applies it to the route parameter;
    [expand] is the handler from the lookup of the decoded name on.  Of d3
    only the class list of the created elements is kept; the simulation is
    represented by the positions it has written.  Coordinates are
    rationals and the arithmetic on them is exact: the rounding of doubles
    is not modelled, and no bound or equation that depends on it is
    stated. *)

From Stdlib Require Import ZArith QArith Qabs Qround Lia Ascii String.
From stdpp Require Import base option list gmap strings.

Set Warnings "-clear-no-such-hyp".

Open Scope string_scope.
Open Scope list_scope.
Open Scope stdpp_scope.
Open Scope nat_scope.

(* ===================================================================== *)
(** ** The server: [GET /api/graph/:id/node/:name]                        *)
(* ===================================================================== *)

Module Server.

(** Rows of the two tables ([CREATE TABLE nodes], [CREATE TABLE
    relationships]).  The [properties] column holds JSON text or [NULL]. *)
Record NodeRow := mkNodeRow {
  node_id : string;
  node_graph_id : string;
  node_name : string;
  node_type : string;
  node_properties : option string;
  node_created_at : string;
  node_updated_at : string
}.

Record RelRow := mkRelRow {
  rel_id : string;
  rel_graph_id : string;
  rel_source : string;
  rel_target : string;
  rel_type : string;
  rel_properties : option string;
  rel_created_at : string
}.

(** The store: both tables in row order. *)
Record Db := mkDb {
  nodes : list NodeRow;
  relationships : list RelRow
}.

(** [SELECT * FROM nodes WHERE graph_id = ? AND name = ?] followed by
    [.get]: the first matching row, or [undefined]. *)
Definition get_node (db : Db) (graphId name : string) : option NodeRow :=
  List.find (λ n, bool_decide (node_graph_id n = graphId ∧ node_name n = name))
            (nodes db).

(** [SELECT * FROM relationships WHERE graph_id = ? AND source IN (...)]. *)
Definition out_rels (db : Db) (graphId : string) (frontier : list string)
  : list RelRow :=
  filter (λ r, rel_graph_id r = graphId ∧ rel_source r ∈ frontier)
         (relationships db).

(** [SELECT * FROM relationships WHERE graph_id = ? AND target IN (...)]. *)
Definition in_rels (db : Db) (graphId : string) (frontier : list string)
  : list RelRow :=
  filter (λ r, rel_graph_id r = graphId ∧ rel_target r ∈ frontier)
         (relationships db).

(** The template [`${r.graph_id}-${r.id}`] on the columns of a row. *)
Definition row_key (r : RelRow) : string :=
  rel_graph_id r +:+ "-" +:+ rel_id r.

(** [Math.min(parseInt(req.query.depth) || 1, 3)].  The argument is the
    value of [parseInt]: [None] is NaN (parameter absent or not a number).
    NaN and 0 are the falsy numbers, so [||] replaces both by 1. *)
Definition or_default (p : option Z) : Z :=
  match p with
  | None => 1
  | Some z => if decide (z = 0) then 1 else z
  end%Z.

Definition depth_of (p : option Z) : Z := Z.min (or_default p) 3.

(** Number of iterations of [for (let d = 0; d < depth; d++)]. *)
Definition rounds (p : option Z) : nat := Z.to_nat (depth_of p).

Section Expansion.

(** [JSON.parse], whose result type is left open; [None] stands for the
    [SyntaxError] it throws.  [empty_object] is the literal [{}]. *)
Context {Json : Type}.
Variable JSON_parse : string → option Json.
Variable empty_object : Json.

(** [x.properties ? JSON.parse(x.properties) : {}]: [NULL] and the empty
    string are falsy. *)
Definition parse_properties (p : option string) : option Json :=
  match p with
  | None => Some empty_object
  | Some s => if decide (s = "") then Some empty_object else JSON_parse s
  end.

(** [{ ...row, properties: <parsed> }]. *)
Record NodeObj := mkNodeObj { node_row : NodeRow; node_props : Json }.
Record RelObj := mkRelObj { rel_row : RelRow; rel_props : Json }.

Definition node_obj (n : NodeRow) : option NodeObj :=
  mkNodeObj n <$> parse_properties (node_properties n).

Definition rel_obj (r : RelRow) : option RelObj :=
  mkRelObj r <$> parse_properties (rel_properties r).

(** The mutable variables of the handler. *)
Record State := mkState {
  visited : gset string;
  frontier : list string;
  allNodes : list NodeObj;
  allRels : list RelObj
}.

Variable db : Db.
Variable graphId : string.

(** Body of [for (const name of [rel.source, rel.target])].  While a round
    runs, [frontier] of the state accumulates [nextFrontier]. *)
Definition visit (name : string) (s : State) : option State :=
  if decide (name ∈ visited s) then Some s
  else
    let s' := mkState ({[name]} ∪ visited s) (frontier s ++ [name])
                      (allNodes s) (allRels s) in
    match get_node db graphId name with
    | None => Some s'
    | Some neighbor =>
        o ← node_obj neighbor;
        Some (mkState (visited s') (frontier s') (allNodes s' ++ [o]) (allRels s'))
    end.

(** Body of [for (const rel of rels)]. *)
Definition scan_rel (rel : RelRow) (s : State) : option State :=
  o ← rel_obj rel;
  let s1 := mkState (visited s) (frontier s) (allNodes s) (allRels s ++ [o]) in
  s2 ← visit (rel_source rel) s1;
  visit (rel_target rel) s2.

Fixpoint scan_rels (rels : list RelRow) (s : State) : option State :=
  match rels with
  | [] => Some s
  | rel :: rest => s' ← scan_rel rel s; scan_rels rest s'
  end.

(** One round: both batched lookups on the current frontier, then the scan
    with an empty [nextFrontier], which becomes the frontier. *)
Definition round (s : State) : option State :=
  let rels := out_rels db graphId (frontier s) ++ in_rels db graphId (frontier s) in
  scan_rels rels (mkState (visited s) [] (allNodes s) (allRels s)).

(** [for (let d = 0; d < depth; d++) { if (frontier.length === 0) break; ... }] *)
Fixpoint loop (n : nat) (s : State) : option State :=
  match n with
  | O => Some s
  | S n' =>
      match frontier s with
      | [] => Some s
      | _ :: _ => s' ← round s; loop n' s'
      end
  end.

(** [`${r.graph_id}-${r.id}`] *)
Definition rel_key (r : RelObj) : string := row_key (rel_row r).

(** [allRels.filter(r => { ... relSet ... })] with [relSet] threaded. *)
Fixpoint unique_from (relSet : gset string) (rs : list RelObj) : list RelObj :=
  match rs with
  | [] => []
  | r :: rest =>
      if decide (rel_key r ∈ relSet) then unique_from relSet rest
      else r :: unique_from ({[rel_key r]} ∪ relSet) rest
  end.

Definition uniqueRels (rs : list RelObj) : list RelObj := unique_from ∅ rs.

(** What the handler sends. *)
Inductive Response :=
| NotFound (error : string)                 (* status 404 *)
| ServerError                               (* status 500, from [catch] *)
| Ok (node : option NodeObj) (nodes : list NodeObj) (rels : list RelObj).

Definition start_state (nodeName : string) (o : NodeObj) : State :=
  mkState {[nodeName]} [nodeName] [o] [].

(** The body of [try] after the 404 guard, up to the end of the loop;
    [None] when [JSON.parse] threw. *)
Definition collect (nodeName : string) (node : NodeRow) (depth : option Z)
  : option State :=
  o ← node_obj node; loop (rounds depth) (start_state nodeName o).

(** The handler from the lookup of [nodeName] on; [node_route] below has
    the line that computes [nodeName] before it. *)
Definition expand (nodeName : string) (depth : option Z) : Response :=
  match get_node db graphId nodeName with
  | None => NotFound "Node not found"
  | Some node =>
      match collect nodeName node depth with
      | None => ServerError
      | Some s => Ok (head (allNodes s)) (allNodes s) (uniqueRels (allRels s))
      end
  end.

(** Every [properties] text of the store is accepted by [JSON.parse]. *)
Definition store_parses : Prop :=
  (∀ n, n ∈ nodes db → is_Some (node_obj n)) ∧
  (∀ r, r ∈ relationships db → is_Some (rel_obj r)).

(** Every entry of [allNodes] is the row the store returns for its name. *)
Definition from_store (s : State) : Prop :=
  ∀ o, o ∈ allNodes s →
       get_node db graphId (node_name (node_row o)) = Some (node_row o).

Definition node_names (ns : list NodeObj) : list string :=
  map (λ o, node_name (node_row o)) ns.

Definition rel_keys (rs : list RelObj) : list string := map rel_key rs.

(** The node names an answer carries; the two error answers carry none. *)
Definition response_names (r : Response) : list string :=
  match r with
  | Ok _ ns _ => node_names ns
  | _ => []
  end.

End Expansion.

Section Route.

Context {Json : Type}.
Variable JSON_parse : string → option Json.
Variable empty_object : Json.

(** [decodeURIComponent]; [None] stands for the [URIError] it throws. *)
Variable decodeURIComponent : string → option string.

Variable db : Db.
Variable graphId : string.

(** The handler from its first line.  [name] is [req.params.name], which
    Express has decoded once already; the handler decodes it again, inside
    [try], so that a [URIError] is answered with status 500, and looks up
    the result. *)
Definition node_route (name : string) (depth : option Z) : Response :=
  match decodeURIComponent name with
  | None => ServerError
  | Some nodeName => expand JSON_parse empty_object db graphId nodeName depth
  end.

End Route.

End Server.

(* ===================================================================== *)
(** ** The renderer: [GraphRenderer] of [graph.js]                        *)
(* ===================================================================== *)

Module Renderer.

(** *** Plain objects used as lookup tables

    [connectionCount] and [nodeMap] are created by the literal [{}]; a read
    [obj[k]] of a key that is not an own property continues in
    [Object.prototype].  These are its members; the last one is the
    accessor whose getter returns the prototype itself, the others are
    functions. *)
Definition inherited_keys : list string :=
  [ "constructor"; "hasOwnProperty"; "isPrototypeOf"; "propertyIsEnumerable";
    "toLocaleString"; "toString"; "valueOf";
    "__defineGetter__"; "__defineSetter__"; "__lookupGetter__";
    "__lookupSetter__"; "__proto__" ].

(** What [nodeMap[k]] evaluates to when it is not [undefined]: one of the
    node objects of [this.nodes], by position, or an inherited member.
    Both kinds are truthy. *)
Inductive Ref :=
| RNode (i : nat)
| RInherited (key : string).

#[global] Instance Ref_eq_dec : EqDecision Ref.
Proof. solve_decision. Defined.

Definition lookup_node (nodeMap : gmap string nat) (k : string) : option Ref :=
  match nodeMap !! k with
  | Some i => Some (RNode i)
  | None => if decide (k ∈ inherited_keys) then Some (RInherited k) else None
  end.

(** A value stored in, or read from, [connectionCount]: a number, or
    something that is not one (a function, [Object.prototype], or the string
    obtained by adding 1 to either). *)
Inductive Count :=
| Num (n : nat)
| NotNum.

#[global] Instance Count_eq_dec : EqDecision Count.
Proof. solve_decision. Defined.

(** [connectionCount[k] = (connectionCount[k] || 0) + 1].  An own number is
    incremented; a missing key starts from 0 unless the read finds an
    inherited member, which is truthy and turns the sum into a string.
    Writing to [__proto__] runs the inherited setter, which ignores values
    that are not objects. *)
Definition bump (connectionCount : gmap string Count) (k : string)
  : gmap string Count :=
  let v := match connectionCount !! k with
           | Some (Num n) => Num (S n)
           | Some NotNum => NotNum
           | None => if decide (k ∈ inherited_keys) then NotNum else Num 1
           end in
  if decide (k = "__proto__") then connectionCount else <[k := v]> connectionCount.

(** [connectionCount[k] || 0] *)
Definition count_or_zero (connectionCount : gmap string Count) (k : string)
  : Count :=
  match connectionCount !! k with
  | Some v => v
  | None => if decide (k ∈ inherited_keys) then NotNum else Num 0
  end.

Section Render.

Context {Json : Type}.
Variable empty_object : Json.

(** *** The payload: [{ nodes, relationships }] as the server sends it *)
Record NodeData := mkNodeData {
  n_id : string;
  n_name : string;
  n_type : string;
  n_properties : option Json;
  n_created_at : option string;
  n_updated_at : option string
}.

Record RelData := mkRelData {
  r_source : string;
  r_target : string;
  r_type : string;
  r_properties : option Json
}.

Record GraphData := mkGraphData {
  gd_nodes : option (list NodeData);
  gd_relationships : option (list RelData)
}.

(** *** The objects [render] builds *)
Record Node := mkNode {
  id : string;
  name : string;
  type : string;
  properties : Json;
  created_at : option string;
  updated_at : option string;
  connections : option Count        (* absent until the last loop sets it *)
}.

Record Link := mkLink {
  source : Ref;
  target : Ref;
  link_type : string;
  link_properties : Json
}.

(** [s || d] on strings: the empty string is falsy. *)
Definition str_or (s d : string) : string := if decide (s = "") then d else s.

(** The callback of [graphData.nodes.map]. *)
Definition make_node (n : NodeData) : Node :=
  mkNode (n_id n) (str_or (n_name n) (n_id n)) (str_or (n_type n) "Unknown")
         (default empty_object (n_properties n))
         (n_created_at n) (n_updated_at n) None.

(** The two assignments [connectionCount[node.name] = 0] and
    [nodeMap[node.name] = node] of that callback, for the nodes from
    position [i] on. *)
Fixpoint index_nodes (i : nat) (ns : list Node)
    (connectionCount : gmap string Count) (nodeMap : gmap string nat)
  : gmap string Count * gmap string nat :=
  match ns with
  | [] => (connectionCount, nodeMap)
  | node :: rest =>
      index_nodes (S i) rest (<[name node := Num 0]> connectionCount)
                  (<[name node := i]> nodeMap)
  end.

(** [r.name] for a resolved endpoint; [None] is [undefined].  A function is
    named after its key, except [Object.prototype.constructor], which is
    [Object]; [Object.prototype] has no [name]. *)
Definition ref_name (nodes : list Node) (r : Ref) : option string :=
  match r with
  | RNode i => name <$> nodes !! i
  | RInherited k =>
      if decide (k = "__proto__") then None
      else if decide (k = "constructor") then Some "Object"
      else Some k
  end.

(** The property key a value is converted to. *)
Definition prop_key (o : option string) : string := default "undefined" o.

(** [for (const rel of graphData.relationships)] *)
Fixpoint process_links (nodes : list Node) (nodeMap : gmap string nat)
    (rels : list RelData) (links : list Link)
    (connectionCount : gmap string Count)
  : list Link * gmap string Count :=
  match rels with
  | [] => (links, connectionCount)
  | rel :: rest =>
      match lookup_node nodeMap (r_source rel), lookup_node nodeMap (r_target rel) with
      | Some src, Some tgt =>
          let link := mkLink src tgt (str_or (r_type rel) "RELATES_TO")
                             (default empty_object (r_properties rel)) in
          let counts1 := bump connectionCount (prop_key (ref_name nodes src)) in
          let counts2 := bump counts1 (prop_key (ref_name nodes tgt)) in
          process_links nodes nodeMap rest (links ++ [link]) counts2
      | _, _ => process_links nodes nodeMap rest links connectionCount
      end
  end.

(** [node.connections = connectionCount[node.name] || 0] *)
Definition set_connections (connectionCount : gmap string Count) (node : Node)
  : Node :=
  mkNode (id node) (name node) (type node) (properties node)
         (created_at node) (updated_at node)
         (Some (count_or_zero connectionCount (name node))).

(** Lines 129-169 of [render]: [this.nodes] and [this.links].

    A node whose name is [__proto__] is outside this model ([None]): the
    assignment [nodeMap[node.name] = node] would then replace the prototype
    of [nodeMap] by that node. *)
Definition build (nodes0 : list NodeData) (rels : option (list RelData))
  : option (list Node * list Link) :=
  let nodes1 := map make_node nodes0 in
  if decide ("__proto__" ∈ map name nodes1) then None
  else
    let '(counts0, nodeMap) := index_nodes 0 nodes1 ∅ ∅ in
    let '(links, connectionCount) :=
      process_links nodes1 nodeMap (default [] rels) [] counts0 in
    Some (map (set_connections connectionCount) nodes1, links).

(** *** Elements and their classes *)
Record El (D : Type) := mkEl { datum : D; classes : gset string }.
Global Arguments mkEl {D} _ _.
Global Arguments datum {D} _.
Global Arguments classes {D} _.

(** The fields of [GraphRenderer] the modelled methods read or write.
    [svg] and [minimapCtx] record whether the field is non-null. *)
Record GraphRenderer := mkGraphRenderer {
  svg : bool;
  minimapCtx : bool;
  nodes : list Node;
  links : list Link;
  nodeElements : option (list (El Node));
  linkElements : option (list (El Link));
  linkLabels : option (list (El Link));
  nodeLabels : option (list (El Node));
  searchMatches : gset string;
  isSearchActive : bool
}.

(** [.data(ds).enter().append(...).attr('class', c)] *)
Definition enter {D} (c : string) (ds : list D) : list (El D) :=
  map (λ d, mkEl d {[c]}) ds.

(** [render(graphData)], up to the creation of the elements.  The first
    argument is [None] when [graphData] is falsy. *)
Definition render (graphData : option GraphData) (this : GraphRenderer)
  : option GraphRenderer :=
  if negb (svg this) then Some this
  else
    match graphData ≫= gd_nodes with
    | None => Some this
    | Some nodes0 =>
        '(ns, ls) ← build nodes0 (graphData ≫= gd_relationships);
        Some (mkGraphRenderer (svg this) (minimapCtx this) ns ls
                (Some (enter "node-circle" ns)) (Some (enter "link-line" ls))
                (Some (enter "link-label" ls)) (Some (enter "node-label" ns))
                (searchMatches this) (isSearchActive this))
    end.

(** *** Force parameters, by [this.nodes.length] *)
Definition chargeStrength (n : nat) : Z :=
  if decide (200 < n) then -400 else if decide (100 < n) then -600 else -800.

Definition linkDistance (n : nat) : Z :=
  if decide (200 < n) then 160 else if decide (100 < n) then 220 else 280.

(** *** [highlightNodes] *)

(** [String.prototype.toLowerCase] *)
Variable toLowerCase : string → string.

(** [selection.classed(c, value)] with a constant, and with a function of
    the datum that may throw ([None]). *)
Definition set_class (c : string) (b : bool) (cs : gset string) : gset string :=
  if b then {[c]} ∪ cs else cs ∖ {[c]}.

Definition classed {D} (c : string) (b : bool) (sel : list (El D)) : list (El D) :=
  map (λ e, mkEl (datum e) (set_class c b (classes e))) sel.

Definition classed_by {D} (c : string) (f : D → option bool) (sel : list (El D))
  : option (list (El D)) :=
  mapM (λ e, b ← f (datum e); Some (mkEl (datum e) (set_class c b (classes e)))) sel.

Definition is_match (matches : gset string) (s : string) : bool :=
  bool_decide (toLowerCase s ∈ matches).

(** [!has(d.source.name.toLowerCase()) && !has(d.target.name.toLowerCase())];
    calling [toLowerCase] on [undefined] throws, and [&&] evaluates its
    right operand only when the left one is true. *)
Definition link_faded (ns : list Node) (matches : gset string) (d : Link)
  : option bool :=
  s ← ref_name ns (source d);
  if is_match matches s then Some false
  else t ← ref_name ns (target d); Some (negb (is_match matches t)).

Definition highlightNodes (names : list string) (this : GraphRenderer)
  : option GraphRenderer :=
  let matches : gset string := list_to_set (map toLowerCase names) in
  let active := bool_decide (0 < length names) in
  let upd ne le ll nl :=
    mkGraphRenderer (svg this) (minimapCtx this) (nodes this) (links this)
                    ne le ll nl matches active in
  match nodeElements this with
  | None => Some (upd None (linkElements this) (linkLabels this) (nodeLabels this))
  | Some ne =>
      if negb active then
        nl ← nodeLabels this;
        le ← linkElements this;
        ll ← linkLabels this;
        Some (upd (Some (classed "faded" false (classed "highlighted" false ne)))
                  (Some (classed "faded" false le))
                  (Some (classed "faded" false ll))
                  (Some (classed "faded" false nl)))
      else
        ne1 ← classed_by "highlighted" (λ d, Some (is_match matches (name d))) ne;
        ne2 ← classed_by "faded" (λ d, Some (negb (is_match matches (name d)))) ne1;
        nl0 ← nodeLabels this;
        nl ← classed_by "faded" (λ d, Some (negb (is_match matches (name d)))) nl0;
        le0 ← linkElements this;
        le ← classed_by "faded" (link_faded (nodes this) matches) le0;
        ll0 ← linkLabels this;
        ll ← classed_by "faded" (link_faded (nodes this) matches) ll0;
        Some (upd (Some ne2) (Some le) (Some ll) (Some nl))
  end.

(** *** [updateMinimap] and [zoomToFit]

    Coordinates are rationals: the rounding of the arithmetic is not
    modelled.  The simulation writes [x] and [y] of a node together, so a
    position is a pair or absent; [positions] lists them in the order of
    [this.nodes]. *)

(** The running bounds start at [Infinity] and [-Infinity]. *)
Inductive Bound :=
| NegInfinity
| Finite (q : Q)
| Infinity.

Definition Qlt_bool (a b : Q) : bool := negb (Qle_bool b a).

(** [v < b] and [v > b] for a coordinate [v]. *)
Definition below (v : Q) (b : Bound) : bool :=
  match b with
  | NegInfinity => false
  | Finite q => Qlt_bool v q
  | Infinity => true
  end.

Definition above (v : Q) (b : Bound) : bool :=
  match b with
  | NegInfinity => true
  | Finite q => Qlt_bool q v
  | Infinity => false
  end.

Record Bounds := mkBounds { minX : Bound; minY : Bound; maxX : Bound; maxY : Bound }.

(** Body of the first [for (const n of this.nodes)]. *)
Definition extend (b : Bounds) (p : option (Q * Q)) : Bounds :=
  match p with
  | None => b
  | Some (x, y) =>
      mkBounds (if below x (minX b) then Finite x else minX b)
               (if below y (minY b) then Finite y else minY b)
               (if above x (maxX b) then Finite x else maxX b)
               (if above y (maxY b) then Finite y else maxY b)
  end.

Definition find_bounds (positions : list (option (Q * Q))) : Bounds :=
  fold_left extend positions (mkBounds Infinity Infinity NegInfinity NegInfinity).

(** [a - b || 1] *)
Definition range_or_one (a b : Q) : Q :=
  (if Qeq_bool (a - b) 0 then 1 else a - b)%Q.

Definition Qmin2 (a b : Q) : Q := if Qle_bool a b then a else b.

Definition cw : Q := 160%Q.
Definition ch : Q := 120%Q.
Definition pad : Q := 10%Q.

(** The numbers the drawing uses, once the bounds are known. *)
Record Projection := mkProjection {
  originX : Q; originY : Q;
  rangeX : Q; rangeY : Q;
  scaleX : Q; scaleY : Q;
  scale : Q;
  offsetX : Q; offsetY : Q
}.

Definition projection (x0 y0 x1 y1 : Q) : Projection :=
  let rangeX := range_or_one x1 x0 in
  let rangeY := range_or_one y1 y0 in
  let scaleX := ((cw - pad * 2) / rangeX)%Q in
  let scaleY := ((ch - pad * 2) / rangeY)%Q in
  let scale := Qmin2 scaleX scaleY in
  mkProjection x0 y0 rangeX rangeY scaleX scaleY scale
               ((cw - rangeX * scale) / 2)%Q ((ch - rangeY * scale) / 2)%Q.

Definition project (pr : Projection) (p : Q * Q) : Q * Q :=
  ((fst p - originX pr) * scale pr + offsetX pr,
   (snd p - originY pr) * scale pr + offsetY pr)%Q.

(** [r.x], [r.y] of a link endpoint: inherited members have neither. *)
Definition ref_position (positions : list (option (Q * Q))) (r : Ref)
  : option (Q * Q) :=
  match r with
  | RNode i => mjoin (positions !! i)
  | RInherited _ => None
  end.

(** What one call draws: the segments of the links, then the dots of the
    nodes. *)
Record Drawing := mkDrawing {
  segments : list ((Q * Q) * (Q * Q));
  dots : list (Q * Q)
}.

Definition updateMinimap (this : GraphRenderer) (positions : list (option (Q * Q)))
  : option Drawing :=
  if negb (minimapCtx this) || bool_decide (length (nodes this) = 0) then None
  else
    match find_bounds positions with
    | mkBounds (Finite x0) (Finite y0) (Finite x1) (Finite y1) =>
        let pr := projection x0 y0 x1 y1 in
        Some (mkDrawing
                (omap (λ l, s ← ref_position positions (source l);
                            t ← ref_position positions (target l);
                            Some (project pr s, project pr t))
                      (links this))
                (omap (fmap (project pr)) positions))
    | _ =>
        (* no node has a position yet: both loops skip every element *)
        Some (mkDrawing [] [])
    end.

(** The result of [getBBox()]. *)
Record BBox := mkBBox { bbox_x : Q; bbox_y : Q; bbox_width : Q; bbox_height : Q }.

(** [zoomToFit]: the transform handed to [this.zoom.transform] as
    [(tx, ty, scale)], or [None] when the method returns before computing
    one.  [width] and [height] are those of the renderer. *)
Definition zoomToFit (this : GraphRenderer) (width height : Q) (bounds : BBox)
  : option (Q * Q * Q) :=
  if bool_decide (length (nodes this) = 0) then None
  else if Qeq_bool (bbox_width bounds) 0 || Qeq_bool (bbox_height bounds) 0 then None
  else
    let padding : Q := 60%Q in
    let scale := Qmin2 (Qmin2 (width / (bbox_width bounds + padding * 2))
                              (height / (bbox_height bounds + padding * 2))) 2 in
    Some (width / 2 - (bbox_x bounds + bbox_width bounds / 2) * scale,
          height / 2 - (bbox_y bounds + bbox_height bounds / 2) * scale,
          scale)%Q.

(** *** Notions used to state the properties of [render] *)

(** The object literal [GraphRenderer] before [init], and the fields [init]
    sets: [svg] always, [minimapCtx] when the page has the minimap canvas;
    without the canvas [minimapCtx] stays as it was. *)
Definition literal : GraphRenderer :=
  mkGraphRenderer false false [] [] None None None None ∅ false.

Definition init (canvas : bool) (this : GraphRenderer) : GraphRenderer :=
  mkGraphRenderer true (canvas || minimapCtx this) (nodes this) (links this)
                  (nodeElements this) (linkElements this) (linkLabels this)
                  (nodeLabels this) (searchMatches this) (isSearchActive this).

(** Number of links in which the node object at position [i] is the source,
    plus the number in which it is the target. *)
Definition touching (ls : list Link) (i : nat) : nat :=
  length (filter (λ l, source l = RNode i) ls) +
  length (filter (λ l, target l = RNode i) ls).

Definition connections_consistent (this : GraphRenderer) : Prop :=
  ∀ i n, nodes this !! i = Some n →
         connections n = Some (Num (touching (links this) i)).

(** Both ends of every link are node objects of [this.nodes]. *)
Definition endpoint_in (ns : list Node) (r : Ref) : Prop :=
  ∃ i, r = RNode i ∧ i < length ns.

Definition links_resolved (this : GraphRenderer) : Prop :=
  ∀ l, l ∈ links this →
       endpoint_in (nodes this) (source l) ∧ endpoint_in (nodes this) (target l).

(** The names the nodes of a payload are given, and two conditions on a
    payload: these names are pairwise distinct; no endpoint of a
    relationship is the name of an inherited member. *)
Definition payload_names (g : GraphData) : list string :=
  map (λ n, name (make_node n)) (default [] (gd_nodes g)).

Definition distinct_names (g : GraphData) : Prop := NoDup (payload_names g).

Definition plain_endpoints (g : GraphData) : Prop :=
  ∀ rel, rel ∈ default [] (gd_relationships g) →
         (r_source rel ∉ inherited_keys) ∧ (r_target rel ∉ inherited_keys).

(** No endpoint of a relationship is found among the inherited members: an
    endpoint that is the name of one is also the name of a node, whose entry
    in [nodeMap] comes first. *)
Definition own_endpoints (g : GraphData) : Prop :=
  ∀ rel, rel ∈ default [] (gd_relationships g) →
         (r_source rel ∈ inherited_keys → r_source rel ∈ payload_names g) ∧
         (r_target rel ∈ inherited_keys → r_target rel ∈ payload_names g).

(** The link [render] makes of a relationship, if it makes one. *)
Definition resolve (nodeMap : gmap string nat) (rel : RelData) : option Link :=
  src ← lookup_node nodeMap (r_source rel);
  tgt ← lookup_node nodeMap (r_target rel);
  Some (mkLink src tgt (str_or (r_type rel) "RELATES_TO")
               (default empty_object (r_properties rel))).

(** The two increments [render] performs for a link. *)
Definition count_link (ns : list Node) (connectionCount : gmap string Count)
    (l : Link) : gmap string Count :=
  bump (bump connectionCount (prop_key (ref_name ns (source l))))
       (prop_key (ref_name ns (target l))).

(** Number of link ends whose [name], as a property key, is [k]. *)
Definition ends_named (ns : list Node) (ls : list Link) (k : string) : nat :=
  length (filter (λ l, prop_key (ref_name ns (source l)) = k) ls) +
  length (filter (λ l, prop_key (ref_name ns (target l)) = k) ls).

(** *** Notions used to state the properties of [highlightNodes] *)

(** A name matches when its lower-cased form is the lower-cased form of one
    of the names passed in: membership in [this.searchMatches]. *)
Definition matches (names : list string) (s : string) : Prop :=
  ∃ n, n ∈ names ∧ toLowerCase n = toLowerCase s.

(** An element carries neither of the two marks. *)
Definition neutral {D} (e : El D) : Prop :=
  ("highlighted" ∉ classes e) ∧ ("faded" ∉ classes e).

(** Two elements carry the same datum and agree on every class outside
    [marks]. *)
Definition same_except {D} (marks : list string) (e e' : El D) : Prop :=
  datum e' = datum e ∧
  ∀ c, c ∉ marks → (c ∈ classes e' ↔ c ∈ classes e).

(** What a call with a non-empty list leaves on a circle, on a node label
    and on a line or link label, [e] being the element before the call and
    [e'] after it. *)
Definition node_marked (names : list string) (e e' : El Node) : Prop :=
  same_except ["highlighted"; "faded"] e e' ∧
  ("highlighted" ∈ classes e' ↔ matches names (name (datum e))) ∧
  ("faded" ∈ classes e' ↔ ¬ matches names (name (datum e))).

Definition label_marked (names : list string) (e e' : El Node) : Prop :=
  same_except ["faded"] e e' ∧
  ("faded" ∈ classes e' ↔ ¬ matches names (name (datum e))).

(** An endpoint of a link has a name, and that name matches. *)
Definition end_matches (ns : list Node) (names : list string) (r : Ref) : Prop :=
  ∃ s, ref_name ns r = Some s ∧ matches names s.

Definition line_marked (ns : list Node) (names : list string) (e e' : El Link)
  : Prop :=
  same_except ["faded"] e e' ∧
  ("faded" ∈ classes e' ↔
   ¬ end_matches ns names (source (datum e)) ∧
   ¬ end_matches ns names (target (datum e))).

(** What a call with the empty list leaves: none of [marks]. *)
Definition cleared {D} (marks : list string) (e e' : El D) : Prop :=
  same_except marks e e' ∧ ∀ c, c ∈ marks → c ∉ classes e'.

(** The test [highlightNodes] applies to a line or link label can be
    evaluated: the source has a name and, unless that name matches, the
    target has one too.  Otherwise [toLowerCase] is called on [undefined]. *)
Definition link_readable (ns : list Node) (names : list string) (l : Link) : Prop :=
  ∃ s, ref_name ns (source l) = Some s ∧
       (matches names s ∨ is_Some (ref_name ns (target l))).

(** Distance from the centre of the minimap canvas counted as near: a
    quarter of the canvas in each direction. *)
Definition near_center (p : Q * Q) : Prop :=
  (Qabs (fst p - cw / 2) <= cw / 4)%Q ∧ (Qabs (snd p - ch / 2) <= ch / 4)%Q.

End Render.

End Renderer.

(* ===================================================================== *)
(** ** Concrete stores and payloads                                       *)
(* ===================================================================== *)

Module Scenario.
Import Server.

(** A node row and a relationship row of graph [g] with no properties. *)
Definition node_of (g n : string) : NodeRow :=
  mkNodeRow n g n "Concept" None "" "".

Definition rel_of (g i s t : string) : RelRow :=
  mkRelRow i g s t "RELATES_TO" None "".

(** A [JSON.parse] that accepts every text, its results not told apart. *)
Definition parse_any (s : string) : option unit := Some ().

(** [decodeURIComponent] on strings held as UTF-8: the function [Decode] of
    ECMAScript with an empty set of preserved characters.  An escape [%XX]
    below [%80] stands for that character; a longer sequence of escapes must
    be the UTF-8 form of a code point; a [%] that does not start an escape
    is an error. *)
Definition hex_value (c : ascii) : option N :=
  let n := N_of_ascii c in
  if (48 <=? n)%N && (n <=? 57)%N then Some (n - 48)%N
  else if (65 <=? n)%N && (n <=? 70)%N then Some (n - 55)%N
  else if (97 <=? n)%N && (n <=? 102)%N then Some (n - 87)%N
  else None.

Definition hex_octet (a b : ascii) : option N :=
  h ← hex_value a; l ← hex_value b; Some (16 * h + l)%N.

(** The number of octets a leading octet of [0x80] or more announces. *)
Definition sequence_length (b : N) : option nat :=
  if (b <? 192)%N then None
  else if (b <? 224)%N then Some 2
  else if (b <? 240)%N then Some 3
  else if (b <? 248)%N then Some 4
  else None.

Definition between (lo hi b : N) : bool := (lo <=? b)%N && (b <=? hi)%N.

(** The well-formed UTF-8 sequences of two to four octets. *)
Definition valid_utf8 (octets : list N) : bool :=
  match octets with
  | [b0; b1] => between 194 223 b0 && between 128 191 b1
  | [b0; b1; b2] =>
      between 128 191 b2 &&
      ((N.eqb b0 224 && between 160 191 b1)
       || (between 225 236 b0 && between 128 191 b1)
       || (N.eqb b0 237 && between 128 159 b1)
       || (between 238 239 b0 && between 128 191 b1))
  | [b0; b1; b2; b3] =>
      between 128 191 b2 && between 128 191 b3 &&
      ((N.eqb b0 240 && between 144 191 b1)
       || (between 241 243 b0 && between 128 191 b1)
       || (N.eqb b0 244 && between 128 143 b1))
  | _ => false
  end.

Definition octets_string (octets : list N) : string :=
  string_of_list_ascii (map ascii_of_N octets).

(** [octets] are the octets read of a sequence of which [need] more are to
    come. *)
Fixpoint decode_from (octets : list N) (need : nat) (s : string) : option string :=
  match need, s with
  | O, EmptyString => Some EmptyString
  | O, String c rest =>
      if decide (c = "%"%char) then
        match rest with
        | String a (String b rest') =>
            B ← hex_octet a b;
            if (B <? 128)%N then String (ascii_of_N B) <$> decode_from [] 0 rest'
            else n ← sequence_length B; decode_from [B] (n - 1) rest'
        | _ => None
        end
      else String c <$> decode_from [] 0 rest
  | S m, String c (String a (String b rest')) =>
      if decide (c = "%"%char) then
        B ← hex_octet a b;
        match m with
        | O =>
            if valid_utf8 (octets ++ [B])
            then String.append (octets_string (octets ++ [B])) <$> decode_from [] 0 rest'
            else None
        | S _ => decode_from (octets ++ [B]) m rest'
        end
      else None
  | S _, _ => None
  end.

Definition decode_uri (s : string) : option string := decode_from [] 0 s.

(** The chain [A→B, B→C, C→D]. *)
Definition chain : Db :=
  mkDb [node_of "g" "A"; node_of "g" "B"; node_of "g" "C"; node_of "g" "D"]
       [rel_of "g" "e1" "A" "B"; rel_of "g" "e2" "B" "C"; rel_of "g" "e3" "C" "D"].

(** The diamond [A→B, A→C, B→D, C→D]. *)
Definition diamond : Db :=
  mkDb [node_of "g" "A"; node_of "g" "B"; node_of "g" "C"; node_of "g" "D"]
       [rel_of "g" "e1" "A" "B"; rel_of "g" "e2" "A" "C";
        rel_of "g" "e3" "B" "D"; rel_of "g" "e4" "C" "D"].

(** A store whose only relationship points at a name with no node row. *)
Definition dangling : Db :=
  mkDb [node_of "g" "A"] [rel_of "g" "e1" "A" "Ghost"].

End Scenario.

Module Payloads.
Import Renderer.

(** A payload node and relationship without properties or dates. *)
Definition node (i n : string) : @NodeData unit := mkNodeData i n "" None None None.
Definition rel (s t : string) : @RelData unit := mkRelData s t "" None.

(** One node [A] and an edge from it to the name [constructor]. *)
Definition inherited_target : @GraphData unit :=
  mkGraphData (Some [node "1" "A"]) (Some [rel "A" "constructor"]).

(** Nodes [A] and [Object], and an edge from [A] to the name
    [constructor], which no node bears. *)
Definition namesake : @GraphData unit :=
  mkGraphData (Some [node "1" "A"; node "2" "Object"]) (Some [rel "A" "constructor"]).

(** Nodes that bear the names of inherited members, and edges between
    them. *)
Definition members : @GraphData unit :=
  mkGraphData (Some [node "1" "A"; node "2" "constructor"; node "3" "toString"])
              (Some [rel "A" "constructor"; rel "constructor" "toString";
                     rel "toString" "toString"]).

(** Nodes [A], [B]; a loop on [A], an edge [A→B] and an edge to a missing
    name. *)
Definition small : @GraphData unit :=
  mkGraphData (Some [node "1" "A"; node "2" "B"])
              (Some [rel "A" "A"; rel "A" "B"; rel "B" "Nowhere"]).

(** A single node and no relationship. *)
Definition alone : @GraphData unit :=
  mkGraphData (Some [node "1" "A"]) (Some []).

(** The renderer after [init] on a page with the minimap canvas. *)
Definition ready : @GraphRenderer unit := init true literal.

(** ASCII lower-casing, an instance of [toLowerCase] on ASCII names. *)
Definition lower_ascii (c : ascii) : ascii :=
  let n := nat_of_ascii c in
  if (65 <=? n) && (n <=? 90) then ascii_of_nat (n + 32) else c.

Fixpoint lower (s : string) : string :=
  match s with
  | EmptyString => EmptyString
  | String c rest => String (lower_ascii c) (lower rest)
  end.

(** The search scenario: nodes [Strategy1], [Strategy2], [Belief1], an edge
    between the strategies, one from a strategy to the belief and a loop on
    the belief. *)
Definition strategies : @GraphData unit :=
  mkGraphData (Some [node "1" "Strategy1"; node "2" "Strategy2"; node "3" "Belief1"])
              (Some [rel "Strategy1" "Strategy2"; rel "Strategy2" "Belief1";
                     rel "Belief1" "Belief1"]).

(** The state [render] leaves for a payload, starting from [ready]. *)
Definition rendered (g : @GraphData unit) : @GraphRenderer unit :=
  default ready (render () (Some g) ready).

(** The marks of the circles and of the lines of a state, by datum. *)
Definition circle_marks (this : @GraphRenderer unit) : list (string * bool * bool) :=
  map (λ e, (name (datum e), bool_decide ("highlighted" ∈ classes e),
             bool_decide ("faded" ∈ classes e)))
      (default [] (nodeElements this)).

Definition line_marks (this : @GraphRenderer unit) : list (Ref * Ref * bool) :=
  map (λ e, (source (datum e), target (datum e), bool_decide ("faded" ∈ classes e)))
      (default [] (linkElements this)).

(** Positions the simulation may have written for two nodes. *)
Definition placed : list (option (Q * Q)) :=
  [Some (30%Q, 40%Q); Some ((-50)%Q, 10%Q)].

End Payloads.

(* ===================================================================== *)
(** ** The sync script: [sync.js]                                         *)
(* ===================================================================== *)

Module Sync.

Definition INCLUDE_PREFIXES : list string := ["mind"; "thought-"].
Definition EXCLUDE_PREFIXES : list string := ["social-"; "trading"; "encounter-"].

(** [graphId.startsWith(prefix)] *)
Definition startsWith (graphId prefix : string) : bool := String.prefix prefix graphId.

(** [shouldSync]: the exclusions are checked first. *)
Definition shouldSync (graphId : string) : bool :=
  if existsb (startsWith graphId) EXCLUDE_PREFIXES then false
  else existsb (λ prefix, String.eqb graphId prefix || startsWith graphId prefix)
               INCLUDE_PREFIXES.

(** An element of the list the local server answers with: a string, or an
    object of which [id] and [name] are read; [None] is a missing, null or
    otherwise falsy field. *)
Inductive Listed :=
| ListedId (s : string)
| ListedGraph (id name : option string).

(** [typeof g === 'string' ? g : (g.id || g.name)], then [filter(Boolean)]:
    the empty string is falsy. *)
Definition truthy_string (o : option string) : option string :=
  match o with
  | Some s => if decide (s = "") then None else Some s
  | None => None
  end.

Definition listed_id (g : Listed) : option string :=
  match g with
  | ListedId s => truthy_string (Some s)
  | ListedGraph id name =>
      match truthy_string id with
      | Some s => Some s
      | None => truthy_string name
      end
  end.

Definition graphIds (graphList : list Listed) : list string := omap listed_id graphList.

Definition toSync (graphList : list Listed) : list string :=
  filter (λ g, shouldSync g = true) (graphIds graphList).

(** The loop of [main] over [toSync].  [syncGraph g] tells whether the
    awaited call resolved ([true]) or threw ([false]); the result is the pair
    of counters [(synced, failed)]. *)
Fixpoint run (syncGraph : string → bool) (ids : list string) (synced failed : nat)
  : nat * nat :=
  match ids with
  | [] => (synced, failed)
  | g :: rest =>
      if syncGraph g then run syncGraph rest (S synced) failed
      else run syncGraph rest synced (S failed)
  end.

Definition main (syncGraph : string → bool) (graphList : list Listed) : nat * nat :=
  run syncGraph (toSync graphList) 0 0.

End Sync.

(* ===================================================================== *)
(** ** Helpers of the page: [app.js]                                      *)
(* ===================================================================== *)

Module App.
Import Renderer.

(** [str.replace(/c/g, r)] for a one-character pattern. *)
Fixpoint replace_all (c : ascii) (r : string) (str : string) : string :=
  match str with
  | EmptyString => EmptyString
  | String a rest =>
      if decide (a = c) then r +:+ replace_all c r rest
      else String a (replace_all c r rest)
  end.

(** The double quote character. *)
Definition dquote : ascii := ascii_of_nat 34.

(** [escapeAttr] *)
Definition escapeAttr (str : string) : string :=
  replace_all ">" "&gt;"
    (replace_all "<" "&lt;"
       (replace_all "'" "&#39;"
          (replace_all dquote "&quot;" str))).

(** The four characters [escapeAttr] replaces. *)
Definition special : list ascii := [dquote; "'"; "<"; ">"]%char.

(** The characters of a string. *)
Definition chars (s : string) : list ascii := list_ascii_of_string s.

(** *** [timeAgo]

    Times are rationals, in milliseconds.  Of [dateStr], when it is truthy,
    the function reads [Number(dateStr)] and, in one branch,
    [new Date(dateStr).getTime()]; [None] is NaN. *)
Record DateStr := mkDateStr {
  as_number : option Q;
  as_date : option Q
}.

(** The value of [then]. *)
Definition epoch_ms (d : DateStr) : option Q :=
  match as_number d with
  | Some num =>
      if Qlt_bool 1000000000 num && Qlt_bool num 100000000000
      then Some (num * 1000)%Q
      else if Qlt_bool 1000000000000 num then Some num
      else as_date d
  | None => as_date d
  end.

(** The texts [timeAgo] returns: the dash, [just now], and the three that
    hold a number. *)
Inductive Ago :=
| Dash
| JustNow
| MinutesAgo (mins : Z)
| HoursAgo (hours : Z)
| DaysAgo (days : Z).

(** [timeAgo(dateStr)] at the time [now] of [Date.now()]; the argument is
    [None] when [dateStr] is falsy. *)
Definition timeAgo (dateStr : option DateStr) (now : Z) : Ago :=
  match dateStr with
  | None => Dash
  | Some d =>
      match epoch_ms d with
      | None => Dash
      | Some then_ =>
          let diff := (inject_Z now - then_)%Q in
          let mins := Qfloor (diff / 60000) in
          if (mins <? 1)%Z then JustNow
          else if (mins <? 60)%Z then MinutesAgo mins
          else
            let hours := (mins / 60)%Z in
            if (hours <? 24)%Z then HoursAgo hours
            else DaysAgo (hours / 24)%Z
      end
  end.

Section Connections.

Context {Json : Type}.

(** [findConnections(nodeName)] on [currentGraphData]. *)
Definition findConnections (currentGraphData : option (@GraphData Json))
    (nodeName : string) : list (@RelData Json) :=
  match currentGraphData ≫= gd_relationships with
  | None => []
  | Some rels =>
      filter (λ r, r_source r = nodeName ∨ r_target r = nodeName) rels
  end.

(** Relationships of a payload that start and end at [nodeName]. *)
Definition loops_at (g : @GraphData Json) (nodeName : string) : list (@RelData Json) :=
  filter (λ r, r_source r = nodeName ∧ r_target r = nodeName)
         (default [] (gd_relationships g)).

End Connections.

End App.

(* ===================================================================== *)
(** ** More of [GraphRenderer]                                            *)
(* ===================================================================== *)

Module View.
Import Renderer.

Section View.

Context {Json : Type}.
Implicit Types (this : @GraphRenderer Json).

(** [getNodeTypes]: [types[n.type] = (types[n.type] || 0) + 1] on an object
    literal, the very update [render] applies to [connectionCount]. *)
Definition getNodeTypes this : gmap string Count :=
  foldl bump ∅ (map type (nodes this)).

(** [focusNode(name)]: the transform [(tx, ty, scale)] handed to
    [this.zoom.transform], or [None] when the method returns early.  [!node.x]
    holds for a missing position and for the number 0.  The translation is
    exact here, where the code rounds each operation to a double; what is
    proved of [focusNode] reads the node it chooses, whether it makes a
    transform, and the scale. *)
Definition focusNode this (positions : list (option (Q * Q))) (width height : Q)
    (name0 : string) : option (Q * Q * Q) :=
  match list_find (λ n, name n = name0) (nodes this) with
  | None => None
  | Some (i, _) =>
      match mjoin (positions !! i) with
      | None => None
      | Some (x, y) =>
          if Qeq_bool x 0 then None
          else
            let scale : Q := 1.5%Q in
            Some (width / 2 - x * scale, height / 2 - y * scale, scale)%Q
      end
  end.

(** [destroy]: of the modelled fields it resets [svg], [nodes] and [links];
    the selections, the minimap context and the search state stay. *)
Definition destroy this : GraphRenderer :=
  mkGraphRenderer false (minimapCtx this) [] []
                  (nodeElements this) (linkElements this) (linkLabels this)
                  (nodeLabels this) (searchMatches this) (isSearchActive this).

(** The number a node shows as its connections, 0 when it is not one. *)
Definition connections_value (n : @Node Json) : nat :=
  match connections n with
  | Some (Num k) => k
  | _ => 0
  end.

Definition total_connections this : nat :=
  sum_list (map connections_value (nodes this)).

(** No relationship of the payload has an endpoint without a node. *)
Definition closed_payload (empty_object : Json) (g : @GraphData Json) : Prop :=
  ∀ rel, rel ∈ default [] (gd_relationships g) →
         r_source rel ∈ payload_names empty_object g ∧
         r_target rel ∈ payload_names empty_object g.

End View.

End View.

(* ===================================================================== *)
(** ** The other routes of [server.js]: sync, full graph, search          *)
(* ===================================================================== *)

Module Routes.
Import Server.

(** A row of [CREATE TABLE graphs]. *)
Record GraphRow := mkGraphRow {
  g_id : string;
  g_name : string;
  g_node_count : nat;
  g_rel_count : nat;
  g_updated_at : string
}.

(** The database: the [graphs] table and the two tables of [Server.Db]. *)
Record Store := mkStore {
  graphs : list GraphRow;
  tables : Db
}.

Definition empty_store : Store := mkStore [] (mkDb [] []).

(** A field of a posted object.  The model covers bodies whose fields,
    where present, are strings: then [String(v)] is [v]. *)
Inductive Field :=
| Absent                       (* [undefined] *)
| Null
| Text (s : string).

(** The operand of [||] when it is truthy. *)
Definition truthy (f : Field) : option string :=
  match f with
  | Text s => if decide (s = "") then None else Some s
  | _ => None
  end.

(** [f || d] for a string [d]. *)
Definition or_else (f : Field) (d : string) : string := default d (truthy f).

(** [`${f}`] *)
Definition template (f : Field) : string :=
  match f with
  | Absent => "undefined"
  | Null => "null"
  | Text s => s
  end.

(** The primary keys [(graph_id, id)]. *)
Definition node_key (n : NodeRow) : string * string := (node_graph_id n, node_id n).
Definition rel_pkey (r : RelRow) : string * string := (rel_graph_id r, rel_id r).

(** [INSERT INTO nodes]: [None] is the constraint error. *)
Definition insert_node (row : NodeRow) (rows : list NodeRow) : option (list NodeRow) :=
  if decide (node_key row ∈ map node_key rows) then None else Some (rows ++ [row]).

Definition insert_rel (row : RelRow) (rows : list RelRow) : option (list RelRow) :=
  if decide (rel_pkey row ∈ map rel_pkey rows) then None else Some (rows ++ [row]).

(** [INSERT INTO graphs ... ON CONFLICT(id) DO UPDATE SET ...]: every other
    column is taken from the new row. *)
Definition upsert_graph (g : GraphRow) (gs : list GraphRow) : list GraphRow :=
  if decide (g_id g ∈ map g_id gs)
  then map (λ x, if decide (g_id x = g_id g) then g else x) gs
  else gs ++ [g].

(** [SELECT * FROM graphs WHERE id = ?] followed by [.get]. *)
Definition get_graph (st : Store) (graphId : string) : option GraphRow :=
  List.find (λ g, bool_decide (g_id g = graphId)) (graphs st).

(** [SELECT * FROM nodes WHERE graph_id = ?] and the same on
    [relationships]. *)
Definition graph_nodes (st : Store) (graphId : string) : list NodeRow :=
  filter (λ n, node_graph_id n = graphId) (nodes (tables st)).

Definition graph_rels (st : Store) (graphId : string) : list RelRow :=
  filter (λ r, rel_graph_id r = graphId) (relationships (tables st)).

Section Routes.

Context {Json : Type}.
Variable JSON_parse : string → option Json.
Variable JSON_stringify : Json → string.
Variable empty_object : Json.

Local Abbreviation node_obj := (node_obj JSON_parse empty_object).
Local Abbreviation rel_obj := (rel_obj JSON_parse empty_object).
Local Abbreviation parse_properties := (parse_properties JSON_parse empty_object).

(** *** [POST /api/sync] *)

(** The value of [properties] in a posted node or relationship. *)
Inductive Posted :=
| PostedText (s : string)        (* [typeof] is ['string'] *)
| PostedValue (j : Json)         (* another truthy value *)
| PostedFalsy.                   (* [undefined], [null], [false], [0] *)

Record PostedNode := mkPostedNode {
  p_id : Field;
  p_name : Field;
  p_type : Field;
  p_properties : Posted;
  p_created_at : Field;
  p__created : Field;
  p_updated_at : Field;
  p__updated : Field
}.

Record PostedRel := mkPostedRel {
  q_id : Field;
  q_source : Field;
  q_target : Field;
  q_type : Field;
  q_properties : Posted;
  q_created_at : Field;
  q__created : Field
}.

(** [req.body]; [None] is a falsy [nodes] or [relationships]. *)
Record Body := mkBody {
  b_id : Field;
  b_nodes : option (list PostedNode);
  b_relationships : option (list PostedRel)
}.

(** [typeof p === 'string' ? p : JSON.stringify(p || {})] *)
Definition props_text (p : Posted) : string :=
  match p with
  | PostedText s => s
  | PostedValue j => JSON_stringify j
  | PostedFalsy => JSON_stringify empty_object
  end.

Section Transaction.

(** The graph id, the timestamp [now] and the strings the successive calls
    of [Math.random().toString(36).slice(2)] return. *)
Variable id : string.
Variable now : string.
Variable random : nat → string.

(** The row inserted for a posted node, [k] calls of [Math.random] having
    been made before, and the number of calls made after. *)
Definition posted_node_row (k : nat) (node : PostedNode) : NodeRow * nat :=
  let '(nodeId, k') :=
    match truthy (p_id node) with
    | Some s => (s, k)
    | None =>
        match truthy (p_name node) with
        | Some s => (s, k)
        | None => (random k, S k)
        end
    end in
  (mkNodeRow nodeId id (or_else (p_name node) "") (or_else (p_type node) "Unknown")
             (Some (props_text (p_properties node)))
             (or_else (p_created_at node) (or_else (p__created node) now))
             (or_else (p_updated_at node) (or_else (p__updated node) now)),
   k').

Definition posted_rel_row (k : nat) (rel : PostedRel) : RelRow * nat :=
  let '(relId, k') :=
    match truthy (q_id rel) with
    | Some s => (s, k)
    | None =>
        (template (q_source rel) +:+ "-" +:+ template (q_type rel) +:+ "-"
           +:+ template (q_target rel) +:+ "-" +:+ random k,
         S k)
    end in
  (mkRelRow relId id (or_else (q_source rel) "") (or_else (q_target rel) "")
            (or_else (q_type rel) "RELATES_TO")
            (Some (props_text (q_properties rel)))
            (or_else (q_created_at rel) (or_else (q__created rel) now)),
   k').

(** [for (const node of nodeList)] and [for (const rel of relList)]. *)
Fixpoint insert_nodes (k : nat) (nodeList : list PostedNode) (rows : list NodeRow)
  : option (list NodeRow * nat) :=
  match nodeList with
  | [] => Some (rows, k)
  | node :: rest =>
      let '(row, k') := posted_node_row k node in
      rows' ← insert_node row rows; insert_nodes k' rest rows'
  end.

Fixpoint insert_rels (k : nat) (relList : list PostedRel) (rows : list RelRow)
  : option (list RelRow * nat) :=
  match relList with
  | [] => Some (rows, k)
  | rel :: rest =>
      let '(row, k') := posted_rel_row k rel in
      rows' ← insert_rel row rows; insert_rels k' rest rows'
  end.

(** The body of [db.transaction]; [None] when a statement threw, in which
    case the transaction is rolled back. *)
Definition syncTransaction (nodeList : list PostedNode) (relList : list PostedRel)
    (st : Store) : option Store :=
  let nodes0 := filter (λ n, node_graph_id n ≠ id) (nodes (tables st)) in
  let rels0 := filter (λ r, rel_graph_id r ≠ id) (relationships (tables st)) in
  '(nodes1, k) ← insert_nodes 0 nodeList nodes0;
  '(rels1, _) ← insert_rels k relList rels0;
  Some (mkStore (upsert_graph (mkGraphRow id id (length nodeList) (length relList) now)
                              (graphs st))
                (mkDb nodes1 rels1)).

(** The rows the two loops insert, in order, and the number of calls of
    [Math.random] the first loop makes. *)
Fixpoint node_rows (k : nat) (nodeList : list PostedNode) : list NodeRow :=
  match nodeList with
  | [] => []
  | node :: rest =>
      (posted_node_row k node).1 :: node_rows (posted_node_row k node).2 rest
  end.

Fixpoint rel_rows (k : nat) (relList : list PostedRel) : list RelRow :=
  match relList with
  | [] => []
  | rel :: rest =>
      (posted_rel_row k rel).1 :: rel_rows (posted_rel_row k rel).2 rest
  end.

Fixpoint node_draws (k : nat) (nodeList : list PostedNode) : nat :=
  match nodeList with
  | [] => k
  | node :: rest => node_draws (posted_node_row k node).2 rest
  end.

Fixpoint rel_draws (k : nat) (relList : list PostedRel) : nat :=
  match relList with
  | [] => k
  | rel :: rest => rel_draws (posted_rel_row k rel).2 rest
  end.

End Transaction.

Variable SYNC_KEY : string.

Inductive SyncResponse :=
| Forbidden                                     (* status 403 *)
| BadRequest                                    (* status 400 *)
| SyncError                                     (* status 500, from [catch] *)
| Synced (graph : string) (nodes relationships : nat) (synced_at : string).

(** The handler: [key] is the header [x-sync-key], [now] the value of
    [new Date().toISOString()].  The result is the answer and the database
    after the request. *)
Definition sync (key : option string) (body : Body) (now : string)
    (random : nat → string) (st : Store) : SyncResponse * Store :=
  if decide (key = Some SYNC_KEY) then
    match truthy (b_id body) with
    | None => (BadRequest, st)
    | Some id =>
        let nodeList := default [] (b_nodes body) in
        let relList := default [] (b_relationships body) in
        match syncTransaction id now random nodeList relList st with
        | None => (SyncError, st)
        | Some st' => (Synced id (length nodeList) (length relList) now, st')
        end
    end
  else (Forbidden, st).

(** *** [GET /api/graph/:id] *)

Inductive GraphResponse :=
| GraphNotFound                                 (* status 404 *)
| GraphError                                    (* status 500 *)
| Graph (id name : string) (nodes : list (@NodeObj Json))
        (relationships : list (@RelObj Json)).

Definition getGraph (st : Store) (graphId : string) : GraphResponse :=
  match get_graph st graphId with
  | None => GraphNotFound
  | Some graph =>
      match mapM node_obj (graph_nodes st graphId) with
      | None => GraphError
      | Some ns =>
          match mapM rel_obj (graph_rels st graphId) with
          | None => GraphError
          | Some rs => Graph (g_id graph) (g_name graph) ns rs
          end
      end
  end.

(** *** [GET /api/stats] *)

Record GlobalStats := mkGlobalStats {
  total_graphs : nat;
  total_nodes : nat;
  total_relationships : nat;
  last_sync : option string
}.

(** [MAX(updated_at)]: the greatest text in byte order, [NULL] on an empty
    table. *)
Definition max_text (l : list string) : option string :=
  foldl (λ acc s, match acc with
                  | None => Some s
                  | Some m => if String.ltb m s then Some s else Some m
                  end)
        None l.

Definition stats (st : Store) : GlobalStats :=
  mkGlobalStats (length (graphs st)) (length (nodes (tables st)))
                (length (relationships (tables st)))
                (max_text (map g_updated_at (graphs st))).

(** *** [GET /api/graph/:id/search] *)

(** [name LIKE pattern] of SQLite, the pattern first. *)
Variable like : string → string → bool.

(** The answer: [None] is status 500.  [q] is [req.query.q], a string or
    absent. *)
Definition search (st : Store) (graphId : string) (q : option string)
  : option (list (@NodeObj Json)) :=
  let q := default "" q in
  if decide (q = "") then Some []
  else
    mapM node_obj
         (take 50 (filter (λ n, node_graph_id n = graphId
                                ∧ like ("%" +:+ q +:+ "%") (node_name n) = true)
                          (nodes (tables st)))).

(** *** Notions used to state the properties of [sync] *)

(** What [getGraph] makes of posted properties once they are stored. *)
Definition read_back (p : Posted) : option Json :=
  parse_properties (Some (props_text p)).

(** [JSON.parse] undoes [JSON.stringify], which never returns the empty
    text. *)
Definition json_round_trip : Prop :=
  ∀ j, JSON_stringify j ≠ "" ∧ JSON_parse (JSON_stringify j) = Some j.

(** The primary keys are unique, every row belongs to a listed graph, and
    the counts cached in [graphs] are those of the tables. *)
Definition keys_unique (st : Store) : Prop :=
  NoDup (map g_id (graphs st)) ∧
  NoDup (map node_key (nodes (tables st))) ∧
  NoDup (map rel_pkey (relationships (tables st))).

Definition registered (st : Store) : Prop :=
  (∀ n, n ∈ nodes (tables st) → node_graph_id n ∈ map g_id (graphs st)) ∧
  (∀ r, r ∈ relationships (tables st) → rel_graph_id r ∈ map g_id (graphs st)).

Definition counts_cached (st : Store) : Prop :=
  ∀ g, g ∈ graphs st →
       g_node_count g = length (graph_nodes st (g_id g)) ∧
       g_rel_count g = length (graph_rels st (g_id g)).

Definition consistent (st : Store) : Prop :=
  keys_unique st ∧ registered st ∧ counts_cached st.

(** *** A notion used to relate the expansion to the full graph *)

(** What the expansion has collected so far: every node object and every
    relationship object is a row of the graph with its parsed properties,
    and the names of the node objects are visited and pairwise distinct. *)
Definition collected (db : Db) (graphId : string) (s : @State Json) : Prop :=
  (∀ o, o ∈ allNodes s →
        node_row o ∈ nodes db ∧ node_graph_id (node_row o) = graphId ∧
        node_obj (node_row o) = Some o) ∧
  (∀ o, o ∈ allRels s →
        rel_row o ∈ relationships db ∧ rel_graph_id (rel_row o) = graphId ∧
        rel_obj (rel_row o) = Some o) ∧
  NoDup (node_names (allNodes s)) ∧
  (∀ x, x ∈ node_names (allNodes s) → x ∈ visited s).

End Routes.

End Routes.

(** Concrete requests. *)
Module Posts.
Import Server Routes.

(** A [JSON.stringify] and a [JSON.parse] for a single value, the empty
    object. *)
Definition stringify_any (_ : unit) : string := "{}".

Definition parse_object (s : string) : option unit :=
  if decide (s = "{}") then Some () else None.

(** Successive results of [Math.random().toString(36).slice(2)]. *)
Definition draws (k : nat) : string := String (ascii_of_nat (97 + k)) "".

(** A posted node with an id and a name, one with a name only, and a posted
    relationship without id. *)
Definition posted (i n : string) : @PostedNode unit :=
  mkPostedNode (Text i) (Text n) Absent PostedFalsy Absent Absent Absent Absent.

Definition named (n : string) : @PostedNode unit :=
  mkPostedNode Absent (Text n) Absent PostedFalsy Absent Absent Absent Absent.

Definition link (s t : string) : @PostedRel unit :=
  mkPostedRel Absent (Text s) (Text t) Absent PostedFalsy Absent Absent.

(** A graph of two nodes and one relationship. *)
Definition pair_body : @Body unit :=
  mkBody (Text "mind-a") (Some [posted "1" "A"; posted "2" "B"]) (Some [link "A" "B"]).

(** Two nodes without id that share a name. *)
Definition clash_body : @Body unit :=
  mkBody (Text "mind-a") (Some [named "A"; named "A"]) None.

(** A node whose [properties] is a string that is not JSON. *)
Definition text_body : @Body unit :=
  mkBody (Text "mind-a")
         (Some [mkPostedNode (Text "1") (Text "A") Absent (PostedText "plain words")
                             Absent Absent Absent Absent])
         None.

(** The database after [pair_body] was posted to an empty one. *)
Definition pair_store : Store :=
  (sync stringify_any () "key" (Some "key") pair_body "2024-01-01" draws empty_store).2.

Definition text_store : Store :=
  (sync stringify_any () "key" (Some "key") text_body "2024-01-01" draws empty_store).2.

(** A [LIKE] that holds when the pattern, less its two [%], is the name. *)
Definition like_exact (pattern name : string) : bool :=
  bool_decide (pattern = "%" +:+ name +:+ "%").

End Posts.

(* ===================================================================== *)
(** ** Facts about the expansion                                          *)
(* ===================================================================== *)

Module ServerFacts.
Import Server.

Lemma or_default_mono (d1 d2 : Z) :
  (d1 < d2)%Z → (or_default (Some d1) ≤ or_default (Some d2))%Z.
Proof. unfold or_default. intros. repeat case_decide; lia. Qed.

Lemma rounds_mono (d1 d2 : Z) :
  (d1 < d2)%Z → rounds (Some d1) ≤ rounds (Some d2).
Proof.
  intros H. unfold rounds, depth_of.
  pose proof (or_default_mono d1 d2 H). lia.
Qed.

Lemma rounds_negative (d : Z) : (d < 0)%Z → rounds (Some d) = 0.
Proof. intros. unfold rounds, depth_of, or_default. case_decide; lia. Qed.

Lemma rounds_clamped (d : Z) : (3 < d)%Z → rounds (Some d) = 3.
Proof. intros. unfold rounds, depth_of, or_default. case_decide; lia. Qed.

Lemma rounds_le_3 (p : option Z) : rounds p ≤ 3.
Proof. unfold rounds, depth_of. lia. Qed.

(** Within one graph the key of a row determines its [id], so rows that the
    primary key [(graph_id, id)] keeps apart have different keys. *)
Lemma row_key_inj (r1 r2 : RelRow) :
  rel_graph_id r1 = rel_graph_id r2 → row_key r1 = row_key r2 →
  rel_id r1 = rel_id r2.
Proof.
  unfold row_key. intros <-. generalize (rel_graph_id r1) as g.
  induction g as [|c g IH]; simpl; intros H.
  - by injection H.
  - injection H as H. by apply IH.
Qed.

Section Facts.

Context {Json : Type}.
Variable JSON_parse : string → option Json.
Variable empty_object : Json.
Variable db : Db.
Variable graphId : string.

Local Abbreviation visit := (visit JSON_parse empty_object db graphId).
Local Abbreviation scan_rel := (scan_rel JSON_parse empty_object db graphId).
Local Abbreviation scan_rels := (scan_rels JSON_parse empty_object db graphId).
Local Abbreviation round := (round JSON_parse empty_object db graphId).
Local Abbreviation loop := (loop JSON_parse empty_object db graphId).
Local Abbreviation collect := (collect JSON_parse empty_object db graphId).
Local Abbreviation expand := (expand JSON_parse empty_object db graphId).
Local Abbreviation rel_obj := (rel_obj JSON_parse empty_object).
Local Abbreviation node_obj := (node_obj JSON_parse empty_object).
Local Abbreviation from_store := (from_store db graphId).
Local Abbreviation store_parses := (store_parses JSON_parse empty_object db).

(** *** One name, one relationship, one round *)

Lemma rel_obj_row r o : rel_obj r = Some o → rel_row o = r.
Proof.
  unfold rel_obj. destruct (parse_properties _ _ _) eqn:E; simpl; [|done].
  by intros [= <-].
Qed.

Lemma node_obj_row n o : node_obj n = Some o → node_row o = n.
Proof.
  unfold node_obj. destruct (parse_properties _ _ _) eqn:E; simpl; [|done].
  by intros [= <-].
Qed.

Lemma visit_grows name s s' :
  visit name s = Some s' →
  allNodes s `prefix_of` allNodes s' ∧ allRels s' = allRels s ∧
  visited s ⊆ visited s' ∧ name ∈ visited s'.
Proof.
  unfold visit. case_decide as Hin.
  - intros [= <-]. done.
  - destruct (get_node db graphId name) as [nb|].
    + destruct (node_obj nb) as [o|]; simpl; [|done].
      intros [= <-]; simpl. split_and!; [by apply prefix_app_r|done|set_solver|set_solver].
    + intros [= <-]; simpl. split_and!; [done|done|set_solver|set_solver].
Qed.

Lemma scan_rel_grows rel s s' :
  scan_rel rel s = Some s' →
  allNodes s `prefix_of` allNodes s' ∧
  ∃ o, rel_row o = rel ∧ allRels s' = allRels s ++ [o].
Proof.
  unfold scan_rel. destruct (rel_obj rel) as [o|] eqn:Ho; simpl; [|done].
  destruct (visit (rel_source rel) _) as [s2|] eqn:H2; simpl; [|done].
  intros H3.
  apply visit_grows in H2 as (Hn2 & Hr2 & _).
  apply visit_grows in H3 as (Hn3 & Hr3 & _).
  simpl in *. split; [by etrans|].
  exists o. split; [by eapply rel_obj_row|]. by rewrite Hr3, Hr2.
Qed.

Lemma scan_rels_grows rels s s' :
  scan_rels rels s = Some s' →
  allNodes s `prefix_of` allNodes s' ∧
  ∃ os, map rel_row os = rels ∧ allRels s' = allRels s ++ os.
Proof.
  revert s. induction rels as [|rel rest IH]; intros s; simpl.
  - intros [= <-]. split; [done|]. exists []. by rewrite app_nil_r.
  - destruct (scan_rel rel s) as [s1|] eqn:H1; simpl; [|done].
    intros H2. apply scan_rel_grows in H1 as (Hn1 & o & Ho & Hr1).
    apply IH in H2 as (Hn2 & os & Hos & Hr2).
    split; [by etrans|].
    exists (o :: os). simpl. split; [by rewrite Ho, Hos|].
    by rewrite Hr2, Hr1, <- app_assoc.
Qed.

Lemma round_grows s s' :
  round s = Some s' →
  allNodes s `prefix_of` allNodes s' ∧
  ∃ os, map rel_row os = out_rels db graphId (frontier s) ++ in_rels db graphId (frontier s)
        ∧ allRels s' = allRels s ++ os.
Proof. unfold round. intros H. by apply scan_rels_grows in H. Qed.

(** *** The loop *)

Lemma loop_empty_frontier n s : frontier s = [] → loop n s = Some s.
Proof. intros H. destruct n; simpl; [done|]. by rewrite H. Qed.

Lemma loop_add a b s : loop (a + b) s = loop a s ≫= loop b.
Proof.
  revert s. induction a as [|a IH]; intros s; simpl; [done|].
  destruct (frontier s) eqn:Hf.
  - simpl. by rewrite loop_empty_frontier.
  - destruct (round s) as [s1|]; simpl; [|done]. apply IH.
Qed.

Lemma loop_grows n s s' :
  loop n s = Some s' →
  allNodes s `prefix_of` allNodes s' ∧ allRels s `prefix_of` allRels s'.
Proof.
  revert s. induction n as [|n IH]; intros s; simpl.
  - by intros [= <-].
  - destruct (frontier s); [by intros [= <-]|].
    destruct (round s) as [s1|] eqn:H1; simpl; [|done].
    intros H2. apply round_grows in H1 as (Hn1 & os & _ & Hr1).
    apply IH in H2 as (Hn2 & Hr2). split; [by etrans|].
    etrans; [|exact Hr2]. rewrite Hr1. by apply prefix_app_r.
Qed.

Lemma loop_mono n m s s2 :
  n ≤ m → loop m s = Some s2 →
  ∃ s1, loop n s = Some s1 ∧ loop (m - n) s1 = Some s2.
Proof.
  intros Hle. replace m with (n + (m - n)) at 1 by lia.
  rewrite loop_add. destruct (loop n s) as [s1|]; simpl; [|done].
  intros H. by exists s1.
Qed.

(** *** Results of the handler *)

Lemma expand_Ok nodeName depth nd ns rs :
  expand nodeName depth = Ok nd ns rs →
  ∃ node s, get_node db graphId nodeName = Some node ∧
            collect nodeName node depth = Some s ∧
            nd = head (allNodes s) ∧ ns = allNodes s ∧
            rs = uniqueRels (allRels s).
Proof.
  unfold expand. destruct (get_node db graphId nodeName) as [node|]; [|done].
  destruct (collect nodeName node depth) as [s|] eqn:Hc; [|done].
  intros [= <- <- <-]. by exists node, s.
Qed.

Lemma collect_Some nodeName node depth s :
  collect nodeName node depth = Some s →
  ∃ o, node_obj node = Some o ∧
       loop (rounds depth) (start_state nodeName o) = Some s.
Proof.
  unfold collect. destruct (node_obj node) as [o|]; simpl; [|done].
  intros H. by exists o.
Qed.

Lemma get_node_Some name n :
  get_node db graphId name = Some n →
  n ∈ nodes db ∧ node_graph_id n = graphId ∧ node_name n = name.
Proof.
  unfold get_node. intros H. apply find_some in H as [Hin Hb].
  apply bool_decide_eq_true in Hb. by rewrite list_elem_of_In.
Qed.

Lemma get_node_None name :
  (∀ n, n ∈ nodes db → ¬ (node_graph_id n = graphId ∧ node_name n = name)) →
  get_node db graphId name = None.
Proof.
  intros H. unfold get_node.
  destruct (List.find _ _) as [n|] eqn:E; [|done].
  apply find_some in E as [Hin Hb]. apply bool_decide_eq_true in Hb.
  exfalso. eapply H; [|exact Hb]. by apply list_elem_of_In.
Qed.

Lemma visit_from_store name s s' :
  from_store s → visit name s = Some s' → from_store s'.
Proof.
  unfold visit, from_store. intros Hs. case_decide.
  - by intros [= <-].
  - destruct (get_node db graphId name) as [nb|] eqn:Hg.
    + destruct (node_obj nb) as [o|] eqn:Ho; simpl; [|done].
      intros [= <-] o'; simpl. rewrite elem_of_app, list_elem_of_singleton.
      intros [?| ->]; [by apply Hs|].
      rewrite (node_obj_row _ _ Ho).
      apply get_node_Some in Hg as Hg'. destruct Hg' as (_ & _ & ->). done.
    + intros [= <-] o'; simpl. apply Hs.
Qed.

Lemma scan_rels_from_store rels s s' :
  from_store s → scan_rels rels s = Some s' → from_store s'.
Proof.
  revert s. induction rels as [|rel rest IH]; intros s Hs; simpl.
  - by intros [= <-].
  - unfold Server.scan_rel.
    destruct (rel_obj rel) as [o|]; simpl; [|done].
    destruct (visit (rel_source rel) _) as [s2|] eqn:H2; simpl; [|done].
    destruct (visit (rel_target rel) s2) as [s3|] eqn:H3; simpl; [|done].
    apply IH. eapply visit_from_store; [|exact H3].
    eapply visit_from_store; [|exact H2]. exact Hs.
Qed.

Lemma loop_from_store n s s' :
  from_store s → loop n s = Some s' → from_store s'.
Proof.
  revert s. induction n as [|n IH]; intros s Hs; simpl.
  - by intros [= <-].
  - destruct (frontier s); [by intros [= <-]|].
    destruct (round s) as [s1|] eqn:H1; simpl; [|done].
    apply IH. unfold Server.round in H1.
    eapply scan_rels_from_store; [|exact H1]. exact Hs.
Qed.

(** A relationship of the graph that touches the frontier is fetched by one
    of the two batched lookups, whatever its other endpoint is. *)
Lemma incident_fetched (fr : list string) name r :
  name ∈ fr → r ∈ relationships db → rel_graph_id r = graphId →
  rel_source r = name ∨ rel_target r = name →
  r ∈ out_rels db graphId fr ++ in_rels db graphId fr.
Proof.
  intros Hn Hr Hg Hst. rewrite elem_of_app. unfold out_rels, in_rels.
  rewrite !list_elem_of_filter. destruct Hst as [<-|<-]; [left|right]; done.
Qed.

Lemma round_keeps_incident s s' name r :
  round s = Some s' →
  name ∈ frontier s → r ∈ relationships db → rel_graph_id r = graphId →
  rel_source r = name ∨ rel_target r = name →
  row_key r ∈ rel_keys (allRels s').
Proof.
  intros Hround Hn Hr Hg Hst.
  apply round_grows in Hround as (_ & os & Hos & ->).
  pose proof (incident_fetched _ _ _ Hn Hr Hg Hst) as Hin.
  rewrite <- Hos in Hin. apply list_elem_of_fmap in Hin as (o & -> & Ho).
  unfold rel_keys. apply list_elem_of_fmap. exists o. split; [done|].
  rewrite elem_of_app. by right.
Qed.

Lemma prefix_keys (l1 l2 : list (@RelObj Json)) k :
  l1 `prefix_of` l2 → k ∈ rel_keys l1 → k ∈ rel_keys l2.
Proof.
  intros [l ->]. unfold rel_keys. rewrite fmap_app, elem_of_app. by left.
Qed.


(** *** Deduplication by key *)

Lemma unique_from_keys seen (rs : list (@RelObj Json)) k :
  k ∈ rel_keys (unique_from seen rs) ↔ k ∈ rel_keys rs ∧ k ∉ seen.
Proof.
  revert seen. induction rs as [|r rest IH]; intros seen; simpl.
  - unfold rel_keys; simpl. set_solver.
  - unfold rel_keys in *; simpl. case_decide as Hin; simpl.
    + rewrite IH, elem_of_cons. split; [naive_solver|].
      intros [[->|?] ?]; done.
    + rewrite !elem_of_cons, IH.
      destruct (decide (k = rel_key r)) as [->|]; set_solver.
Qed.

Lemma unique_from_NoDup seen (rs : list (@RelObj Json)) : NoDup (rel_keys (unique_from seen rs)).
Proof.
  revert seen. induction rs as [|r rest IH]; intros seen; simpl.
  - constructor.
  - case_decide; [apply IH|].
    unfold rel_keys; simpl. constructor; [|apply IH].
    fold (rel_keys (unique_from ({[rel_key r]} ∪ seen) rest)).
    rewrite unique_from_keys. set_solver.
Qed.

Lemma uniqueRels_keys (rs : list (@RelObj Json)) k : k ∈ rel_keys (uniqueRels rs) ↔ k ∈ rel_keys rs.
Proof. unfold uniqueRels. rewrite unique_from_keys. set_solver. Qed.

Lemma uniqueRels_NoDup (rs : list (@RelObj Json)) : NoDup (rel_keys (uniqueRels rs)).
Proof. apply unique_from_NoDup. Qed.

(** Number of entries of a list of keys that equal [k]. *)
Lemma filter_eq_absent (l : list string) (k : string) :
  k ∉ l → filter (λ x, x = k) l = [].
Proof.
  induction l as [|x l IH]; [done|].
  rewrite not_elem_of_cons. intros [Hne Hk].
  rewrite filter_cons. case_decide; [congruence|]. by apply IH.
Qed.

Lemma NoDup_count_one (l : list string) (k : string) :
  NoDup l → k ∈ l → length (filter (λ x, x = k) l) = 1.
Proof.
  induction 1 as [|x l Hx Hnd IH]; [by intros ?%elem_of_nil|].
  rewrite filter_cons. case_decide as Heq.
  - subst x. intros _. simpl. by rewrite filter_eq_absent.
  - rewrite elem_of_cons. intros [->|Hk]; [done|]. by apply IH.
Qed.

(** *** No answer 500 on a store whose properties parse *)

Lemma visit_defined name s : store_parses → is_Some (visit name s).
Proof.
  intros [Hn _]. unfold Server.visit. case_decide; [done|].
  destruct (get_node db graphId name) as [nb|] eqn:Hg; [|done].
  apply get_node_Some in Hg as (Hin & _).
  destruct (Hn nb Hin) as [o ->]. done.
Qed.

Lemma scan_rels_defined rels s :
  store_parses → (∀ r, r ∈ rels → r ∈ relationships db) →
  is_Some (scan_rels rels s).
Proof.
  intros Hp. revert s. induction rels as [|rel rest IH]; intros s Hin; simpl; [done|].
  unfold Server.scan_rel.
  destruct (proj2 Hp rel) as [o ->]; [apply Hin; left|]. simpl.
  destruct (visit_defined (rel_source rel)
              (mkState (visited s) (frontier s) (allNodes s) (allRels s ++ [o])) Hp)
    as [s2 ->]. simpl.
  destruct (visit_defined (rel_target rel) s2 Hp) as [s3 ->]. simpl.
  apply IH. intros r Hr. apply Hin. by right.
Qed.

Lemma round_defined s : store_parses → is_Some (round s).
Proof.
  intros Hp. unfold Server.round. apply scan_rels_defined; [done|].
  intros r. rewrite elem_of_app. unfold out_rels, in_rels.
  rewrite !list_elem_of_filter. naive_solver.
Qed.

Lemma loop_defined n s : store_parses → is_Some (loop n s).
Proof.
  intros Hp. revert s. induction n as [|n IH]; intros s; simpl; [done|].
  destruct (frontier s); [done|].
  destruct (round_defined s Hp) as [s1 ->]. simpl. apply IH.
Qed.

Lemma expand_answers nodeName depth :
  store_parses → expand nodeName depth ≠ ServerError.
Proof.
  intros Hp. unfold Server.expand, Server.collect.
  destruct (get_node db graphId nodeName) as [node|] eqn:Hg; [|done].
  apply get_node_Some in Hg as (Hin & _).
  destruct (proj1 Hp node Hin) as [o ->]. simpl.
  by destruct (loop_defined (rounds depth) (start_state nodeName o) Hp) as [s ->].
Qed.

(** *** Depth handling *)

Lemma expand_same_rounds nodeName p q :
  rounds p = rounds q → expand nodeName p = expand nodeName q.
Proof. intros H. unfold Server.expand, Server.collect. by rewrite H. Qed.

Lemma expand_no_round nodeName node o p :
  get_node db graphId nodeName = Some node → node_obj node = Some o →
  rounds p = 0 → expand nodeName p = Ok (Some o) [o] [].
Proof.
  intros Hg Ho Hr. unfold Server.expand, Server.collect.
  rewrite Hg, Ho, Hr. done.
Qed.

(** C1, as the handler implements it: a negative depth runs no round and
    returns the start node alone with no edge; a depth of 0, like an absent
    or non-numeric one, is replaced by 1; a depth above 3 is clamped to 3. *)
Theorem expand_depth_policy nodeName node o :
  get_node db graphId nodeName = Some node →
  node_obj node = Some o →
  (∀ d, (d < 0)%Z → expand nodeName (Some d) = Ok (Some o) [o] []) ∧
  expand nodeName (Some 0%Z) = expand nodeName (Some 1%Z) ∧
  expand nodeName None = expand nodeName (Some 1%Z) ∧
  (∀ d, (3 < d)%Z → expand nodeName (Some d) = expand nodeName (Some 3%Z)).
Proof.
  intros Hg Ho. split_and!.
  - intros d Hd. eapply expand_no_round; eauto using rounds_negative.
  - by apply expand_same_rounds.
  - by apply expand_same_rounds.
  - intros d Hd. apply expand_same_rounds. by rewrite rounds_clamped.
Qed.

(** *** Node sets grow with the depth *)

Lemma expand_shallower nodeName (d1 d2 : Z) nd2 ns2 rs2 :
  (d1 < d2)%Z →
  expand nodeName (Some d2) = Ok nd2 ns2 rs2 →
  ∃ nd1 ns1 rs1,
    expand nodeName (Some d1) = Ok nd1 ns1 rs1 ∧
    ∀ x, x ∈ node_names ns1 → x ∈ node_names ns2.
Proof.
  intros Hlt H2.
  apply expand_Ok in H2 as (node & s2 & Hg & Hc2 & -> & -> & ->).
  apply collect_Some in Hc2 as (o & Ho & Hl2).
  destruct (loop_mono _ _ _ _ (rounds_mono _ _ Hlt) Hl2) as (s1 & Hl1 & Hrest).
  exists (head (allNodes s1)), (allNodes s1), (uniqueRels (allRels s1)). split.
  - unfold Server.expand, Server.collect. rewrite Hg, Ho. simpl. by rewrite Hl1.
  - apply loop_grows in Hrest as [[l ->] _].
    intros x. unfold node_names. rewrite fmap_app, elem_of_app. by left.
Qed.

(** C3: for depths [d1 < d2] on the same store, whenever the deeper call
    answers with a subgraph so does the shallower one, and every node name of
    the shallower answer is a node name of the deeper one; on a store whose
    properties all parse, the names the shallower call returns are among
    those the deeper call returns. *)
Theorem expand_nodes_monotone nodeName (d1 d2 : Z) :
  (d1 < d2)%Z →
  (∀ nd2 ns2 rs2,
     expand nodeName (Some d2) = Ok nd2 ns2 rs2 →
     ∃ nd1 ns1 rs1,
       expand nodeName (Some d1) = Ok nd1 ns1 rs1 ∧
       ∀ x, x ∈ node_names ns1 → x ∈ node_names ns2) ∧
  (store_parses →
   ∀ x, x ∈ response_names (expand nodeName (Some d1)) →
        x ∈ response_names (expand nodeName (Some d2))).
Proof.
  intros Hlt. split; [intros; by eapply expand_shallower|].
  intros Hp x.
  pose proof (expand_answers nodeName (Some d2) Hp) as H500.
  destruct (expand nodeName (Some d2)) as [e| |nd2 ns2 rs2] eqn:H2; [|done|].
  - unfold Server.expand in *.
    destruct (get_node db graphId nodeName); [|by intros ?%elem_of_nil].
    by destruct (collect nodeName _ (Some d2)).
  - destruct (expand_shallower _ _ _ _ _ _ Hlt H2) as (nd1 & ns1 & rs1 & -> & Hsub).
    apply Hsub.
Qed.

(** *** Unknown start node *)

(** When the graph has no node row of the name looked up, the answer is 404
    [Node not found] for every depth parameter, and nothing else. *)
Lemma expand_unknown_node nodeName :
  (∀ n, n ∈ nodes db → ¬ (node_graph_id n = graphId ∧ node_name n = nodeName)) →
  ∀ depth, expand nodeName depth = NotFound "Node not found".
Proof.
  intros H depth. unfold Server.expand. by rewrite get_node_None.
Qed.

(** *** Edges are returned once, and without a check of their endpoints *)

Lemma expand_keys_once nodeName depth nd ns rs :
  expand nodeName depth = Ok nd ns rs →
  NoDup (rel_keys rs) ∧
  ∃ node s, get_node db graphId nodeName = Some node ∧
            collect nodeName node depth = Some s ∧
            ∀ k, k ∈ rel_keys (allRels s) →
                 length (filter (λ x, x = k) (rel_keys rs)) = 1.
Proof.
  intros H. apply expand_Ok in H as (node & s & Hg & Hc & -> & -> & ->).
  split; [apply uniqueRels_NoDup|].
  exists node, s. split_and!; [done..|].
  intros k Hk. apply NoDup_count_one; [apply uniqueRels_NoDup|].
  by apply uniqueRels_keys.
Qed.

Lemma expand_incident_kept nodeName depth nd ns rs node o k sk name r :
  expand nodeName depth = Ok nd ns rs →
  get_node db graphId nodeName = Some node → node_obj node = Some o →
  k < rounds depth → loop k (start_state nodeName o) = Some sk →
  name ∈ frontier sk →
  r ∈ relationships db → rel_graph_id r = graphId →
  rel_source r = name ∨ rel_target r = name →
  row_key r ∈ rel_keys rs.
Proof.
  intros H Hg Ho Hk Hsk Hn Hr Hgr Hst.
  apply expand_Ok in H as (node' & s & Hg' & Hc & _ & _ & ->).
  rewrite Hg in Hg'. injection Hg' as <-.
  apply collect_Some in Hc as (o' & Ho' & Hl).
  rewrite Ho in Ho'. injection Ho' as <-.
  destruct (loop_mono k _ _ _ (Nat.lt_le_incl _ _ Hk) Hl) as (sk' & Hsk' & Hrest).
  rewrite Hsk in Hsk'. injection Hsk' as <-.
  destruct (rounds depth - k) as [|m] eqn:Hm; [lia|].
  simpl in Hrest. destruct (frontier sk) as [|f fr] eqn:Hf; [by apply elem_of_nil in Hn|].
  destruct (round sk) as [s1|] eqn:H1; simpl in Hrest; [|done].
  apply uniqueRels_keys.
  eapply prefix_keys; [eapply loop_grows; exact Hrest|].
  eapply round_keeps_incident; eauto. by rewrite Hf.
Qed.

Lemma expand_nodes_from_store nodeName depth nd ns rs :
  expand nodeName depth = Ok nd ns rs →
  ∀ x, x ∈ node_names ns → is_Some (get_node db graphId x).
Proof.
  intros H. apply expand_Ok in H as (node & s & Hg & Hc & _ & -> & _).
  apply collect_Some in Hc as (o & Ho & Hl).
  assert (from_store s) as Hs.
  { eapply loop_from_store; [|exact Hl].
    intros o'. simpl. rewrite list_elem_of_singleton. intros ->.
    rewrite (node_obj_row _ _ Ho).
    apply get_node_Some in Hg as Hg'. destruct Hg' as (_ & _ & ->). done. }
  intros x. unfold node_names. rewrite list_elem_of_fmap.
  intros (o' & -> & Hin). rewrite (Hs _ Hin). done.
Qed.

Lemma visit_missing name s :
  name ∉ visited s → get_node db graphId name = None →
  ∃ s', visit name s = Some s' ∧ name ∈ visited s' ∧ allNodes s' = allNodes s.
Proof.
  intros Hv Hg. unfold Server.visit. rewrite decide_False by done. rewrite Hg.
  eexists. split; [done|]. simpl. split; [set_solver|done].
Qed.

End Facts.

Import Scenario.

(** The chain [A→B, B→C, C→D] from [A], at depths 1 and 2. *)
Example chain_depth_1 :
  ∀ Json (JSON_parse : string → option Json) (empty_object : Json),
  ∃ nd ns rs,
    expand JSON_parse empty_object chain "g" "A" (Some 1%Z) = Ok nd ns rs ∧
    node_names ns = ["A"; "B"] ∧ rel_keys rs = ["g-e1"].
Proof. intros. do 3 eexists. split; [vm_compute; reflexivity|]. done. Qed.

Example chain_depth_2 :
  ∀ Json (JSON_parse : string → option Json) (empty_object : Json),
  ∃ nd ns rs,
    expand JSON_parse empty_object chain "g" "A" (Some 2%Z) = Ok nd ns rs ∧
    node_names ns = ["A"; "B"; "C"] ∧ rel_keys rs = ["g-e1"; "g-e2"].
Proof. intros. do 3 eexists. split; [vm_compute; reflexivity|]. done. Qed.

(** C1, refuted as stated: on the chain, a request with [depth=0] runs one
    round and returns the neighbour [B] and the edge [A→B] besides [A]. *)
Lemma expand_depth_zero_counterexample :
  expand (Json := unit) parse_any () chain "g" "A" (Some 0%Z)
  = Ok (Some (mkNodeObj (node_of "g" "A") ()))
       [mkNodeObj (node_of "g" "A") (); mkNodeObj (node_of "g" "B") ()]
       [mkRelObj (rel_of "g" "e1" "A" "B") ()].
Proof. vm_compute. reflexivity. Qed.

Lemma expand_depth_policy_witness :
  expand (Json := unit) parse_any () chain "g" "A" (Some (-2)%Z)
  = Ok (Some (mkNodeObj (node_of "g" "A") ())) [mkNodeObj (node_of "g" "A") ()] [].
Proof.
  refine (proj1 (expand_depth_policy parse_any () chain "g" "A"
                   (node_of "g" "A") (mkNodeObj (node_of "g" "A") ()) _ _)
                (-2)%Z _).
  - vm_compute. reflexivity.
  - vm_compute. reflexivity.
  - lia.
Defined.

Lemma expand_nodes_monotone_witness :
  ∃ nd1 ns1 rs1,
    expand (Json := unit) parse_any () chain "g" "A" (Some 1%Z) = Ok nd1 ns1 rs1 ∧
    ∀ x, x ∈ node_names ns1 →
         x ∈ node_names [mkNodeObj (node_of "g" "A") ();
                         mkNodeObj (node_of "g" "B") ();
                         mkNodeObj (node_of "g" "C") ()].
Proof.
  eapply (proj1 (expand_nodes_monotone parse_any () chain "g" "A" 1%Z 2%Z _)).
  vm_compute. reflexivity.
  Unshelve. lia.
Defined.

(** C6.  The handler decodes the route parameter a second time before the
    lookup.  A parameter that [decodeURIComponent] rejects is answered 500;
    one it accepts is answered 404 when the graph has no node of the decoded
    name.  So on the chain the name [100%], borne by no node, is answered
    500 for every depth, and the name [%41], borne by no node either, is
    answered with the neighbourhood of [A]. *)
Theorem node_route_decodes_again :
  (∀ Json (JSON_parse : string → option Json) (empty_object : Json)
     (decodeURIComponent : string → option string) db graphId name depth,
     decodeURIComponent name = None →
     node_route JSON_parse empty_object decodeURIComponent db graphId name depth
     = ServerError) ∧
  (∀ Json (JSON_parse : string → option Json) (empty_object : Json)
     (decodeURIComponent : string → option string) db graphId name nodeName,
     decodeURIComponent name = Some nodeName →
     (∀ n, n ∈ nodes db → ¬ (node_graph_id n = graphId ∧ node_name n = nodeName)) →
     ∀ depth,
       node_route JSON_parse empty_object decodeURIComponent db graphId name depth
       = NotFound "Node not found") ∧
  (∀ n, n ∈ nodes chain → node_name n ≠ "100%" ∧ node_name n ≠ "%41") ∧
  (∀ depth, node_route parse_any () decode_uri chain "g" "100%" depth = ServerError) ∧
  node_route parse_any () decode_uri chain "g" "%41" (Some 1%Z)
  = Ok (Some (mkNodeObj (node_of "g" "A") ()))
       [mkNodeObj (node_of "g" "A") (); mkNodeObj (node_of "g" "B") ()]
       [mkRelObj (rel_of "g" "e1" "A" "B") ()].
Proof.
  split_and!.
  - intros * Hd. unfold node_route. by rewrite Hd.
  - intros * Hd Hnone depth. unfold node_route. rewrite Hd.
    by apply expand_unknown_node.
  - intros n Hn. vm_compute in Hn.
    repeat (apply elem_of_cons in Hn as [-> | Hn]; [by split|]).
    by apply elem_of_nil in Hn.
  - intros depth. reflexivity.
  - vm_compute. reflexivity.
Qed.

Lemma node_route_decodes_again_witness :
  node_route parse_any () decode_uri chain "g" "%5A" (Some 2%Z)
  = NotFound "Node not found".
Proof.
  refine (proj1 (proj2 node_route_decodes_again) unit parse_any () decode_uri
            chain "g" "%5A" "Z" eq_refl _ (Some 2%Z)).
  intros n Hn [_ Hname]. vm_compute in Hn.
  repeat (apply elem_of_cons in Hn as [-> | Hn]; [discriminate Hname|]).
  by apply elem_of_nil in Hn.
Defined.

(** C2: in every answer the keys of the returned edges are pairwise distinct,
    and every edge the rounds collected, however many times, is returned
    exactly once; for the diamond [A→B, A→C, B→D, C→D], depth 2 from [A]
    returns the four nodes and each of the four edges once. *)
Theorem expand_edges_unique :
  (∀ Json (JSON_parse : string → option Json) (empty_object : Json)
     db graphId nodeName depth nd ns rs,
     expand JSON_parse empty_object db graphId nodeName depth = Ok nd ns rs →
     NoDup (rel_keys rs) ∧
     ∃ node s,
       get_node db graphId nodeName = Some node ∧
       collect JSON_parse empty_object db graphId nodeName node depth = Some s ∧
       ∀ k, k ∈ rel_keys (allRels s) →
            length (filter (λ x, x = k) (rel_keys rs)) = 1) ∧
  (∀ Json (JSON_parse : string → option Json) (empty_object : Json),
     ∃ nd ns rs,
       expand JSON_parse empty_object diamond "g" "A" (Some 2%Z) = Ok nd ns rs ∧
       node_names ns = ["A"; "B"; "C"; "D"] ∧
       rel_keys rs = ["g-e1"; "g-e2"; "g-e3"; "g-e4"] ∧
       map (λ r, (rel_source (rel_row r), rel_target (rel_row r))) rs
       = [("A", "B"); ("A", "C"); ("B", "D"); ("C", "D")]).
Proof.
  split.
  - intros. by eapply expand_keys_once.
  - intros. do 3 eexists. split; [vm_compute; reflexivity|]. done.
Qed.

Lemma expand_edges_unique_witness :
  NoDup (rel_keys [mkRelObj (rel_of "g" "e1" "A" "B") ();
                   mkRelObj (rel_of "g" "e2" "A" "C") ();
                   mkRelObj (rel_of "g" "e3" "B" "D") ();
                   mkRelObj (rel_of "g" "e4" "C" "D") ()]).
Proof.
  refine (proj1 (proj1 expand_edges_unique unit parse_any () diamond "g" "A"
                   (Some 2%Z) _ _ _ _)).
  vm_compute. reflexivity.
Defined.



End ServerFacts.

(* ===================================================================== *)
(** ** Facts about the renderer                                           *)
(* ===================================================================== *)

Module RendererFacts.
Import Renderer.

Lemma filter_length_iff {A} (P Q : A → Prop)
    `{∀ x, Decision (P x)} `{∀ x, Decision (Q x)} (l : list A) :
  (∀ x, x ∈ l → P x ↔ Q x) → length (filter P l) = length (filter Q l).
Proof.
  induction l as [|x l IH]; intros Hpq; [done|].
  rewrite !filter_cons.
  assert (P x ↔ Q x) as Hx by (apply Hpq; left).
  assert (length (filter P l) = length (filter Q l)) as Hl
    by (apply IH; intros y Hy; apply Hpq; by right).
  repeat case_decide; simpl; tauto || lia.
Qed.

Section Facts.

Context {Json : Type}.
Variable empty_object : Json.

Local Abbreviation make_node := (make_node empty_object).
Local Abbreviation resolve := (resolve empty_object).
Local Abbreviation process_links := (process_links empty_object).
Local Abbreviation build := (build empty_object).
Local Abbreviation render := (render empty_object).
Local Abbreviation payload_names := (payload_names empty_object).
Local Abbreviation distinct_names := (distinct_names empty_object).

Implicit Types (ns : list (@Node Json)) (ls : list (@Link Json)).
Implicit Types (cc : gmap string Count) (nm : gmap string nat).

(** *** The two lookup tables after the pass over the nodes *)

Lemma index_nodes_counts i ns cc nm k :
  (index_nodes i ns cc nm).1 !! k
  = if decide (k ∈ map name ns) then Some (Num 0) else cc !! k.
Proof.
  revert i cc nm. induction ns as [|n rest IH]; intros i cc nm; simpl.
  - done.
  - rewrite IH. destruct (decide (k = name n)) as [->|Hne].
    + rewrite lookup_insert_eq. rewrite (decide_True (P := _ ∈ _ :: _)) by left.
      by case_decide.
    + rewrite lookup_insert_ne by done.
      repeat case_decide; try done; set_solver.
Qed.

Lemma index_nodes_absent i ns cc nm k :
  k ∉ map name ns → (index_nodes i ns cc nm).2 !! k = nm !! k.
Proof.
  revert i cc nm. induction ns as [|n rest IH]; intros i cc nm; simpl; [done|].
  rewrite not_elem_of_cons. intros [Hne Hk].
  rewrite IH by done. by rewrite lookup_insert_ne.
Qed.

Lemma index_nodes_present i ns cc nm k j :
  k ∈ map name ns → (index_nodes i ns cc nm).2 !! k = Some j →
  i ≤ j ∧ ∃ n, ns !! (j - i) = Some n ∧ name n = k.
Proof.
  revert i cc nm. induction ns as [|n rest IH]; intros i cc nm; simpl.
  - by intros ?%elem_of_nil.
  - intros Hin Hj. destruct (decide (k ∈ map name rest)) as [Hr|Hr].
    + destruct (IH _ _ _ Hr Hj) as (Hle & n' & Hn' & Hname).
      split; [lia|]. exists n'. split; [|done].
      replace (j - i) with (S (j - S i)) by lia. done.
    + rewrite index_nodes_absent in Hj by done.
      apply elem_of_cons in Hin as [->|?]; [|done].
      rewrite lookup_insert_eq in Hj. injection Hj as <-.
      split; [lia|]. exists n. by rewrite Nat.sub_diag.
Qed.

Lemma index_nodes_is_Some i ns cc nm k :
  k ∈ map name ns → is_Some ((index_nodes i ns cc nm).2 !! k).
Proof.
  revert i cc nm. induction ns as [|n rest IH]; intros i cc nm; simpl.
  - by intros ?%elem_of_nil.
  - intros Hin. destruct (decide (k ∈ map name rest)) as [Hr|Hr]; [by apply IH|].
    rewrite index_nodes_absent by done.
    apply elem_of_cons in Hin as [->|?]; [|done].
    rewrite lookup_insert_eq. done.
Qed.

(** With pairwise distinct names each name leads back to its own node. *)
Lemma index_nodes_distinct ns cc nm j n :
  NoDup (map name ns) → ns !! j = Some n →
  (index_nodes 0 ns cc nm).2 !! name n = Some j.
Proof.
  intros Hnd Hj.
  assert (name n ∈ map name ns) as Hin.
  { apply list_elem_of_fmap. exists n. split; [done|]. by eapply list_elem_of_lookup_2. }
  destruct (index_nodes_is_Some 0 ns cc nm _ Hin) as [j' Hj'].
  destruct (index_nodes_present _ _ _ _ _ _ Hin Hj') as (_ & n' & Hn' & Hname).
  rewrite Nat.sub_0_r in Hn'. rewrite Hj'. f_equal.
  eapply (NoDup_lookup (map name ns)); [done| |].
  - rewrite list_lookup_fmap, Hn'. simpl. by rewrite Hname.
  - by rewrite list_lookup_fmap, Hj.
Qed.

(** *** Resolution of an endpoint *)

Lemma lookup_node_plain ns cc k r :
  k ∉ inherited_keys →
  lookup_node (index_nodes 0 ns cc ∅).2 k = Some r →
  ∃ j n, r = RNode j ∧ ns !! j = Some n ∧ name n = k.
Proof.
  intros Hk. unfold lookup_node.
  destruct (_ !! k) as [j|] eqn:Hj.
  - intros [= <-]. destruct (decide (k ∈ map name ns)) as [Hin|Hin].
    + destruct (index_nodes_present _ _ _ _ _ _ Hin Hj) as (_ & n & Hn & Hname).
      rewrite Nat.sub_0_r in Hn. by exists j, n.
    + rewrite index_nodes_absent in Hj by done. by rewrite lookup_empty in Hj.
  - by rewrite decide_False.
Qed.

Lemma lookup_node_missing ns cc k :
  k ∉ map name ns → k ∉ inherited_keys →
  lookup_node (index_nodes 0 ns cc ∅).2 k = None.
Proof.
  intros Hn Hk. unfold lookup_node.
  rewrite index_nodes_absent, lookup_empty by done. by rewrite decide_False.
Qed.

Lemma lookup_node_inherited ns cc k :
  k ∉ map name ns → k ∈ inherited_keys →
  lookup_node (index_nodes 0 ns cc ∅).2 k = Some (RInherited k).
Proof.
  intros Hn Hk. unfold lookup_node.
  rewrite index_nodes_absent, lookup_empty by done. by rewrite decide_True.
Qed.

(** *** The pass over the relationships *)

Lemma process_links_spec ns nm rels ls cc :
  process_links ns nm rels ls cc
  = (ls ++ omap (resolve nm) rels,
     foldl (count_link ns) cc (omap (resolve nm) rels)).
Proof.
  revert ls cc. induction rels as [|rel rest IH]; intros ls cc; simpl.
  - by rewrite app_nil_r.
  - assert (resolve nm rel
            = match lookup_node nm (r_source rel), lookup_node nm (r_target rel) with
              | Some src, Some tgt =>
                  Some (mkLink src tgt (str_or (r_type rel) "RELATES_TO")
                               (default empty_object (r_properties rel)))
              | _, _ => None
              end) as Hr.
    { unfold Renderer.resolve.
      by destruct (lookup_node nm (r_source rel)), (lookup_node nm (r_target rel)). }
    rewrite Hr.
    destruct (lookup_node nm (r_source rel)) as [src|],
             (lookup_node nm (r_target rel)) as [tgt|];
      rewrite IH; simpl; try done.
    by rewrite <- app_assoc.
Qed.

Lemma bump_num cc k k' n :
  k ≠ "__proto__" → cc !! k = Some (Num n) →
  bump cc k' !! k = Some (Num (if decide (k' = k) then S n else n)).
Proof.
  intros Hp Hk. unfold bump. destruct (decide (k' = "__proto__")) as [->|Hk'].
  - by rewrite decide_False.
  - destruct (decide (k' = k)) as [->|Hne].
    + by rewrite lookup_insert_eq, Hk.
    + by rewrite lookup_insert_ne.
Qed.

Lemma count_links_num ns ls cc k n :
  k ≠ "__proto__" → cc !! k = Some (Num n) →
  foldl (count_link ns) cc ls !! k = Some (Num (n + ends_named ns ls k)).
Proof.
  intros Hp. revert cc n. induction ls as [|l rest IH]; intros cc n Hk; simpl.
  - unfold ends_named. simpl. by rewrite Nat.add_0_r.
  - unfold count_link at 2.
    pose proof (bump_num cc k (prop_key (ref_name ns (source l))) n Hp Hk) as H1.
    pose proof (bump_num _ k (prop_key (ref_name ns (target l))) _ Hp H1) as H2.
    rewrite (IH _ _ H2). f_equal. f_equal.
    unfold ends_named. rewrite !filter_cons.
    repeat case_decide; simpl; lia.
Qed.

Lemma ref_name_set_connections cc ns r :
  ref_name (map (set_connections cc) ns) r = ref_name ns r.
Proof.
  destruct r as [i|k]; simpl; [|done].
  rewrite list_lookup_fmap. by destruct (ns !! i).
Qed.

Lemma ends_named_set_connections cc ns ls k :
  ends_named (map (set_connections cc) ns) ls k = ends_named ns ls k.
Proof.
  unfold ends_named. f_equal; apply filter_length_iff; intros l _;
    by rewrite ref_name_set_connections.
Qed.

(** *** What [build] returns *)

Lemma build_Some nodes0 rels ns ls :
  build nodes0 rels = Some (ns, ls) →
  let ns1 := map make_node nodes0 in
  let tables := index_nodes 0 ns1 ∅ ∅ in
  ("__proto__" ∉ map name ns1) ∧
  ls = omap (resolve tables.2) (default [] rels) ∧
  ns = map (set_connections (foldl (count_link ns1) tables.1 ls)) ns1.
Proof.
  unfold Renderer.build. case_decide as Hp; [done|].
  destruct (index_nodes 0 _ ∅ ∅) as [cc0 nm] eqn:Ht.
  rewrite process_links_spec. simpl. intros [= <- <-]. done.
Qed.

Lemma build_defined nodes0 rels :
  "__proto__" ∉ map name (map make_node nodes0) →
  is_Some (build nodes0 rels).
Proof.
  intros Hp. unfold Renderer.build. rewrite decide_False by done.
  destruct (index_nodes 0 _ ∅ ∅) as [cc0 nm].
  by destruct (process_links _ _ _ _ _).
Qed.

(** A node's count is the number of link ends carrying its name. *)
Lemma build_connections nodes0 rels ns ls i n :
  build nodes0 rels = Some (ns, ls) → ns !! i = Some n →
  connections n = Some (Num (ends_named ns ls (name n))).
Proof.
  intros Hb Hi. apply build_Some in Hb as (Hp & Hls & ->).
  rewrite list_lookup_fmap in Hi.
  destruct (map make_node nodes0 !! i) as [n1|] eqn:H1; [|done].
  injection Hi as <-. simpl. f_equal.
  assert (name n1 ∈ map name (map make_node nodes0)) as Hin.
  { apply list_elem_of_fmap. exists n1. split; [done|]. by eapply list_elem_of_lookup_2. }
  unfold count_or_zero.
  rewrite (count_links_num _ ls _ (name n1) 0).
  - by rewrite ends_named_set_connections.
  - intros Heq. by rewrite Heq in Hin.
  - rewrite index_nodes_counts. by rewrite decide_True.
Qed.

Lemma build_links_resolved nodes0 rels ns ls :
  build nodes0 rels = Some (ns, ls) →
  (∀ rel, rel ∈ default [] rels →
          (r_source rel ∉ inherited_keys) ∧ (r_target rel ∉ inherited_keys)) →
  ∀ l, l ∈ ls →
       ∃ rel i j ni nj,
         rel ∈ default [] rels ∧
         source l = RNode i ∧ target l = RNode j ∧
         ns !! i = Some ni ∧ ns !! j = Some nj ∧
         name ni = r_source rel ∧ name nj = r_target rel.
Proof.
  intros Hb Hplain l Hl. apply build_Some in Hb as (Hp & Hls & ->).
  rewrite Hls in Hl. apply list_elem_of_omap in Hl as (rel & Hrel & Hres).
  destruct (Hplain _ Hrel) as [Hs Ht].
  unfold Renderer.resolve in Hres.
  destruct (lookup_node _ (r_source rel)) as [src|] eqn:Hsrc; simpl in Hres; [|done].
  destruct (lookup_node _ (r_target rel)) as [tgt|] eqn:Htgt; simpl in Hres; [|done].
  injection Hres as <-. simpl.
  apply (lookup_node_plain _ _ _ _ Hs) in Hsrc as (i & ni & -> & Hi & Hni).
  apply (lookup_node_plain _ _ _ _ Ht) in Htgt as (j & nj & -> & Hj & Hnj).
  exists rel, i, j, (set_connections (foldl (count_link (map make_node nodes0))
                         (index_nodes 0 (map make_node nodes0) ∅ ∅).1 ls) ni),
         (set_connections (foldl (count_link (map make_node nodes0))
                         (index_nodes 0 (map make_node nodes0) ∅ ∅).1 ls) nj).
  split_and!; try done.
  - by rewrite list_lookup_fmap, Hi.
  - by rewrite list_lookup_fmap, Hj.
Qed.

Lemma lookup_node_node ns cc k r :
  (k ∈ inherited_keys → k ∈ map name ns) →
  lookup_node (index_nodes 0 ns cc ∅).2 k = Some r →
  ∃ j n, r = RNode j ∧ ns !! j = Some n ∧ name n = k.
Proof.
  intros Hown. destruct (decide (k ∈ inherited_keys)) as [Hk|Hk];
    [|by apply lookup_node_plain].
  specialize (Hown Hk).
  destruct (index_nodes_is_Some 0 ns cc ∅ k Hown) as [j Hj].
  destruct (index_nodes_present 0 ns cc ∅ k j Hown Hj) as (_ & n & Hn & Hname).
  rewrite Nat.sub_0_r in Hn.
  unfold lookup_node. rewrite Hj. intros [= <-]. by exists j, n.
Qed.

Lemma build_links_own nodes0 rels ns ls :
  build nodes0 rels = Some (ns, ls) →
  (∀ rel, rel ∈ default [] rels →
          (r_source rel ∈ inherited_keys → r_source rel ∈ map name ns) ∧
          (r_target rel ∈ inherited_keys → r_target rel ∈ map name ns)) →
  ∀ l, l ∈ ls →
       ∃ rel i j ni nj,
         rel ∈ default [] rels ∧
         source l = RNode i ∧ target l = RNode j ∧
         ns !! i = Some ni ∧ ns !! j = Some nj ∧
         name ni = r_source rel ∧ name nj = r_target rel.
Proof.
  intros Hb Hown l Hl.
  assert (map name ns = map name (map make_node nodes0)) as Hnames.
  { apply build_Some in Hb as (_ & _ & ->). by rewrite <- !list_fmap_compose. }
  rewrite Hnames in Hown.
  apply build_Some in Hb as (Hp & Hls & ->).
  rewrite Hls in Hl. apply list_elem_of_omap in Hl as (rel & Hrel & Hres).
  destruct (Hown _ Hrel) as [Hs Ht].
  unfold Renderer.resolve in Hres.
  destruct (lookup_node _ (r_source rel)) as [src|] eqn:Hsrc; simpl in Hres; [|done].
  destruct (lookup_node _ (r_target rel)) as [tgt|] eqn:Htgt; simpl in Hres; [|done].
  injection Hres as <-. simpl.
  apply (lookup_node_node _ _ _ _ Hs) in Hsrc as (i & ni & -> & Hi & Hni).
  apply (lookup_node_node _ _ _ _ Ht) in Htgt as (j & nj & -> & Hj & Hnj).
  exists rel, i, j, (set_connections (foldl (count_link (map make_node nodes0))
                         (index_nodes 0 (map make_node nodes0) ∅ ∅).1 ls) ni),
         (set_connections (foldl (count_link (map make_node nodes0))
                         (index_nodes 0 (map make_node nodes0) ∅ ∅).1 ls) nj).
  split_and!; try done.
  - by rewrite list_lookup_fmap, Hi.
  - by rewrite list_lookup_fmap, Hj.
Qed.

(** *** [render] *)

Lemma render_cases g this this' :
  render (Some g) this = Some this' →
  this' = this ∨
  ∃ nodes0 ns ls,
    gd_nodes g = Some nodes0 ∧
    build nodes0 (gd_relationships g) = Some (ns, ls) ∧
    this' = mkGraphRenderer (svg this) (minimapCtx this) ns ls
              (Some (enter "node-circle" ns)) (Some (enter "link-line" ls))
              (Some (enter "link-label" ls)) (Some (enter "node-label" ns))
              (searchMatches this) (isSearchActive this).
Proof.
  unfold Renderer.render. destruct (svg this); simpl; [|intros [= <-]; by left].
  destruct (gd_nodes g) as [nodes0|]; [|intros [= <-]; by left].
  destruct (build nodes0 (gd_relationships g)) as [[ns ls]|] eqn:Hb; simpl; [|done].
  intros [= <-]. right. by exists nodes0, ns, ls.
Qed.

Lemma render_defined g this :
  "__proto__" ∉ payload_names g → is_Some (render (Some g) this).
Proof.
  intros Hp. unfold Renderer.render. destruct (svg this); simpl; [|done].
  unfold Renderer.payload_names in Hp.
  destruct (gd_nodes g) as [nodes0|]; [|done]. simpl in Hp.
  destruct (build_defined nodes0 (gd_relationships g)) as [[ns ls] ->]; [|done].
  by rewrite <- list_fmap_compose.
Qed.

Lemma build_names nodes0 rels ns ls :
  build nodes0 rels = Some (ns, ls) →
  map name ns = map (λ n, name (make_node n)) nodes0.
Proof.
  intros Hb. apply build_Some in Hb as (_ & _ & ->).
  rewrite <- !list_fmap_compose. done.
Qed.

(** Where no endpoint is an inherited key, every link joins two nodes of
    the node set, and a relationship with a missing endpoint makes none. *)
Lemma render_links_resolved g this this' :
  render (Some g) this = Some this' → plain_endpoints g →
  links_resolved this → links_resolved this'.
Proof.
  intros Hr Hplain Hthis.
  apply render_cases in Hr as [->|(nodes0 & ns & ls & Hn & Hb & ->)]; [done|].
  intros l Hl. simpl in *.
  destruct (build_links_resolved _ _ _ _ Hb Hplain l Hl)
    as (rel & i & j & ni & nj & _ & -> & -> & Hi & Hj & _).
  split; eexists; (split; [done|]); by eapply lookup_lt_Some.
Qed.

Lemma resolve_missing ns cc rel :
  ((r_source rel ∉ map name ns) ∧ (r_source rel ∉ inherited_keys)) ∨
  ((r_target rel ∉ map name ns) ∧ (r_target rel ∉ inherited_keys)) →
  resolve (index_nodes 0 ns cc ∅).2 rel = None.
Proof.
  unfold Renderer.resolve. intros [[Hn Hk]|[Hn Hk]].
  - by rewrite (lookup_node_missing _ _ (r_source rel)).
  - rewrite (lookup_node_missing _ _ (r_target rel)) by done.
    by destruct (lookup_node _ (r_source rel)).
Qed.

(** For payloads whose node names are pairwise distinct, none of them
    [__proto__], and none of whose relationship endpoints is found among the
    inherited members: [render] completes and afterwards the [connections]
    of every node is the number of rendered links whose source is that node
    plus the number whose target is that node, a self-loop counting twice.
    (When [render] returns at one of its guards the state, and with it the
    property, is the one before the call.) *)
Lemma render_connections_own g this :
  "__proto__" ∉ payload_names g →
  distinct_names g → own_endpoints empty_object g →
  connections_consistent this →
  ∃ this', render (Some g) this = Some this' ∧ connections_consistent this'.
Proof.
  intros Hproto Hnd Hown Hthis.
  destruct (render_defined g this Hproto) as [this' Hr].
  exists this'. split; [done|].
  apply render_cases in Hr as [->|(nodes0 & ns & ls & Hn & Hb & ->)]; [done|].
  intros i n Hi. simpl in *.
  rewrite (build_connections _ _ _ _ _ _ Hb Hi). do 2 f_equal.
  assert (NoDup (map name ns)) as Hnd'.
  { rewrite (build_names _ _ _ _ Hb).
    unfold Renderer.distinct_names, Renderer.payload_names in Hnd.
    by rewrite Hn in Hnd. }
  assert (∀ rel, rel ∈ default [] (gd_relationships g) →
                 (r_source rel ∈ inherited_keys → r_source rel ∈ map name ns) ∧
                 (r_target rel ∈ inherited_keys → r_target rel ∈ map name ns)) as Hown'.
  { rewrite (build_names _ _ _ _ Hb).
    unfold Renderer.own_endpoints, Renderer.payload_names in Hown.
    by rewrite Hn in Hown. }
  assert (∀ i' n', ns !! i' = Some n' → name n' = name n ↔ RNode i' = RNode i) as Hid.
  { intros i' n' Hi'. split.
    - intros Hname. f_equal. eapply (NoDup_lookup (map name ns)); [done| |].
      + by rewrite list_lookup_fmap, Hi'; simpl; rewrite Hname.
      + by rewrite list_lookup_fmap, Hi.
    - intros [= ->]. congruence. }
  unfold ends_named, touching. f_equal; apply filter_length_iff; intros l Hl;
    destruct (build_links_own _ _ _ _ Hb Hown' l Hl)
      as (rel & i1 & i2 & n1 & n2 & _ & Hs & Ht & H1 & H2 & _).
  - rewrite Hs. simpl. rewrite H1. simpl. by apply Hid.
  - rewrite Ht. simpl. rewrite H2. simpl. by apply Hid.
Qed.

End Facts.

Import Payloads.

(** C4 at a payload with one node [A] and one relationship from [A] to the
    name [constructor]: the lookup of the missing target finds the inherited
    member, the guard passes, and the link list holds a link whose target is
    not a node of the node set. *)
Theorem render_links_inherited_endpoint :
  ∃ this',
    render () (Some inherited_target) ready = Some this' ∧
    map name (nodes this') = ["A"] ∧
    links this' = [mkLink (RNode 0) (RInherited "constructor") "RELATES_TO" ()] ∧
    ¬ links_resolved this'.
Proof.
  eexists. split; [vm_compute; reflexivity|]. split_and!; [done..|].
  intros H. destruct (H (mkLink (RNode 0) (RInherited "constructor") "RELATES_TO" ()))
    as [_ (i & Hi & _)]; [simpl; left|]. discriminate Hi.
Qed.

(** On the payload [small] the loop on [A] counts twice and the edge to the
    missing name [Nowhere] makes no link. *)
Example render_small :
  ∃ this',
    render () (Some small) ready = Some this' ∧
    map (λ n, (name n, connections n)) (nodes this')
    = [("A", Some (Num 3)); ("B", Some (Num 1))] ∧
    map (λ l, (source l, target l)) (links this')
    = [(RNode 0, RNode 0); (RNode 0, RNode 1)].
Proof. eexists. split; [vm_compute; reflexivity|]. split; reflexivity. Qed.

(** C5.  Where the node names are pairwise distinct, none of them
    [__proto__], and no endpoint of a relationship is found among the
    inherited members, [render] leaves on every node the number of links it
    is the source of plus the number it is the target of.  With nodes [A]
    and [Object] and an edge from [A] to the name [constructor], the lookup
    of the target finds the inherited function, whose [name] is [Object]:
    the node [Object] is given 1 connection and is an end of no link. *)
Theorem render_connections_inherited_name :
  (∀ Json (empty_object : Json) (g : @GraphData Json) this,
     "__proto__" ∉ payload_names empty_object g →
     distinct_names empty_object g → own_endpoints empty_object g →
     connections_consistent this →
     ∃ this', render empty_object (Some g) this = Some this' ∧
              connections_consistent this') ∧
  (∃ this' o,
     render () (Some namesake) ready = Some this' ∧
     distinct_names () namesake ∧
     nodes this' !! 1 = Some o ∧ name o = "Object" ∧
     links this' = [mkLink (RNode 0) (RInherited "constructor") "RELATES_TO" ()] ∧
     connections o = Some (Num 1) ∧
     touching (links this') 1 = 0 ∧
     ¬ connections_consistent this').
Proof.
  split; [intros; by apply render_connections_own|].
  do 2 eexists. split; [vm_compute; reflexivity|].
  split_and!; try reflexivity.
  - apply (bool_decide_unpack _). vm_compute. exact I.
  - intros H. specialize (H 1 _ eq_refl). discriminate H.
Qed.

Lemma render_connections_inherited_name_witness :
  ∃ this',
    render () (Some members) ready = Some this' ∧ connections_consistent this'.
Proof.
  apply (proj1 render_connections_inherited_name unit () members ready).
  - apply (bool_decide_unpack _). vm_compute. exact I.
  - apply (bool_decide_unpack _). vm_compute. exact I.
  - intros rel Hrel. simpl in Hrel.
    repeat (apply elem_of_cons in Hrel as [-> | Hrel];
            [split; intros _; apply (bool_decide_unpack _); vm_compute; exact I|]).
    by apply elem_of_nil in Hrel.
  - intros i n H. destruct i; discriminate H.
Defined.

(** *** Force parameters *)

(** C7, refuted as stated: with exactly 100 nodes the parameters are those
    of the smallest graphs, not the medium ones used from 101 to 200. *)
Lemma layout_tier_boundary_counterexample :
  linkDistance 100 = 280%Z ∧ chargeStrength 100 = (-800)%Z ∧
  linkDistance 100 ≠ linkDistance 150 ∧ chargeStrength 100 ≠ chargeStrength 150.
Proof. vm_compute. split_and!; done. Qed.

(** C7, with the tiers the code has: above 200 nodes the link distance is
    160 and the charge -400; from 101 to 200 they are 220 and -600; up to 100
    they are 280 and -800.  So the distance never grows and the repulsion
    never strengthens when nodes are added. *)
Theorem layout_tiers (n : nat) :
  (200 < n → linkDistance n = 160%Z ∧ chargeStrength n = (-400)%Z) ∧
  (100 < n ≤ 200 → linkDistance n = 220%Z ∧ chargeStrength n = (-600)%Z) ∧
  (n ≤ 100 → linkDistance n = 280%Z ∧ chargeStrength n = (-800)%Z) ∧
  (∀ m, n ≤ m → (linkDistance m ≤ linkDistance n)%Z ∧
                (chargeStrength n ≤ chargeStrength m)%Z).
Proof.
  unfold linkDistance, chargeStrength. split_and!; intros;
    repeat case_decide; try lia; split; lia.
Qed.

Lemma layout_tiers_witness :
  linkDistance 150 = 220%Z ∧ chargeStrength 150 = (-600)%Z.
Proof.
  destruct (layout_tiers 150) as (_ & H & _). apply H. lia.
Defined.

(** *** The minimap and [zoomToFit] *)

Section Minimap.

Context {Json : Type}.
Implicit Types (this : @GraphRenderer Json).

Lemma range_or_one_nonzero a b : ¬ (range_or_one a b == 0)%Q.
Proof.
  unfold range_or_one. destruct (Qeq_bool (a - b) 0) eqn:E.
  - discriminate.
  - by apply Qeq_bool_neq.
Qed.

Lemma range_or_one_zero a b : (a == b)%Q → range_or_one a b = 1%Q.
Proof.
  intros H. unfold range_or_one.
  assert (Qeq_bool (a - b) 0 = true) as ->; [|done].
  apply Qeq_bool_iff. rewrite H. ring.
Qed.

Lemma Qlt_bool_irrefl a : Qlt_bool a a = false.
Proof.
  unfold Qlt_bool. apply negb_false_iff, Qle_bool_iff, Qle_refl.
Qed.

(** When every positioned node is at [p], the bounds collapse to [p]. *)
Lemma find_bounds_coincident (positions : list (option (Q * Q))) (p : Q * Q) :
  (∀ q, q ∈ positions → q = None ∨ q = Some p) → Some p ∈ positions →
  find_bounds positions
  = mkBounds (Finite (fst p)) (Finite (snd p)) (Finite (fst p)) (Finite (snd p)).
Proof.
  unfold find_bounds. destruct p as [x y]. simpl.
  set (point := mkBounds (Finite x) (Finite y) (Finite x) (Finite y)).
  assert (∀ l, (∀ q, q ∈ l → q = None ∨ q = Some (x, y)) →
               fold_left extend l point = point) as Hstay.
  { induction l as [|q l IH]; intros Hl; [done|]. simpl.
    destruct (Hl q) as [->| ->]; [left| |]; simpl.
    - apply IH. intros q' Hq'. apply Hl. by right.
    - rewrite !Qlt_bool_irrefl. apply IH. intros q' Hq'. apply Hl. by right. }
  induction positions as [|q l IH]; intros Hl Hin.
  - by apply elem_of_nil in Hin.
  - simpl. destruct (Hl q) as [->| ->]; [left| |]; simpl.
    + apply IH.
      * intros q' Hq'. apply Hl. by right.
      * by apply elem_of_cons in Hin as [?|?].
    + apply Hstay. intros q' Hq'. apply Hl. by right.
Qed.

Lemma projection_point x y :
  let pr := projection x y x y in
  rangeX pr = 1%Q ∧ rangeY pr = 1%Q ∧ scale pr = (100 / 1)%Q ∧
  (offsetX pr == 30)%Q ∧ (offsetY pr == 10)%Q.
Proof.
  unfold projection. rewrite !range_or_one_zero by reflexivity. simpl.
  split_and!; try reflexivity.
Qed.

Lemma project_point x y :
  let q := project (projection x y x y) (x, y) in
  (fst q == 30)%Q ∧ (snd q == 10)%Q.
Proof.
  destruct (projection_point x y) as (_ & _ & Hs & Hx & Hy).
  intros q. subst q. unfold project. cbn [fst snd]. rewrite Hs, Hx, Hy.
  unfold projection; cbn [originX originY]. split; ring.
Qed.

(** C8, as the code has it: the two extents the projection divides by are
    never zero, a zero extent being replaced by 1; when all positioned nodes
    coincide, in particular for a single node, the drawing is produced and
    every dot is at the minimap pixel (30, 10); and [zoomToFit] returns
    without a transform when the bounding box has zero width or height. *)
Theorem minimap_zero_extent :
  (∀ x0 y0 x1 y1,
     let pr := projection x0 y0 x1 y1 in
     ¬ (rangeX pr == 0)%Q ∧ ¬ (rangeY pr == 0)%Q ∧
     ((x1 == x0)%Q → rangeX pr = 1%Q) ∧ ((y1 == y0)%Q → rangeY pr = 1%Q)) ∧
  (∀ this positions p,
     minimapCtx this = true → 0 < length (nodes this) →
     (∀ q, q ∈ positions → q = None ∨ q = Some p) → Some p ∈ positions →
     ∃ d, updateMinimap this positions = Some d ∧
          dots d ≠ [] ∧
          ∀ q, q ∈ dots d → (fst q == 30)%Q ∧ (snd q == 10)%Q) ∧
  (∀ this width height bounds,
     (bbox_width bounds == 0)%Q ∨ (bbox_height bounds == 0)%Q →
     zoomToFit this width height bounds = None).
Proof.
  split_and!.
  - intros. unfold pr, projection. simpl.
    split_and!; auto using range_or_one_nonzero, range_or_one_zero.
  - intros this positions p Hctx Hlen Hall Hin.
    unfold updateMinimap. rewrite Hctx. simpl.
    rewrite bool_decide_eq_false_2 by lia.
    rewrite (find_bounds_coincident positions p Hall Hin).
    eexists. split; [done|]. simpl. split.
    + intros Hnil. apply list_elem_of_In in Hin.
      assert (project (projection (fst p) (snd p) (fst p) (snd p)) p
              ∈ omap (fmap (project (projection (fst p) (snd p) (fst p) (snd p))))
                     positions) as Hdot.
      { apply list_elem_of_omap. exists (Some p). split; [by apply list_elem_of_In|done]. }
      rewrite Hnil in Hdot. by apply elem_of_nil in Hdot.
    + intros q Hq. apply list_elem_of_omap in Hq as (o & Ho & Hq).
      destruct (Hall o Ho) as [->| ->]; [done|]. injection Hq as <-.
      destruct p as [x y]. apply project_point.
  - intros this width height bounds Hz. unfold zoomToFit.
    destruct (bool_decide (length (nodes this) = 0)); [done|].
    destruct Hz as [Hz|Hz]; apply Qeq_bool_iff in Hz; rewrite Hz; simpl; [done|].
    by rewrite orb_true_r.
Qed.

End Minimap.

(** C8, refuted as stated: a single node, wherever the simulation put it,
    is drawn at pixel (30, 10) of the 160 by 120 minimap, 50 pixels left of
    and 50 above the centre (80, 60). *)
Lemma minimap_single_node_counterexample :
  ∃ this' d q,
    render () (Some alone) ready = Some this' ∧
    updateMinimap this' [Some (0%Q, 0%Q)] = Some d ∧
    dots d = [q] ∧ (fst q == 30)%Q ∧ (snd q == 10)%Q ∧
    ¬ near_center q.
Proof.
  do 3 eexists. split; [vm_compute; reflexivity|].
  split; [vm_compute; reflexivity|]. split; [reflexivity|].
  split_and!; [reflexivity..|].
  unfold near_center. intros [H _]. vm_compute in H. by apply H.
Qed.

Lemma minimap_zero_extent_witness :
  (∃ d, updateMinimap (rendered alone) [Some (3%Q, 4%Q)] = Some d ∧
        dots d ≠ [] ∧ ∀ q, q ∈ dots d → (fst q == 30)%Q ∧ (snd q == 10)%Q) ∧
  zoomToFit (rendered alone) 800 600 (mkBBox 10 20 0 5) = None.
Proof.
  split.
  - refine (proj1 (proj2 (minimap_zero_extent (Json := unit))) _ _ (3%Q, 4%Q) _ _ _ _).
    + vm_compute. reflexivity.
    + vm_compute. lia.
    + intros q Hq. right. by apply list_elem_of_singleton in Hq.
    + by apply list_elem_of_singleton.
  - apply (proj2 (proj2 (minimap_zero_extent (Json := unit)))).
    left. reflexivity.
Defined.

(** *** [highlightNodes] *)

Section Highlight.

Context {Json : Type}.
Variable toLowerCase : string → string.

Local Abbreviation highlightNodes := (highlightNodes toLowerCase).
Local Abbreviation matches := (matches toLowerCase).
Local Abbreviation is_match := (is_match toLowerCase).
Local Abbreviation link_faded := (link_faded toLowerCase).

Implicit Types (this : @GraphRenderer Json) (cs : gset string).

Local Arguments set_class : simpl never.
Local Arguments classed : simpl never.

Lemma is_match_iff names s :
  is_match (list_to_set (map toLowerCase names)) s = true ↔ matches names s.
Proof.
  unfold Renderer.is_match, Renderer.matches.
  rewrite bool_decide_eq_true, elem_of_list_to_set, list_elem_of_fmap.
  naive_solver.
Qed.

(** A name passed in matches; where lower-casing identifies no other name
    with [s], only [s] itself makes [s] match. *)
Lemma matches_literal names s : s ∈ names → matches names s.
Proof. intros H. by exists s. Qed.

Lemma matches_exact names s :
  (∀ n, n ∈ names → toLowerCase n = toLowerCase s → n = s) →
  matches names s ↔ s ∈ names.
Proof.
  intros Hinj. split; [|apply matches_literal].
  intros (n & Hn & Heq). by rewrite <- (Hinj n Hn Heq).
Qed.

Lemma is_match_not names s :
  negb (is_match (list_to_set (map toLowerCase names)) s) = true ↔ ¬ matches names s.
Proof.
  rewrite negb_true_iff, <- is_match_iff. by destruct (is_match _ s).
Qed.

Lemma set_class_in c b cs : c ∈ set_class c b cs ↔ b = true.
Proof. unfold set_class. destruct b; set_solver. Qed.

Lemma set_class_other c c' b cs : c' ≠ c → c' ∈ set_class c b cs ↔ c' ∈ cs.
Proof. unfold set_class. destruct b; set_solver. Qed.

Lemma set_class_clear c b cs :
  set_class c false (set_class c b cs) = set_class c false cs.
Proof. unfold set_class. destruct b; set_solver. Qed.

Lemma set_class_comm c1 c2 cs :
  set_class c1 false (set_class c2 false cs)
  = set_class c2 false (set_class c1 false cs).
Proof. unfold set_class. set_solver. Qed.

Lemma set_class_absent c cs : c ∉ cs → set_class c false cs = cs.
Proof. unfold set_class. set_solver. Qed.

Lemma classed_by_Some {D} c (f : D → option bool) (g : D → bool) (sel : list (El D)) :
  (∀ e, e ∈ sel → f (datum e) = Some (g (datum e))) →
  classed_by c f sel
  = Some (map (λ e, mkEl (datum e) (set_class c (g (datum e)) (classes e))) sel).
Proof.
  unfold classed_by. induction sel as [|e sel IH]; intros Hf; [done|].
  simpl. rewrite (Hf e) by left. simpl.
  rewrite IH by (intros e' He'; apply Hf; by right). done.
Qed.

Lemma classed_by_clear {D} c (f : D → option bool) (sel sel' : list (El D)) :
  classed_by c f sel = Some sel' → classed c false sel' = classed c false sel.
Proof.
  unfold classed_by, classed. revert sel'.
  induction sel as [|e sel IH]; intros sel'; simpl.
  - by intros [= <-].
  - destruct (f (datum e)) as [b|]; simpl; [|done].
    destruct (mapM _ sel) as [rest|]; simpl; [|done].
    intros [= <-]. simpl. rewrite set_class_clear. f_equal. by apply IH.
Qed.

Lemma classed_comm {D} c1 c2 (sel : list (El D)) :
  classed c1 false (classed c2 false sel) = classed c2 false (classed c1 false sel).
Proof.
  unfold classed. rewrite <- !list_fmap_compose. apply list_fmap_ext.
  intros i e _. simpl. by rewrite set_class_comm.
Qed.

Lemma classed_idem {D} c (sel : list (El D)) :
  classed c false (classed c false sel) = classed c false sel.
Proof.
  unfold classed. rewrite <- !list_fmap_compose. apply list_fmap_ext.
  intros i e _. simpl. by rewrite set_class_clear.
Qed.

Lemma classed_absent {D} c (sel : list (El D)) :
  (∀ e, e ∈ sel → c ∉ classes e) → classed c false sel = sel.
Proof.
  unfold classed. induction sel as [|e sel IH]; intros H; [done|]. simpl.
  rewrite set_class_absent by (apply H; left).
  rewrite IH by (intros e' He'; apply H; by right). by destruct e.
Qed.

Lemma Forall2_map_self {A} (R : A → A → Prop) (f : A → A) (l : list A) :
  (∀ x, x ∈ l → R x (f x)) → Forall2 R l (map f l).
Proof.
  induction l as [|x l IH]; intros H; simpl; constructor.
  - apply H. left.
  - apply IH. intros y Hy. apply H. by right.
Qed.

Lemma link_faded_readable (ns : list (@Node Json)) names (d : @Link Json) :
  link_readable toLowerCase ns names d →
  ∃ b, link_faded ns (list_to_set (map toLowerCase names)) d = Some b ∧
       (b = true ↔ ¬ end_matches toLowerCase ns names (source d) ∧
                   ¬ end_matches toLowerCase ns names (target d)).
Proof.
  intros (s & Hs & Hrest). unfold Renderer.link_faded. rewrite Hs. simpl.
  destruct (is_match _ s) eqn:Es.
  - exists false. split; [done|]. apply is_match_iff in Es.
    split; [done|]. intros [Hsrc _]. exfalso. apply Hsrc. by exists s.
  - assert (¬ matches names s) as Hns.
    { rewrite <- is_match_iff. by rewrite Es. }
    destruct Hrest as [?|[t Ht]]; [done|]. rewrite Ht. simpl.
    eexists. split; [done|]. rewrite is_match_not. split.
    + intros Hnt. split; intros (x & Hx & Hm); congruence.
    + intros [_ Htgt] Hm. apply Htgt. by exists t.
Qed.

Lemma link_faded_unreadable (ns : list (@Node Json)) names (d : @Link Json) :
  ¬ link_readable toLowerCase ns names d →
  link_faded ns (list_to_set (map toLowerCase names)) d = None.
Proof.
  intros Hn. unfold Renderer.link_faded.
  destruct (ref_name ns (source d)) as [s|] eqn:Hs; simpl; [|done].
  destruct (is_match _ s) eqn:Es.
  - exfalso. apply Hn. exists s. split; [done|]. left. by apply is_match_iff.
  - destruct (ref_name ns (target d)) as [t|] eqn:Ht; simpl; [|done].
    exfalso. apply Hn. exists s. split; [done|]. right. rewrite Ht. by eexists.
Qed.

Lemma resolved_readable (ns : list (@Node Json)) names (d : @Link Json) :
  endpoint_in ns (source d) → endpoint_in ns (target d) →
  link_readable toLowerCase ns names d.
Proof.
  intros (i & Hi & Hlt) (j & Hj & Hlt').
  destruct (lookup_lt_is_Some_2 ns i Hlt) as [ni Hni].
  destruct (lookup_lt_is_Some_2 ns j Hlt') as [nj Hnj].
  exists (name ni). rewrite Hi, Hj. simpl. rewrite Hni, Hnj. simpl.
  split; [done|]. right. by eexists.
Qed.

Lemma classed_by_total {D} c (g : D → bool) (sel : list (El D)) :
  classed_by c (λ d, Some (g d)) sel
  = Some (map (λ e, mkEl (datum e) (set_class c (g (datum e)) (classes e))) sel).
Proof. by apply (classed_by_Some c _ g). Qed.

Lemma classed_by_None {D} c (f : D → option bool) (sel : list (El D)) e :
  e ∈ sel → f (datum e) = None → classed_by c f sel = None.
Proof.
  intros He Hf. unfold classed_by. apply mapM_None_2, Exists_exists.
  exists e. split; [done|]. by rewrite Hf.
Qed.

Lemma classed_by_link_faded (ns : list (@Node Json)) names (sel : list (El (@Link Json))) :
  (∀ e, e ∈ sel → link_readable toLowerCase ns names (datum e)) →
  classed_by "faded" (link_faded ns (list_to_set (map toLowerCase names))) sel
  = Some (map (λ e, mkEl (datum e)
                      (set_class "faded"
                         (default false
                            (link_faded ns (list_to_set (map toLowerCase names)) (datum e)))
                         (classes e))) sel).
Proof.
  intros Hn.
  apply (classed_by_Some "faded" _
           (λ d, default false
                   (link_faded ns (list_to_set (map toLowerCase names)) d))).
  intros e He.
  destruct (link_faded_readable ns names (datum e) (Hn e He)) as (b & -> & _). done.
Qed.

Lemma marked_line (ns : list (@Node Json)) names (e : El (@Link Json)) :
  link_readable toLowerCase ns names (datum e) →
  line_marked toLowerCase ns names e
    (mkEl (datum e)
       (set_class "faded"
          (default false (link_faded ns (list_to_set (map toLowerCase names)) (datum e)))
          (classes e))).
Proof.
  intros Hr.
  destruct (link_faded_readable ns names (datum e) Hr) as (b & Hb & Hiff).
  rewrite Hb. simpl. split.
  - split; [done|]. intros c Hc. simpl. apply set_class_other. set_solver.
  - simpl. by rewrite set_class_in.
Qed.

Lemma highlight_marks this names ne nl le ll :
  nodeElements this = Some ne → nodeLabels this = Some nl →
  linkElements this = Some le → linkLabels this = Some ll →
  (∀ e, e ∈ le ++ ll → link_readable toLowerCase (nodes this) names (datum e)) →
  names ≠ [] →
  ∃ this' ne' nl' le' ll',
    highlightNodes names this = Some this' ∧
    nodeElements this' = Some ne' ∧ nodeLabels this' = Some nl' ∧
    linkElements this' = Some le' ∧ linkLabels this' = Some ll' ∧
    Forall2 (node_marked toLowerCase names) ne ne' ∧
    Forall2 (label_marked toLowerCase names) nl nl' ∧
    Forall2 (line_marked toLowerCase (nodes this) names) le le' ∧
    Forall2 (line_marked toLowerCase (nodes this) names) ll ll'.
Proof.
  intros Hne Hnl Hle Hll Hnamed Hnames.
  unfold Renderer.highlightNodes. rewrite Hne, Hnl, Hle, Hll.
  rewrite bool_decide_eq_true_2 by (destruct names; [done|simpl; lia]).
  simpl. rewrite classed_by_total. simpl.
  rewrite classed_by_total. simpl. rewrite classed_by_total. simpl.
  rewrite !classed_by_link_faded
    by (intros e He; apply Hnamed; rewrite elem_of_app; auto).
  simpl. do 5 eexists. split_and!; try done.
  - rewrite <- list_fmap_compose. apply Forall2_map_self. intros e _. simpl.
    split_and!.
    + split; [done|]. intros c Hc. simpl.
      rewrite !set_class_other by set_solver. done.
    + simpl. rewrite set_class_other by done. rewrite set_class_in.
      apply is_match_iff.
    + simpl. rewrite set_class_in. apply is_match_not.
  - apply Forall2_map_self. intros e _. simpl. split.
    + split; [done|]. intros c Hc. simpl. apply set_class_other. set_solver.
    + simpl. rewrite set_class_in. apply is_match_not.
  - apply Forall2_map_self. intros e He. apply marked_line.
    apply Hnamed. rewrite elem_of_app. auto.
  - apply Forall2_map_self. intros e He. apply marked_line.
    apply Hnamed. rewrite elem_of_app. auto.
Qed.

Lemma highlight_throws this names ne nl le ll e :
  nodeElements this = Some ne → nodeLabels this = Some nl →
  linkElements this = Some le → linkLabels this = Some ll →
  names ≠ [] →
  e ∈ le ++ ll → ¬ link_readable toLowerCase (nodes this) names (datum e) →
  highlightNodes names this = None.
Proof.
  intros Hne Hnl Hle Hll Hnames He Hn.
  apply link_faded_unreadable in Hn.
  unfold Renderer.highlightNodes. rewrite Hne, Hnl, Hle, Hll.
  rewrite bool_decide_eq_true_2 by (destruct names; [done|simpl; lia]).
  simpl. rewrite classed_by_total. simpl.
  rewrite classed_by_total. simpl. rewrite classed_by_total. simpl.
  apply elem_of_app in He as [He|He].
  - by rewrite (classed_by_None "faded" _ le e He Hn).
  - destruct (classed_by "faded" _ le); simpl; [|done].
    by rewrite (classed_by_None "faded" _ ll e He Hn).
Qed.

Lemma cleared_one {D} c (e : El D) :
  cleared [c] e (mkEl (datum e) (set_class c false (classes e))).
Proof.
  split; [split; [done|]|]; simpl.
  - intros c' Hc'. apply set_class_other. set_solver.
  - intros c' Hc'. apply list_elem_of_singleton in Hc' as ->.
    rewrite set_class_in. done.
Qed.

Lemma cleared_two {D} c1 c2 (e : El D) :
  cleared [c1; c2] e
    (mkEl (datum e) (set_class c2 false (set_class c1 false (classes e)))).
Proof.
  split; [split; [done|]|]; simpl.
  - intros c' Hc'. rewrite !set_class_other by set_solver. done.
  - intros c' Hc'. unfold set_class. set_solver.
Qed.

Lemma highlight_clear this ne nl le ll :
  nodeElements this = Some ne → nodeLabels this = Some nl →
  linkElements this = Some le → linkLabels this = Some ll →
  ∃ this' ne' nl' le' ll',
    highlightNodes [] this = Some this' ∧
    nodeElements this' = Some ne' ∧ nodeLabels this' = Some nl' ∧
    linkElements this' = Some le' ∧ linkLabels this' = Some ll' ∧
    Forall2 (cleared ["highlighted"; "faded"]) ne ne' ∧
    Forall2 (cleared ["faded"]) nl nl' ∧
    Forall2 (cleared ["faded"]) le le' ∧
    Forall2 (cleared ["faded"]) ll ll' ∧
    highlightNodes [] this' = Some this'.
Proof.
  intros Hne Hnl Hle Hll.
  unfold Renderer.highlightNodes. rewrite Hne, Hnl, Hle, Hll. simpl.
  do 5 eexists. split_and!; try done.
  - unfold classed. rewrite <- list_fmap_compose.
    apply Forall2_map_self. intros e _. unfold compose. simpl.
    apply (cleared_two "highlighted" "faded").
  - apply Forall2_map_self. intros e _. apply cleared_one.
  - apply Forall2_map_self. intros e _. apply cleared_one.
  - apply Forall2_map_self. intros e _. apply cleared_one.
  - simpl. by rewrite (classed_comm "highlighted" "faded"), !classed_idem.
Qed.

(** Clearing after any call gives the state that clearing at once gives. *)
Lemma highlight_restore this names this1 :
  highlightNodes names this = Some this1 →
  highlightNodes [] this1 = highlightNodes [] this.
Proof.
  unfold Renderer.highlightNodes.
  destruct (nodeElements this) as [ne|] eqn:Hne; [|by intros [= <-]].
  destruct (bool_decide (0 < length names)); simpl.
  - destruct (classed_by "highlighted" _ ne) as [ne1|] eqn:H1; simpl; [|done].
    destruct (classed_by "faded" _ ne1) as [ne2|] eqn:H2; simpl; [|done].
    destruct (nodeLabels this) as [nl0|]; simpl; [|done].
    destruct (classed_by "faded" _ nl0) as [nl|] eqn:H3; simpl; [|done].
    destruct (linkElements this) as [le0|]; simpl; [|done].
    destruct (classed_by "faded" _ le0) as [le|] eqn:H4; simpl; [|done].
    destruct (linkLabels this) as [ll0|]; simpl; [|done].
    destruct (classed_by "faded" _ ll0) as [ll|] eqn:H5; simpl; [|done].
    intros [= <-]. simpl.
    rewrite (classed_by_clear _ _ _ _ H3), (classed_by_clear _ _ _ _ H4),
            (classed_by_clear _ _ _ _ H5).
    rewrite (classed_comm "faded" "highlighted" ne2), (classed_by_clear _ _ _ _ H2).
    rewrite (classed_comm "highlighted" "faded" ne1), (classed_by_clear _ _ _ _ H1).
    done.
  - destruct (nodeLabels this) as [nl0|]; simpl; [|done].
    destruct (linkElements this) as [le0|]; simpl; [|done].
    destruct (linkLabels this) as [ll0|]; simpl; [|done].
    intros [= <-]. simpl.
    by rewrite (classed_comm "highlighted" "faded"), !classed_idem.
Qed.

(** On elements that carry no mark, clearing changes nothing. *)
Lemma highlight_clear_neutral this this' ne nl le ll :
  nodeElements this = Some ne → nodeLabels this = Some nl →
  linkElements this = Some le → linkLabels this = Some ll →
  (∀ e, e ∈ ne → neutral e) →
  (∀ e, e ∈ nl → "faded" ∉ classes e) →
  (∀ e, e ∈ le → "faded" ∉ classes e) →
  (∀ e, e ∈ ll → "faded" ∉ classes e) →
  highlightNodes [] this = Some this' →
  nodeElements this' = Some ne ∧ nodeLabels this' = Some nl ∧
  linkElements this' = Some le ∧ linkLabels this' = Some ll ∧
  nodes this' = nodes this ∧ links this' = links this.
Proof.
  intros Hne Hnl Hle Hll Nne Nnl Nle Nll.
  unfold Renderer.highlightNodes. rewrite Hne, Hnl, Hle, Hll. simpl.
  intros [= <-]. simpl.
  rewrite (classed_absent "highlighted" ne) by (intros e He; by apply Nne).
  rewrite !classed_absent; [done|done..|].
  intros e He. by apply Nne.
Qed.


End Highlight.

(** The search scenario: with the two strategies as matches, their circles
    are highlighted and the belief's is faded; of the three lines only the
    loop on the belief is faded. *)
Example highlight_strategies :
  ∃ this',
    highlightNodes lower ["Strategy1"; "Strategy2"] (rendered strategies) = Some this' ∧
    circle_marks this'
    = [("Strategy1", true, false); ("Strategy2", true, false); ("Belief1", false, true)] ∧
    line_marks this'
    = [(RNode 0, RNode 1, false); (RNode 1, RNode 2, false); (RNode 2, RNode 2, true)].
Proof. eexists. split; [vm_compute; reflexivity|]. split; vm_compute; reflexivity. Qed.



End RendererFacts.

(* ===================================================================== *)
(** ** Facts about the sync script                                        *)
(* ===================================================================== *)

Module SyncFacts.
Import Sync.

Lemma eqb_prefix (g p : string) :
  String.eqb g p || String.prefix p g = String.prefix p g.
Proof.
  destruct (String.eqb g p) eqn:E; [|done]. simpl.
  apply String.eqb_eq in E as ->. symmetry.
  induction p as [|a p IH]; simpl; [done|].
  by destruct (ascii_dec a a).
Qed.

Lemma prefix_app (p g : string) :
  String.prefix p g = true → ∃ t, g = p +:+ t.
Proof.
  revert g. induction p as [|a p IH]; intros g; simpl.
  - intros _. by exists g.
  - destruct g as [|b g]; simpl; [done|].
    destruct (ascii_dec a b) as [->|]; [|done].
    intros H. destruct (IH g H) as [t ->]. by exists t.
Qed.

Lemma included_prefixes (graphId : string) :
  existsb (λ prefix, String.eqb graphId prefix || startsWith graphId prefix)
          INCLUDE_PREFIXES
  = startsWith graphId "mind" || startsWith graphId "thought-".
Proof.
  unfold startsWith. cbn [existsb INCLUDE_PREFIXES].
  by rewrite !eqb_prefix, !orb_false_r.
Qed.

Lemma excluded_not_included (graphId : string) :
  existsb (startsWith graphId) EXCLUDE_PREFIXES = true →
  startsWith graphId "mind" || startsWith graphId "thought-" = false.
Proof.
  unfold startsWith. cbn [existsb EXCLUDE_PREFIXES]. rewrite !orb_false_r.
  destruct (String.prefix "social-" graphId) eqn:E1;
    [apply prefix_app in E1 as [t ->]; reflexivity|].
  destruct (String.prefix "trading" graphId) eqn:E2;
    [apply prefix_app in E2 as [t ->]; reflexivity|].
  destruct (String.prefix "encounter-" graphId) eqn:E3;
    [apply prefix_app in E3 as [t ->]; reflexivity|].
  discriminate.
Qed.

(** The outcome of [shouldSync] is decided by the two included prefixes
    alone: an id that starts with an excluded prefix starts with neither, so
    the exclusion list never rejects an id the inclusion list accepts. *)
Theorem shouldSync_included (graphId : string) :
  shouldSync graphId = startsWith graphId "mind" || startsWith graphId "thought-".
Proof.
  unfold shouldSync.
  destruct (existsb (startsWith graphId) EXCLUDE_PREFIXES) eqn:E.
  - symmetry. by apply excluded_not_included.
  - apply included_prefixes.
Qed.

Lemma run_counts syncGraph ids s f :
  run syncGraph ids s f
  = (s + length (filter (λ g, syncGraph g = true) ids),
     f + length (filter (λ g, syncGraph g = false) ids)).
Proof.
  revert s f. induction ids as [|g rest IH]; intros s f; simpl.
  - by rewrite !Nat.add_0_r.
  - rewrite !filter_cons. destruct (syncGraph g) eqn:E; rewrite IH;
      repeat case_decide; try done; simpl; f_equal; lia.
Qed.

(** [main] posts the listed ids that start with [mind] or [thought-], each
    once and in the order listed, and its two counters add up to their
    number: a failed graph does not stop the others. *)
Theorem main_attempts_whitelisted syncGraph graphList :
  toSync graphList
  = filter (λ g, startsWith g "mind" = true ∨ startsWith g "thought-" = true)
           (graphIds graphList) ∧
  (main syncGraph graphList).1 + (main syncGraph graphList).2
  = length (toSync graphList) ∧
  (main syncGraph graphList).1
  = length (filter (λ g, syncGraph g = true) (toSync graphList)).
Proof.
  split_and!.
  - unfold toSync. apply list_filter_iff. intros g.
    rewrite <- orb_true_iff, <- included_prefixes. unfold shouldSync.
    destruct (existsb (startsWith g) EXCLUDE_PREFIXES) eqn:E; [|done].
    rewrite included_prefixes, (excluded_not_included g E). done.
  - unfold main. rewrite run_counts. simpl.
    induction (toSync graphList) as [|g l IH]; [done|].
    rewrite !filter_cons. destruct (syncGraph g); repeat case_decide; try done;
      simpl; lia.
  - unfold main. by rewrite run_counts.
Qed.

End SyncFacts.

(* ===================================================================== *)
(** ** Facts about the helpers of the page                                *)
(* ===================================================================== *)

From Stdlib Require Import Lqa.

Module AppFacts.
Import Renderer App.

Lemma chars_app (s t : string) : chars (s +:+ t) = chars s ++ chars t.
Proof. unfold chars. induction s as [|a s IH]; simpl; [done|]. by rewrite IH. Qed.

Lemma chars_replace_all (x c : ascii) (r str : string) :
  x ∈ chars (replace_all c r str) →
  (x ≠ c ∧ x ∈ chars str) ∨ x ∈ chars r.
Proof.
  induction str as [|a rest IH]; simpl; [by intros ?%elem_of_nil|].
  case_decide as Hac.
  - rewrite chars_app, elem_of_app. intros [?|H]; [by right|].
    destruct (IH H) as [[? ?]|?]; [left|by right].
    split; [done|]. unfold chars. simpl. by right.
  - unfold chars at 1. simpl. rewrite elem_of_cons. intros [->|H].
    + left. split; [done|]. unfold chars. simpl. left.
    + destruct (IH H) as [[? ?]|?]; [left|by right].
      split; [done|]. unfold chars. simpl. by right.
Qed.

Lemma replace_all_absent (c : ascii) (r str : string) :
  c ∉ chars str → replace_all c r str = str.
Proof.
  induction str as [|a rest IH]; simpl; [done|].
  unfold chars. simpl. rewrite not_elem_of_cons. intros [Hne Hrest].
  rewrite decide_False by done. f_equal. by apply IH.
Qed.

(** The result of [escapeAttr] holds none of the characters double quote,
    single quote, [<] and [>]; a string that holds none of them is returned
    as it is. *)
Theorem escapeAttr_no_special (str : string) :
  (∀ c, c ∈ special → c ∉ chars (escapeAttr str)) ∧
  ((∀ c, c ∈ special → c ∉ chars str) → escapeAttr str = str).
Proof.
  split.
  - intros c Hc Hin. unfold escapeAttr in Hin.
    assert (∀ x r, x ∈ special → r ∈ ["&quot;"; "&#39;"; "&lt;"; "&gt;"] →
                   x ∉ chars r) as Hfresh.
    { intros x r Hx Hr Hxr. unfold special in Hx.
      repeat (apply elem_of_cons in Hx as [-> | Hx]);
        [| | | |by apply elem_of_nil in Hx];
        repeat (apply elem_of_cons in Hr as [-> | Hr]);
        try (by apply elem_of_nil in Hr);
        vm_compute in Hxr;
        repeat (apply elem_of_cons in Hxr as [Hxr | Hxr]; [discriminate Hxr|]);
        by apply elem_of_nil in Hxr. }
    apply chars_replace_all in Hin as [[H1 Hin]|Hin];
      [|eapply Hfresh; [exact Hc| |exact Hin]; set_solver].
    apply chars_replace_all in Hin as [[H2 Hin]|Hin];
      [|eapply Hfresh; [exact Hc| |exact Hin]; set_solver].
    apply chars_replace_all in Hin as [[H3 Hin]|Hin];
      [|eapply Hfresh; [exact Hc| |exact Hin]; set_solver].
    apply chars_replace_all in Hin as [[H4 Hin]|Hin];
      [|eapply Hfresh; [exact Hc| |exact Hin]; set_solver].
    unfold special in Hc. set_solver.
  - intros Hsafe. unfold escapeAttr.
    rewrite (replace_all_absent dquote) by (apply Hsafe; set_solver).
    rewrite (replace_all_absent "'") by (apply Hsafe; set_solver).
    rewrite (replace_all_absent "<") by (apply Hsafe; set_solver).
    by rewrite (replace_all_absent ">") by (apply Hsafe; set_solver).
Qed.

Lemma escapeAttr_no_special_witness :
  escapeAttr "Alan Turing" = "Alan Turing".
Proof.
  apply (proj2 (escapeAttr_no_special "Alan Turing")).
  intros c Hc. unfold special in Hc.
  repeat (apply elem_of_cons in Hc as [-> | Hc];
          [apply (bool_decide_unpack _); vm_compute; exact I|]).
  by apply elem_of_nil in Hc.
Defined.

(** *** [timeAgo] *)

Lemma floor_bounds (x c : Q) :
  (0 < c)%Q →
  (inject_Z (Qfloor (x / c)) * c <= x)%Q ∧
  (x < (inject_Z (Qfloor (x / c)) + 1) * c)%Q.
Proof.
  intros Hc. pose proof (Qfloor_le (x / c)) as Hlo.
  pose proof (Qlt_floor (x / c)) as Hhi. rewrite inject_Z_plus in Hhi.
  change (inject_Z 1) with 1%Q in Hhi.
  assert (x == x / c * c)%Q as Hx by (field; lra).
  set (q := (x / c)%Q) in *. set (f := inject_Z (Qfloor q)) in *.
  clearbody f q. rewrite Hx. split; nra.
Qed.

Lemma inject_Z_scaled (a b k : Z) :
  (k * a <= b)%Z → (inject_Z k * inject_Z a <= inject_Z b)%Q.
Proof. intros H. rewrite <- inject_Z_mult, <- Zle_Qle. exact H. Qed.

Lemma inject_Z_scaled_succ (a b k : Z) :
  (b + 1 <= k * a + k)%Z →
  (inject_Z b + 1 <= inject_Z k * inject_Z a + inject_Z k)%Q.
Proof.
  intros H. change 1%Q with (inject_Z 1).
  rewrite <- inject_Z_mult, <- !inject_Z_plus, <- Zle_Qle. exact H.
Qed.

(** For a date [timeAgo] can read, with [diff] the milliseconds elapsed:
    less than a minute, or a date in the future, gives [just now]; otherwise
    the text holds the whole minutes below an hour, the whole hours below a
    day, or the whole days, and never the dash. *)
Theorem timeAgo_buckets (d : DateStr) (now : Z) (t : Q) :
  epoch_ms d = Some t →
  let diff := (inject_Z now - t)%Q in
  match timeAgo (Some d) now with
  | Dash => False
  | JustNow => (diff < 60000)%Q
  | MinutesAgo m =>
      (1 ≤ m < 60)%Z ∧
      (inject_Z m * 60000 <= diff)%Q ∧ (diff < (inject_Z m + 1) * 60000)%Q
  | HoursAgo h =>
      (1 ≤ h < 24)%Z ∧
      (inject_Z h * 3600000 <= diff)%Q ∧ (diff < (inject_Z h + 1) * 3600000)%Q
  | DaysAgo days =>
      (1 ≤ days)%Z ∧
      (inject_Z days * 86400000 <= diff)%Q ∧
      (diff < (inject_Z days + 1) * 86400000)%Q
  end.
Proof.
  intros Ht diff. unfold timeAgo. rewrite Ht. fold diff.
  destruct (floor_bounds diff 60000) as [Hlo Hhi]; [lra|].
  set (m := Qfloor (diff / 60000)) in *.
  destruct (Z.ltb_spec m 1) as [Hm1|Hm1].
  { assert (inject_Z m <= 0)%Q as Hm0.
    { change 0%Q with (inject_Z 0). rewrite <- Zle_Qle. lia. }
    set (f := inject_Z m) in *. clearbody f. nra. }
  destruct (Z.ltb_spec m 60) as [Hm60|Hm60]; [by split_and!; [lia|..]|].
  pose proof (Z.div_mod m 60 ltac:(lia)) as Hdm.
  pose proof (Z.mod_pos_bound m 60 ltac:(lia)) as Hmod.
  set (h := (m / 60)%Z) in *.
  pose proof (inject_Z_scaled h m 60 ltac:(lia)) as Hh1.
  pose proof (inject_Z_scaled_succ h m 60 ltac:(lia)) as Hh2.
  change (inject_Z 60) with 60%Q in Hh1, Hh2.
  destruct (Z.ltb_spec h 24) as [Hh24|Hh24].
  { split; [lia|].
    set (f := inject_Z m) in *. set (e := inject_Z h) in *. clearbody f e.
    split; nra. }
  pose proof (Z.div_mod h 24 ltac:(lia)) as Hdh.
  pose proof (Z.mod_pos_bound h 24 ltac:(lia)) as Hmodh.
  set (days := (h / 24)%Z) in *.
  pose proof (inject_Z_scaled days h 24 ltac:(lia)) as Hd1.
  pose proof (inject_Z_scaled_succ days h 24 ltac:(lia)) as Hd2.
  change (inject_Z 24) with 24%Q in Hd1, Hd2.
  split; [lia|].
  set (f := inject_Z m) in *. set (e := inject_Z h) in *.
  set (c := inject_Z days) in *. clearbody f e c.
  split; nra.
Qed.

Lemma timeAgo_buckets_witness :
  match timeAgo (Some (mkDateStr (Some 1700000000%Q) None)) 1700007500000 with
  | HoursAgo h => (1 ≤ h < 24)%Z
  | _ => False
  end.
Proof.
  pose proof (timeAgo_buckets (mkDateStr (Some 1700000000%Q) None) 1700007500000
                (1700000000 * 1000)%Q eq_refl) as H.
  destruct (timeAgo _ _) eqn:E; try discriminate E. exact (proj1 H).
Defined.

Lemma Qlt_bool_cases (a b : Q) :
  (Qlt_bool a b = true ∧ (a < b)%Q) ∨ (Qlt_bool a b = false ∧ (b <= a)%Q).
Proof.
  unfold Qlt_bool. destruct (Qle_bool b a) eqn:E.
  - right. split; [done|]. by apply Qle_bool_iff.
  - left. split; [done|]. apply Qnot_le_lt. intros H%Qle_bool_iff. congruence.
Qed.

(** A number from [1e11] to [1e12], or one not above [1e9], is not taken
    for an epoch: what [timeAgo] answers then is decided by the [Date]
    constructor, and it is the dash when that yields no date. *)
Theorem timeAgo_epoch_gap (d : DateStr) (now : Z) (num : Q) :
  as_number d = Some num →
  (num <= 1000000000)%Q ∨ (100000000000 <= num ∧ num <= 1000000000000)%Q →
  epoch_ms d = as_date d ∧
  (as_date d = None → timeAgo (Some d) now = Dash).
Proof.
  intros Hnum Hgap.
  assert (epoch_ms d = as_date d) as He.
  { unfold epoch_ms. rewrite Hnum.
    destruct (Qlt_bool_cases 1000000000 num) as [[-> H1]|[-> H1]],
             (Qlt_bool_cases num 100000000000) as [[-> H2]|[-> H2]],
             (Qlt_bool_cases 1000000000000 num) as [[-> H3]|[-> H3]];
      simpl; try done; exfalso; lra. }
  split; [done|]. intros Hd. unfold timeAgo. by rewrite He, Hd.
Qed.

Lemma timeAgo_epoch_gap_witness :
  timeAgo (Some (mkDateStr (Some 500000000000%Q) None)) 1700007500000 = Dash.
Proof.
  refine (proj2 (timeAgo_epoch_gap (mkDateStr (Some 500000000000%Q) None)
                   1700007500000 500000000000%Q eq_refl _) eq_refl).
  right. split; by vm_compute.
Defined.

End AppFacts.

(* ===================================================================== *)
(** ** More facts about the renderer                                      *)
(* ===================================================================== *)

Module ViewFacts.
Import Renderer View.

Section Facts.

Context {Json : Type}.
Implicit Types (this : @GraphRenderer Json).

(** *** [focusNode] *)

(** [focusNode] computes a transform exactly when some node bears the name
    and the first node that does has a position whose [x] is not 0; the
    scale of the transform is 1.5.  It computes none when no node bears the
    name, and none when that first node has no position yet or sits at
    [x = 0], whatever the later nodes of that name. *)
Theorem focusNode_first_named this positions width height name0 :
  (∀ t, focusNode this positions width height name0 = Some t →
        snd t = 1.5%Q ∧
        ∃ i n x y,
          list_find (λ n, name n = name0) (nodes this) = Some (i, n) ∧
          (∀ j m, nodes this !! j = Some m → j < i → name m ≠ name0) ∧
          positions !! i = Some (Some (x, y)) ∧ ¬ (x == 0)%Q) ∧
  (∀ i n x y,
     list_find (λ n, name n = name0) (nodes this) = Some (i, n) →
     positions !! i = Some (Some (x, y)) → ¬ (x == 0)%Q →
     is_Some (focusNode this positions width height name0)) ∧
  (name0 ∉ map name (nodes this) →
   focusNode this positions width height name0 = None) ∧
  (∀ i n,
     list_find (λ n, name n = name0) (nodes this) = Some (i, n) →
     mjoin (positions !! i) = None ∨
     (∃ x y, positions !! i = Some (Some (x, y)) ∧ (x == 0)%Q) →
     focusNode this positions width height name0 = None).
Proof.
  unfold focusNode. split_and!.
  - intros t.
    destruct (list_find _ (nodes this)) as [[i n]|] eqn:Hf; [|done].
    pose proof Hf as (Hi & Hn & Hfirst)%list_find_Some.
    destruct (positions !! i) as [[[x y]|]|] eqn:Hp; simpl; try done.
    destruct (Qeq_bool x 0) eqn:Ex; [done|].
    apply Qeq_bool_neq in Ex. intros [= <-]. split; [done|].
    by exists i, n, x, y.
  - intros i n x y -> Hp Hx. rewrite Hp. simpl.
    destruct (Qeq_bool x 0) eqn:Ex; [|by eexists].
    by apply Qeq_bool_iff in Ex.
  - intros Hnot.
    destruct (list_find _ (nodes this)) as [[i n]|] eqn:Hf; [|done].
    apply list_find_Some in Hf as (Hi & Hn & _).
    exfalso. apply Hnot. apply list_elem_of_fmap. exists n. split; [done|].
    by eapply list_elem_of_lookup_2.
  - intros i n -> [Hnone|(x & y & Hp & Hx)].
    + by rewrite Hnone.
    + rewrite Hp. simpl. apply Qeq_bool_iff in Hx. by rewrite Hx.
Qed.

(** *** [getNodeTypes] *)

Lemma bump_other (types : gmap string Count) (k k' : string) :
  k' ≠ k → bump types k' !! k = types !! k.
Proof.
  intros Hne. unfold bump. case_decide; [done|]. by rewrite lookup_insert_ne.
Qed.

Lemma bump_fresh (types : gmap string Count) (k : string) :
  k ∉ inherited_keys → types !! k = None → bump types k !! k = Some (Num 1).
Proof.
  intros Hk Hnone. unfold bump. rewrite Hnone.
  rewrite (decide_False (P := k ∈ inherited_keys)) by done.
  rewrite decide_False, lookup_insert_eq; [done|].
  intros ->. apply Hk. apply (bool_decide_unpack _). by vm_compute.
Qed.

Lemma bump_counted (types : gmap string Count) (k : string) n :
  k ∉ inherited_keys → types !! k = Some (Num n) →
  bump types k !! k = Some (Num (S n)).
Proof.
  intros Hk Hsome. unfold bump. rewrite Hsome.
  rewrite decide_False, lookup_insert_eq; [done|].
  intros ->. apply Hk. apply (bool_decide_unpack _). by vm_compute.
Qed.

Lemma bump_inherited (types : gmap string Count) (k : string) :
  k ∈ inherited_keys → k ≠ "__proto__" →
  types !! k = None ∨ types !! k = Some NotNum →
  bump types k !! k = Some NotNum.
Proof.
  intros Hk Hp Hv. unfold bump. rewrite (decide_False (P := k = _)) by done.
  rewrite lookup_insert_eq. destruct Hv as [-> | ->]; [|done].
  by rewrite decide_True.
Qed.

Lemma bump_proto (types : gmap string Count) (k : string) :
  types !! "__proto__" = None → bump types k !! "__proto__" = None.
Proof.
  intros H. unfold bump. case_decide as Hk; [done|]. by rewrite lookup_insert_ne.
Qed.

Lemma count_types_plain (ts : list string) (types : gmap string Count) (k : string) :
  k ∉ inherited_keys →
  (types !! k = None →
   foldl bump types ts !! k
   = match length (filter (λ t, t = k) ts) with
     | O => None
     | S c => Some (Num (S c))
     end) ∧
  (∀ n, types !! k = Some (Num n) →
        foldl bump types ts !! k = Some (Num (n + length (filter (λ t, t = k) ts)))).
Proof.
  intros Hk. revert types. induction ts as [|t ts IH]; intros types.
  - simpl. split; [done|]. intros n ->. by rewrite Nat.add_0_r.
  - simpl. rewrite filter_cons. destruct (IH (bump types t)) as [IH0 IHn].
    case_decide as Ht.
    + subst t. split.
      * intros Hnone. rewrite (IHn 1) by by apply bump_fresh. done.
      * intros n Hsome. rewrite (IHn (S n)) by by apply bump_counted.
        simpl. f_equal. f_equal. lia.
    + split.
      * intros Hnone. apply IH0. by rewrite bump_other.
      * intros n Hsome. apply IHn. by rewrite bump_other.
Qed.

Lemma count_types_inherited (ts : list string) (types : gmap string Count) (k : string) :
  k ∈ inherited_keys → k ≠ "__proto__" →
  (types !! k = Some NotNum → foldl bump types ts !! k = Some NotNum) ∧
  (types !! k = None → k ∈ ts → foldl bump types ts !! k = Some NotNum).
Proof.
  intros Hk Hp. revert types. induction ts as [|t ts IH]; intros types.
  - simpl. split; [done|]. by intros _ ?%elem_of_nil.
  - simpl. destruct (IH (bump types t)) as [IHs IHn].
    destruct (decide (t = k)) as [->|Ht].
    + split; intros; apply IHs; apply bump_inherited; auto.
    + split.
      * intros Hs. apply IHs. by rewrite bump_other.
      * intros Hn Hin. apply elem_of_cons in Hin as [?|Hin]; [done|].
        apply IHn; [|done]. by rewrite bump_other.
Qed.

Lemma count_types_proto (ts : list string) (types : gmap string Count) :
  types !! "__proto__" = None → foldl bump types ts !! "__proto__" = None.
Proof.
  revert types. induction ts as [|t ts IH]; intros types H; simpl; [done|].
  apply IH. by apply bump_proto.
Qed.

Lemma filter_map_length {A} (f : A → string) (k : string) (l : list A) :
  length (filter (λ t, t = k) (map f l)) = length (filter (λ x, f x = k) l).
Proof.
  induction l as [|x l IH]; [done|].
  simpl. rewrite !filter_cons. repeat case_decide; simpl; rewrite ?IH; done.
Qed.

(** [getNodeTypes] maps a type that is not the name of an inherited member
    to the number of nodes of that type, and has no entry for it when there
    is none.  A type that is such a name, borne by some node, is mapped to
    something that is not a number, and the type [__proto__] gets no entry. *)
Theorem getNodeTypes_counts this (k : string) :
  (k ∉ inherited_keys →
   getNodeTypes this !! k
   = match length (filter (λ n, type n = k) (nodes this)) with
     | O => None
     | S c => Some (Num (S c))
     end) ∧
  (k ∈ inherited_keys → k ≠ "__proto__" → k ∈ map type (nodes this) →
   getNodeTypes this !! k = Some NotNum) ∧
  getNodeTypes this !! "__proto__" = None.
Proof.
  unfold getNodeTypes. split_and!.
  - intros Hk. destruct (count_types_plain (map type (nodes this)) ∅ k Hk) as [H _].
    rewrite H by apply lookup_empty.
    by rewrite filter_map_length.
  - intros Hk Hp Hin.
    by apply (count_types_inherited (map type (nodes this)) ∅ k Hk Hp).
  - by apply count_types_proto.
Qed.

End Facts.

Import Payloads.

Lemma focusNode_first_named_witness :
  ∃ t, focusNode (rendered small) placed 800 600 "B" = Some t ∧ snd t = 1.5%Q.
Proof.
  assert (∃ t, focusNode (rendered small) placed 800 600 "B" = Some t)
    as [t Ht] by (eexists; vm_compute; reflexivity).
  exists t. split; [exact Ht|].
  exact (proj1 (proj1 (focusNode_first_named (rendered small) placed 800 600 "B")
                  t Ht)).
Defined.

Lemma getNodeTypes_counts_witness :
  getNodeTypes (rendered small) !! "Unknown" = Some (Num 2).
Proof.
  refine (eq_trans (proj1 (getNodeTypes_counts (rendered small) "Unknown") _) _).
  - apply (bool_decide_unpack _). vm_compute. exact I.
  - vm_compute. reflexivity.
Defined.

(** *** Connection counts *)

Lemma sum_list_zero {A} (l : list A) : sum_list (map (λ _, 0) l) = 0.
Proof. induction l as [|x l IH]; simpl; [done|]. exact IH. Qed.

Lemma sum_list_plus {A} (g h : A → nat) (l : list A) :
  sum_list (map (λ x, g x + h x) l) = sum_list (map g l) + sum_list (map h l).
Proof. induction l as [|x l IH]; simpl; [done|]. rewrite IH. lia. Qed.

Lemma sum_list_ext {A} (g h : A → nat) (l : list A) :
  (∀ x, x ∈ l → g x = h x) → sum_list (map g l) = sum_list (map h l).
Proof.
  induction l as [|x l IH]; intros H; simpl; [done|].
  rewrite (H x) by left. rewrite IH; [done|]. intros y Hy. apply H. by right.
Qed.

Lemma sum_indicator (ks : list string) (k0 : string) :
  NoDup ks →
  sum_list (map (λ k, if decide (k0 = k) then 1 else 0) ks)
  = if decide (k0 ∈ ks) then 1 else 0.
Proof.
  induction 1 as [|k ks Hk Hnd IH]; simpl; [done|].
  rewrite IH. destruct (decide (k0 = k)) as [->|Hne].
  - rewrite (decide_False (P := k ∈ ks)) by done.
    rewrite decide_True by left. done.
  - destruct (decide (k0 ∈ ks)) as [Hin|Hnin].
    + rewrite decide_True by by right. done.
    + rewrite decide_False; [done|]. by intros [?|?]%elem_of_cons.
Qed.

(** Counting the elements of a list by key, over pairwise distinct keys that
    cover it, counts every element once. *)
Lemma sum_count_keys {A} (f : A → string) (ks : list string) (l : list A) :
  NoDup ks → (∀ x, x ∈ l → f x ∈ ks) →
  sum_list (map (λ k, length (filter (λ x, f x = k) l)) ks) = length l.
Proof.
  intros Hnd. induction l as [|x l IH]; intros Hin.
  - simpl. apply sum_list_zero.
  - rewrite (sum_list_ext _ (λ k, (if decide (f x = k) then 1 else 0)
                                   + length (filter (λ x, f x = k) l))).
    + rewrite sum_list_plus, sum_indicator by done.
      rewrite decide_True by (apply Hin; left).
      rewrite IH; [done|]. intros y Hy. apply Hin. by right.
    + intros k _. rewrite filter_cons. by case_decide.
Qed.

Lemma filter_or_and_length {A} (P Q : A → Prop)
    `{∀ x, Decision (P x)} `{∀ x, Decision (Q x)} (l : list A) :
  length (filter (λ x, P x ∨ Q x) l) + length (filter (λ x, P x ∧ Q x) l)
  = length (filter P l) + length (filter Q l).
Proof.
  induction l as [|x l IH]; [done|].
  rewrite !filter_cons.
  destruct (decide (P x)), (decide (Q x));
    repeat case_decide; simpl; try lia; tauto.
Qed.

Section Degree.

Context {Json : Type}.
Variable empty_object : Json.
Implicit Types (this : @GraphRenderer Json).

Local Abbreviation make_node := (make_node empty_object).
Local Abbreviation resolve := (resolve empty_object).
Local Abbreviation build := (build empty_object).
Local Abbreviation render := (render empty_object).
Local Abbreviation payload_names := (payload_names empty_object).
Local Abbreviation distinct_names := (distinct_names empty_object).
Local Abbreviation closed_payload := (closed_payload empty_object).

Lemma connections_value_built nodes0 rels ns ls :
  build nodes0 rels = Some (ns, ls) →
  map connections_value ns = map (λ k, ends_named ns ls k) (map name ns).
Proof.
  intros Hb. rewrite map_map. apply list_eq. intros i.
  rewrite !list_lookup_fmap. destruct (ns !! i) as [n|] eqn:Hi; [|done].
  simpl. unfold connections_value.
  by rewrite (RendererFacts.build_connections _ _ _ _ _ _ _ Hb Hi).
Qed.

(** For a payload whose node names are pairwise distinct, none of them
    [__proto__], and none of whose relationship endpoints is found among the
    inherited members, [render] completes and the connection counts it
    writes add up to twice the number of links it made.  (When [render]
    returns at one of its guards the state, and with it the equality, is the
    one before the call.) *)
Theorem render_handshake g this :
  "__proto__" ∉ payload_names g →
  distinct_names g → own_endpoints empty_object g →
  total_connections this = 2 * length (links this) →
  ∃ this', render (Some g) this = Some this' ∧
           total_connections this' = 2 * length (links this').
Proof.
  intros Hproto Hd Hown Hthis.
  destruct (RendererFacts.render_defined empty_object g this Hproto) as [this' Hr].
  exists this'. split; [done|].
  apply RendererFacts.render_cases in Hr as [->|(nodes0 & ns & ls & Hg & Hb & ->)];
    [done|].
  unfold total_connections. simpl.
  assert (∀ rel, rel ∈ default [] (gd_relationships g) →
                 (r_source rel ∈ inherited_keys → r_source rel ∈ map name ns) ∧
                 (r_target rel ∈ inherited_keys → r_target rel ∈ map name ns)) as Hp.
  { rewrite (RendererFacts.build_names _ _ _ _ _ Hb).
    unfold Renderer.own_endpoints, Renderer.payload_names in Hown.
    by rewrite Hg in Hown. }
  rewrite (connections_value_built _ _ _ _ Hb).
  assert (NoDup (map name ns)) as Hnd.
  { rewrite (RendererFacts.build_names _ _ _ _ _ Hb).
    unfold distinct_names, Renderer.distinct_names, Renderer.payload_names in Hd.
    by rewrite Hg in Hd. }
  assert (∀ l, l ∈ ls →
               prop_key (ref_name ns (source l)) ∈ map name ns ∧
               prop_key (ref_name ns (target l)) ∈ map name ns) as Hends.
  { intros l Hl.
    destruct (RendererFacts.build_links_own _ _ _ _ _ Hb Hp l Hl)
      as (rel & i & j & ni & nj & _ & -> & -> & Hi & Hj & _).
    simpl. rewrite Hi, Hj. simpl.
    split; apply list_elem_of_fmap; eexists; (split; [done|]);
      by eapply list_elem_of_lookup_2. }
  unfold ends_named.
  rewrite (sum_list_plus
             (λ k, length (filter (λ l, prop_key (ref_name ns (source l)) = k) ls))
             (λ k, length (filter (λ l, prop_key (ref_name ns (target l)) = k) ls))).
  rewrite !sum_count_keys; [lia|done|naive_solver|done|naive_solver].
Qed.

End Degree.

Lemma render_handshake_witness :
  ∃ this',
    render () (Some members) ready = Some this' ∧
    total_connections this' = 2 * length (links this').
Proof.
  apply (render_handshake () members ready).
  - apply (bool_decide_unpack _). vm_compute. exact I.
  - apply (bool_decide_unpack _). vm_compute. exact I.
  - intros rel Hrel. simpl in Hrel.
    repeat (apply elem_of_cons in Hrel as [-> | Hrel];
            [split; intros _; apply (bool_decide_unpack _); vm_compute; exact I|]).
    by apply elem_of_nil in Hrel.
  - reflexivity.
Defined.

Section Listed.

Import App.

Context {Json : Type}.
Variable empty_object : Json.
Implicit Types (this : @GraphRenderer Json) (ns : list (@Node Json)).

Local Abbreviation make_node := (make_node empty_object).
Local Abbreviation resolve := (resolve empty_object).
Local Abbreviation build := (build empty_object).
Local Abbreviation render := (render empty_object).
Local Abbreviation closed_payload := (closed_payload empty_object).

Lemma lookup_node_own ns cc (k : string) :
  k ∈ map name ns →
  ∃ r, lookup_node (index_nodes 0 ns cc ∅).2 k = Some r ∧ ref_name ns r = Some k.
Proof.
  intros Hk.
  destruct (RendererFacts.index_nodes_is_Some 0 ns cc ∅ k Hk) as [j Hj].
  destruct (RendererFacts.index_nodes_present 0 ns cc ∅ k j Hk Hj)
    as (_ & n & Hn & Hname).
  exists (RNode j). unfold lookup_node. rewrite Hj. split; [done|].
  simpl. rewrite Nat.sub_0_r in Hn. by rewrite Hn, <- Hname.
Qed.

Lemma ends_named_closed ns cc (rels : list (@RelData Json)) (k : string) :
  (∀ rel, rel ∈ rels → r_source rel ∈ map name ns ∧ r_target rel ∈ map name ns) →
  ends_named ns (omap (resolve (index_nodes 0 ns cc ∅).2) rels) k
  = length (filter (λ r, r_source r = k) rels)
    + length (filter (λ r, r_target r = k) rels).
Proof.
  induction rels as [|rel rels IH]; intros Hc; [done|].
  destruct (Hc rel) as [Hs Ht]; [left|].
  destruct (lookup_node_own ns cc _ Hs) as (src & Hsrc & Hsn).
  destruct (lookup_node_own ns cc _ Ht) as (tgt & Htgt & Htn).
  specialize (IH (λ r Hr, Hc r (list_elem_of_further _ _ _ Hr))).
  assert (∃ l, resolve (index_nodes 0 ns cc ∅).2 rel = Some l ∧
               source l = src ∧ target l = tgt) as (l & Hl & Hsl & Htl).
  { unfold resolve, Renderer.resolve. rewrite Hsrc, Htgt. simpl. by eexists. }
  assert (omap (resolve (index_nodes 0 ns cc ∅).2) (rel :: rels)
          = l :: omap (resolve (index_nodes 0 ns cc ∅).2) rels) as ->
    by (simpl; by rewrite Hl).
  set (ls := omap (resolve (index_nodes 0 ns cc ∅).2) rels) in *.
  unfold ends_named in *. rewrite !filter_cons.
  rewrite Hsl, Htl, Hsn, Htn. simpl.
  repeat case_decide; simpl; lia.
Qed.

(** For a payload without a node named [__proto__] whose relationships all
    run between names of its nodes, [render] completes and the connection
    count it gives a node is the number of relationships [findConnections]
    lists for its name, a relationship from the name to itself counted
    twice. *)
Theorem findConnections_count g this nodes0 :
  svg this = true → gd_nodes g = Some nodes0 →
  "__proto__" ∉ payload_names empty_object g → closed_payload g →
  ∃ this',
    render (Some g) this = Some this' ∧
    ∀ n, n ∈ nodes this' →
         connections n
         = Some (Num (length (findConnections (Some g) (name n))
                      + length (loops_at g (name n)))).
Proof.
  intros Hsvg Hg Hproto Hc.
  destruct (RendererFacts.render_defined empty_object g this Hproto) as [this' Hr].
  exists this'. split; [done|]. intros n Hn.
  unfold render, Renderer.render in Hr. rewrite Hsvg in Hr. simpl in Hr.
  rewrite Hg in Hr. simpl in Hr.
  destruct (build nodes0 (gd_relationships g)) as [[ns ls]|] eqn:Hb; [|done].
  simpl in Hr. injection Hr as <-. simpl in Hn.
  apply list_elem_of_lookup_1 in Hn as [i Hi].
  rewrite (RendererFacts.build_connections _ _ _ _ _ _ _ Hb Hi).
  destruct (RendererFacts.build_Some _ _ _ _ _ Hb) as (_ & Hls & Hns).
  rewrite Hns, RendererFacts.ends_named_set_connections, Hls.
  rewrite ends_named_closed.
  - unfold findConnections, loops_at. simpl.
    destruct (gd_relationships g) as [rels|]; simpl; [|done].
    by rewrite filter_or_and_length.
  - intros rel Hrel. unfold closed_payload, View.closed_payload in Hc.
    unfold payload_names in Hc. rewrite Hg in Hc. simpl in Hc.
    rewrite map_map. by apply Hc.
Qed.

End Listed.

Lemma findConnections_count_witness :
  ∃ this',
    render () (Some strategies) ready = Some this' ∧
    Forall (λ n, connections n
                 = Some (Num (length (App.findConnections (Some strategies) (name n))
                              + length (App.loops_at strategies (name n)))))
           (nodes this').
Proof.
  destruct (findConnections_count () strategies ready
              [node "1" "Strategy1"; node "2" "Strategy2"; node "3" "Belief1"])
    as (this' & Hr & Hn).
  - reflexivity.
  - reflexivity.
  - apply (bool_decide_unpack _). vm_compute. exact I.
  - intros rel Hrel. vm_compute in Hrel.
    repeat (apply elem_of_cons in Hrel as [-> | Hrel];
            [split; apply (bool_decide_unpack _); vm_compute; exact I|]).
    by apply elem_of_nil in Hrel.
  - exists this'. split; [exact Hr|]. by apply Forall_forall.
Defined.

(** [render] leaves the search state as it was while every element it
    creates bears neither mark: after a render during an active search,
    [isSearchActive] still holds and nothing is highlighted or faded. *)
Theorem render_forgets_search {Json} (empty_object : Json)
    (g : @GraphData Json) (this this' : @GraphRenderer Json) nodes0 :
  svg this = true → gd_nodes g = Some nodes0 →
  render empty_object (Some g) this = Some this' →
  searchMatches this' = searchMatches this ∧
  isSearchActive this' = isSearchActive this ∧
  Forall neutral (default [] (nodeElements this')) ∧
  Forall neutral (default [] (nodeLabels this')) ∧
  Forall neutral (default [] (linkElements this')) ∧
  Forall neutral (default [] (linkLabels this')).
Proof.
  intros Hsvg Hg. unfold render. rewrite Hsvg. simpl. rewrite Hg. simpl.
  destruct (build empty_object nodes0 (gd_relationships g)) as [[ns ls]|]; [|done].
  simpl. intros [= <-]. simpl.
  assert (∀ D (c : string) (ds : list D),
            c ≠ "highlighted" → c ≠ "faded" → Forall neutral (enter c ds)) as Henter.
  { intros D c ds H1 H2. apply Forall_forall.
    intros e (d & -> & _)%list_elem_of_fmap. split; simpl; set_solver. }
  split_and!; try done; by apply Henter.
Qed.

Lemma render_forgets_search_witness :
  ∃ this' this'',
    highlightNodes lower ["Strategy1"] (rendered strategies) = Some this' ∧
    render () (Some strategies) this' = Some this'' ∧
    isSearchActive this'' = true ∧
    Forall neutral (default [] (nodeElements this'')).
Proof.
  assert (∃ this', highlightNodes lower ["Strategy1"] (rendered strategies) = Some this')
    as [this' H1] by (eexists; vm_compute; reflexivity).
  assert (∃ this'', render () (Some strategies) this' = Some this'')
    as [this'' H2].
  { vm_compute in H1. injection H1 as <-. eexists. vm_compute. reflexivity. }
  exists this', this''. split; [exact H1|]. split; [exact H2|].
  assert (svg this' = true ∧ isSearchActive this' = true) as [Hsvg Hact].
  { vm_compute in H1. injection H1 as <-. by split. }
  destruct (render_forgets_search () strategies this' this''
              [node "1" "Strategy1"; node "2" "Strategy2"; node "3" "Belief1"]
              Hsvg eq_refl H2) as (_ & Hactive & Hne & _).
  split; [by rewrite Hactive|exact Hne].
Defined.

(** After [destroy] the renderer ignores every payload, and [zoomToFit],
    [updateMinimap] and [focusNode] return without computing anything, until
    [init] is called again, which makes [render] build the payload as it
    does on a fresh renderer. *)
Theorem destroy_stops_render {Json} (empty_object : Json)
    (this : @GraphRenderer Json) g width height bounds positions name0 canvas :
  render empty_object g (destroy this) = Some (destroy this) ∧
  zoomToFit (destroy this) width height bounds = None ∧
  updateMinimap (destroy this) positions = None ∧
  focusNode (destroy this) positions width height name0 = None ∧
  getNodeTypes (destroy this) = ∅ ∧
  nodes <$> render empty_object g (init canvas (destroy this))
  = nodes <$> render empty_object g (init canvas literal) ∧
  links <$> render empty_object g (init canvas (destroy this))
  = links <$> render empty_object g (init canvas literal).
Proof.
  split_and!; try done.
  - unfold updateMinimap. simpl. by rewrite orb_true_r.
  - unfold render. simpl. destruct (g ≫= gd_nodes) as [nodes0|]; simpl; [|done].
    by destruct (build empty_object nodes0 (g ≫= gd_relationships)) as [[ns ls]|].
  - unfold render. simpl. destruct (g ≫= gd_nodes) as [nodes0|]; simpl; [|done].
    by destruct (build empty_object nodes0 (g ≫= gd_relationships)) as [[ns ls]|].
Qed.

End ViewFacts.

(* ===================================================================== *)
(** ** Facts about sync, the full graph and search                        *)
(* ===================================================================== *)

Module RoutesFacts.
Import Server Routes.

Lemma upsert_graph_ids (g : GraphRow) (gs : list GraphRow) (k : string) :
  k ∈ map g_id (upsert_graph g gs) ↔ k = g_id g ∨ k ∈ map g_id gs.
Proof.
  unfold upsert_graph. case_decide as Hin.
  - rewrite map_map.
    assert (map (λ x, g_id (if decide (g_id x = g_id g) then g else x)) gs
            = map g_id gs) as ->.
    { apply map_ext. intros x. by case_decide. }
    split; [by right|]. by intros [->|?].
  - rewrite map_app, elem_of_app. simpl. rewrite list_elem_of_singleton. tauto.
Qed.

Lemma upsert_graph_NoDup (g : GraphRow) (gs : list GraphRow) :
  NoDup (map g_id gs) → NoDup (map g_id (upsert_graph g gs)).
Proof.
  intros Hnd. unfold upsert_graph. case_decide as Hin.
  - rewrite map_map.
    assert (map (λ x, g_id (if decide (g_id x = g_id g) then g else x)) gs
            = map g_id gs) as ->; [|done].
    apply map_ext. intros x. by case_decide.
  - rewrite map_app. apply NoDup_app. split_and!; [done| |apply NoDup_singleton].
    intros x Hx Hg. simpl in Hg. apply list_elem_of_singleton in Hg. by subst.
Qed.

Lemma upsert_graph_elem (g x : GraphRow) (gs : list GraphRow) :
  x ∈ upsert_graph g gs → x = g ∨ (x ∈ gs ∧ g_id x ≠ g_id g).
Proof.
  unfold upsert_graph. case_decide as Hin.
  - intros (y & -> & Hy)%list_elem_of_fmap. case_decide; [by left|by right].
  - rewrite elem_of_app, list_elem_of_singleton. intros [Hx| ->]; [|by left].
    right. split; [done|]. intros Heq. apply Hin. rewrite <- Heq.
    apply list_elem_of_fmap. by exists x.
Qed.

Lemma upsert_graph_find (g : GraphRow) (gs : list GraphRow) (k : string) :
  k ≠ g_id g →
  List.find (λ x, bool_decide (g_id x = k)) (upsert_graph g gs)
  = List.find (λ x, bool_decide (g_id x = k)) gs.
Proof.
  intros Hk. unfold upsert_graph. case_decide as Hin.
  - clear Hin. induction gs as [|x gs IH]; [done|]. simpl.
    destruct (decide (g_id x = g_id g)) as [Hx|Hx].
    + rewrite !bool_decide_eq_false_2; [done|congruence|congruence].
    + destruct (bool_decide (g_id x = k)); [done|]. exact IH.
  - clear Hin. induction gs as [|x gs IH]; simpl.
    + by rewrite bool_decide_eq_false_2.
    + destruct (bool_decide (g_id x = k)); [done|]. exact IH.
Qed.

Lemma upsert_graph_find_new (g : GraphRow) (gs : list GraphRow) :
  List.find (λ x, bool_decide (g_id x = g_id g)) (upsert_graph g gs) = Some g.
Proof.
  unfold upsert_graph. case_decide as Hin.
  - induction gs as [|x gs IH]; [by apply elem_of_nil in Hin|]. simpl.
    destruct (decide (g_id x = g_id g)) as [Hx|Hx].
    + by rewrite bool_decide_eq_true_2.
    + rewrite bool_decide_eq_false_2 by done. apply IH.
      simpl in Hin. apply elem_of_cons in Hin as [?|?]; [congruence|done].
  - induction gs as [|x gs IH]; simpl.
    + by rewrite bool_decide_eq_true_2.
    + rewrite bool_decide_eq_false_2.
      * apply IH. intros H. apply Hin. simpl. by right.
      * intros Hx. apply Hin. simpl. rewrite <- Hx. left.
Qed.

Lemma upsert_graph_idem (g : GraphRow) (gs : list GraphRow) :
  upsert_graph g (upsert_graph g gs) = upsert_graph g gs.
Proof.
  unfold upsert_graph at 1. rewrite decide_True by (apply upsert_graph_ids; by left).
  unfold upsert_graph. case_decide as Hin.
  - rewrite map_map. apply map_ext. intros x.
    destruct (decide (g_id x = g_id g)); [by rewrite decide_True|by rewrite decide_False].
  - rewrite map_app. simpl. rewrite decide_True by done. f_equal.
    rewrite <- (map_id gs) at 2. apply map_ext_in. intros x Hx%list_elem_of_In.
    rewrite decide_False; [done|]. intros Heq. apply Hin. rewrite <- Heq.
    apply list_elem_of_fmap. by exists x.
Qed.

Section Facts.

Context {Json : Type}.
Variable JSON_parse : string → option Json.
Variable JSON_stringify : Json → string.
Variable empty_object : Json.
Variable SYNC_KEY : string.

Local Abbreviation node_obj := (node_obj JSON_parse empty_object).
Local Abbreviation rel_obj := (rel_obj JSON_parse empty_object).
Local Abbreviation parse_properties := (parse_properties JSON_parse empty_object).
Local Abbreviation props_text := (props_text JSON_stringify empty_object).
Local Abbreviation posted_node_row := (posted_node_row JSON_stringify empty_object).
Local Abbreviation posted_rel_row := (posted_rel_row JSON_stringify empty_object).
Local Abbreviation insert_nodes := (insert_nodes JSON_stringify empty_object).
Local Abbreviation insert_rels := (insert_rels JSON_stringify empty_object).
Local Abbreviation node_rows := (node_rows JSON_stringify empty_object).
Local Abbreviation rel_rows := (rel_rows JSON_stringify empty_object).
Local Abbreviation node_draws := (node_draws JSON_stringify empty_object).
Local Abbreviation syncTransaction := (syncTransaction JSON_stringify empty_object).
Local Abbreviation sync := (sync JSON_stringify empty_object SYNC_KEY).
Local Abbreviation getGraph := (getGraph JSON_parse empty_object).
Local Abbreviation read_back := (read_back JSON_parse JSON_stringify empty_object).
Local Abbreviation json_round_trip := (json_round_trip JSON_parse JSON_stringify).

Implicit Types (st : Store) (nodeList : list (@PostedNode Json))
  (relList : list (@PostedRel Json)) (random : nat → string).

(** *** The two insertion loops *)

Lemma node_rows_graph id now random k nodeList x :
  x ∈ node_rows id now random k nodeList → node_graph_id x = id.
Proof.
  revert k. induction nodeList as [|node rest IH]; intros k; simpl.
  - by intros ?%elem_of_nil.
  - intros [->|H]%elem_of_cons; [|by eapply IH].
    unfold posted_node_row, Routes.posted_node_row.
    by repeat case_match.
Qed.

Lemma rel_rows_graph id now random k relList x :
  x ∈ rel_rows id now random k relList → rel_graph_id x = id.
Proof.
  revert k. induction relList as [|rel rest IH]; intros k; simpl.
  - by intros ?%elem_of_nil.
  - intros [->|H]%elem_of_cons; [|by eapply IH].
    unfold posted_rel_row, Routes.posted_rel_row.
    by repeat case_match.
Qed.

Lemma node_rows_length id now random k nodeList :
  length (node_rows id now random k nodeList) = length nodeList.
Proof.
  revert k. induction nodeList as [|node rest IH]; intros k; simpl; [done|].
  by rewrite IH.
Qed.

Lemma rel_rows_length id now random k relList :
  length (rel_rows id now random k relList) = length relList.
Proof.
  revert k. induction relList as [|rel rest IH]; intros k; simpl; [done|].
  by rewrite IH.
Qed.

Lemma insert_nodes_Some id now random k nodeList rows rows' k' :
  insert_nodes id now random k nodeList rows = Some (rows', k') ↔
  rows' = rows ++ node_rows id now random k nodeList ∧
  k' = node_draws id now random k nodeList ∧
  NoDup (map node_key (node_rows id now random k nodeList)) ∧
  (∀ x, x ∈ map node_key (node_rows id now random k nodeList) →
        x ∉ map node_key rows).
Proof.
  revert k rows rows' k'.
  induction nodeList as [|node rest IH]; intros k rows rows' k'; simpl.
  - rewrite app_nil_r. split.
    + intros [= <- <-]. split_and!; [done|done|constructor|].
      by intros x ?%elem_of_nil.
    + by intros (-> & -> & _).
  - destruct (posted_node_row id now random k node) as [row k1] eqn:Hrow.
    simpl. unfold insert_node. case_decide as Hin; simpl.
    + split; [done|]. intros (_ & _ & _ & Hfresh).
      exfalso. apply (Hfresh (node_key row)); [left|done].
    + rewrite IH. rewrite <- app_assoc. simpl. rewrite NoDup_cons.
      rewrite map_app. simpl. split.
      * intros (-> & -> & Hnd & Hfresh). split_and!; try done.
        -- intros Hrow'. apply (Hfresh _ Hrow'). apply elem_of_app. right. left.
        -- intros x [->|Hx]%elem_of_cons; [done|].
           intros Hx'. apply (Hfresh x Hx). apply elem_of_app. by left.
      * intros (-> & -> & [Hrow' Hnd] & Hfresh). split_and!; try done.
        intros x Hx [Hx'|Hx']%elem_of_app.
        -- apply (Hfresh x); [by right|done].
        -- apply list_elem_of_singleton in Hx'. by subst.
Qed.

Lemma insert_rels_Some id now random k relList rows rows' k' :
  insert_rels id now random k relList rows = Some (rows', k') ↔
  rows' = rows ++ rel_rows id now random k relList ∧
  k' = rel_draws JSON_stringify empty_object id now random k relList ∧
  NoDup (map rel_pkey (rel_rows id now random k relList)) ∧
  (∀ x, x ∈ map rel_pkey (rel_rows id now random k relList) →
        x ∉ map rel_pkey rows).
Proof.
  revert k rows rows' k'.
  induction relList as [|rel rest IH]; intros k rows rows' k'; simpl.
  - rewrite app_nil_r. split.
    + intros [= <- <-]. split_and!; [done|done|constructor|].
      by intros x ?%elem_of_nil.
    + by intros (-> & -> & _).
  - destruct (posted_rel_row id now random k rel) as [row k1] eqn:Hrow.
    simpl. unfold insert_rel. case_decide as Hin; simpl.
    + split; [done|]. intros (_ & _ & _ & Hfresh).
      exfalso. apply (Hfresh (rel_pkey row)); [left|done].
    + rewrite IH. rewrite <- app_assoc. simpl. rewrite NoDup_cons.
      rewrite map_app. simpl. split.
      * intros (-> & -> & Hnd & Hfresh). split_and!; try done.
        -- intros Hrow'. apply (Hfresh _ Hrow'). apply elem_of_app. right. left.
        -- intros x [->|Hx]%elem_of_cons; [done|].
           intros Hx'. apply (Hfresh x Hx). apply elem_of_app. by left.
      * intros (-> & -> & [Hrow' Hnd] & Hfresh). split_and!; try done.
        intros x Hx [Hx'|Hx']%elem_of_app.
        -- apply (Hfresh x); [by right|done].
        -- apply list_elem_of_singleton in Hx'. by subst.
Qed.

Lemma node_rows_keys id now random k nodeList :
  map node_key (node_rows id now random k nodeList)
  = map (pair id) (map node_id (node_rows id now random k nodeList)).
Proof.
  rewrite map_map. apply map_ext_in. intros x Hx%list_elem_of_In.
  unfold node_key. by rewrite (node_rows_graph _ _ _ _ _ _ Hx).
Qed.

Lemma rel_rows_keys id now random k relList :
  map rel_pkey (rel_rows id now random k relList)
  = map (pair id) (map rel_id (rel_rows id now random k relList)).
Proof.
  rewrite map_map. apply map_ext_in. intros x Hx%list_elem_of_In.
  unfold rel_pkey. by rewrite (rel_rows_graph _ _ _ _ _ _ Hx).
Qed.

Lemma NoDup_pair (a : string) (l : list string) :
  NoDup (map (pair a) l) ↔ NoDup l.
Proof. apply (NoDup_fmap (pair a)); apply _. Qed.

(** The store a committed transaction leaves. *)
Lemma syncTransaction_Some id now random nodeList relList st st' :
  syncTransaction id now random nodeList relList st = Some st' ↔
  NoDup (map node_id (node_rows id now random 0 nodeList)) ∧
  NoDup (map rel_id (rel_rows id now random (node_draws id now random 0 nodeList)
                              relList)) ∧
  st' = mkStore
          (upsert_graph (mkGraphRow id id (length nodeList) (length relList) now)
                        (graphs st))
          (mkDb (filter (λ n, node_graph_id n ≠ id) (nodes (tables st))
                   ++ node_rows id now random 0 nodeList)
                (filter (λ r, rel_graph_id r ≠ id) (relationships (tables st))
                   ++ rel_rows id now random (node_draws id now random 0 nodeList)
                               relList)).
Proof.
  assert (∀ x, x ∈ map node_key (node_rows id now random 0 nodeList) →
               x ∉ map node_key (filter (λ n, node_graph_id n ≠ id)
                                        (nodes (tables st)))) as Hfn.
  { intros x (n & -> & Hn)%list_elem_of_fmap (m & Hk & Hm)%list_elem_of_fmap.
    apply list_elem_of_filter in Hm as [Hne _]. apply Hne.
    injection Hk as <- _. by eapply node_rows_graph. }
  assert (∀ k x, x ∈ map rel_pkey (rel_rows id now random k relList) →
                 x ∉ map rel_pkey (filter (λ r, rel_graph_id r ≠ id)
                                          (relationships (tables st)))) as Hfr.
  { intros k x (n & -> & Hn)%list_elem_of_fmap (m & Hk & Hm)%list_elem_of_fmap.
    apply list_elem_of_filter in Hm as [Hne _]. apply Hne.
    injection Hk as <- _. by eapply rel_rows_graph. }
  unfold syncTransaction, Routes.syncTransaction.
  destruct (insert_nodes id now random 0 nodeList _) as [[nodes1 k]|] eqn:Hn; simpl.
  - apply insert_nodes_Some in Hn as (-> & -> & Hnd & _).
    rewrite node_rows_keys, NoDup_pair in Hnd.
    destruct (insert_rels id now random _ relList _) as [[rels1 k2]|] eqn:Hr; simpl.
    + apply insert_rels_Some in Hr as (-> & _ & Hnd2 & _).
      rewrite rel_rows_keys, NoDup_pair in Hnd2.
      split; [by intros [= <-]|by intros (_ & _ & ->)].
    + split; [done|]. intros (_ & Hnd2 & _). exfalso.
      assert (is_Some (insert_rels id now random (node_draws id now random 0 nodeList)
                                   relList
                                   (filter (λ r, rel_graph_id r ≠ id)
                                           (relationships (tables st))))) as [? Hs];
        [|rewrite Hr in Hs; done].
      eexists (_, _). apply insert_rels_Some. split_and!; [done|done| |apply Hfr].
      by rewrite rel_rows_keys, NoDup_pair.
  - split; [done|]. intros (Hnd & _). exfalso.
    assert (is_Some (insert_nodes id now random 0 nodeList
                                  (filter (λ n, node_graph_id n ≠ id)
                                          (nodes (tables st))))) as [? Hs];
      [|rewrite Hn in Hs; done].
    eexists (_, _). apply insert_nodes_Some. split_and!; [done|done| |apply Hfn].
    by rewrite node_rows_keys, NoDup_pair.
Qed.

Lemma sync_Synced key body now random st g n r t st' :
  sync key body now random st = (Synced g n r t, st') ↔
  key = Some SYNC_KEY ∧ truthy (b_id body) = Some g ∧
  n = length (default [] (b_nodes body)) ∧
  r = length (default [] (b_relationships body)) ∧ t = now ∧
  syncTransaction g now random (default [] (b_nodes body))
                  (default [] (b_relationships body)) st = Some st'.
Proof.
  unfold sync, Routes.sync. case_decide as Hk; [|split; [done|by intros (? & _)]].
  destruct (truthy (b_id body)) as [id|]; [|split; [done|by intros (_ & ? & _)]].
  destruct (syncTransaction id now random _ _ st) as [st1|] eqn:Ht.
  - split.
    + intros [= <- <- <- <- <-]. by rewrite Ht.
    + intros (_ & [= <-] & -> & -> & -> & Ht'). rewrite Ht in Ht'. by injection Ht' as ->.
  - split; [done|]. intros (_ & [= <-] & _ & _ & _ & Ht'). by rewrite Ht in Ht'.
Qed.

Lemma sync_unchanged key body now random st :
  (∀ g n r t, (sync key body now random st).1 ≠ Synced g n r t) →
  (sync key body now random st).2 = st.
Proof.
  unfold sync, Routes.sync. case_decide as Hk; [|done].
  destruct (truthy (b_id body)) as [id|]; [|done].
  destruct (syncTransaction id now random _ _ st) as [st1|] eqn:Ht; [|done].
  simpl. intros H. by destruct (H _ _ _ _ eq_refl).
Qed.

(** [sync] commits exactly when the key is right, the graph id is truthy,
    and neither the ids given to the posted nodes nor those given to the
    posted relationships repeat; every other request, whatever its answer,
    leaves the database as it was. *)
Theorem sync_commits_iff_ids_distinct key body now random st :
  ((∃ g n r t, (sync key body now random st).1 = Synced g n r t) ↔
   key = Some SYNC_KEY ∧
   ∃ id, truthy (b_id body) = Some id ∧
         NoDup (map node_id (node_rows id now random 0 (default [] (b_nodes body)))) ∧
         NoDup (map rel_id
                    (rel_rows id now random
                              (node_draws id now random 0 (default [] (b_nodes body)))
                              (default [] (b_relationships body))))) ∧
  ((∀ g n r t, (sync key body now random st).1 ≠ Synced g n r t) →
   (sync key body now random st).2 = st).
Proof.
  split; [|apply sync_unchanged]. split.
  - intros (g & n & r & t & H).
    destruct (sync key body now random st) as [resp st'] eqn:Hs. simpl in H. subst.
    apply sync_Synced in Hs as (Hk & Hid & _ & _ & _ & Ht).
    apply syncTransaction_Some in Ht as (Hn & Hr & _).
    split; [done|]. by exists g.
  - intros (Hk & id & Hid & Hn & Hr).
    exists id, (length (default [] (b_nodes body))),
           (length (default [] (b_relationships body))), now.
    destruct (sync key body now random st) as [resp st'] eqn:Hs. simpl.
    unfold sync, Routes.sync in Hs. rewrite decide_True, Hid in Hs by done.
    destruct (syncTransaction id now random _ _ st) as [st1|] eqn:Ht;
      [by injection Hs as <- _|].
    exfalso.
    assert (is_Some (syncTransaction id now random (default [] (b_nodes body))
                                     (default [] (b_relationships body)) st))
      as [? Hsome]; [|rewrite Ht in Hsome; done].
    eexists. by apply syncTransaction_Some.
Qed.

(** *** Rows of one graph after a commit *)

Lemma filter_keep_all {A} (P : A → Prop) `{∀ x, Decision (P x)} (l : list A) :
  (∀ x, x ∈ l → P x) → filter P l = l.
Proof.
  induction l as [|x l IH]; intros Hl; [done|].
  rewrite filter_cons, decide_True by (apply Hl; left).
  f_equal. apply IH. intros y Hy. apply Hl. by right.
Qed.

Lemma filter_drop_all {A} (P : A → Prop) `{∀ x, Decision (P x)} (l : list A) :
  (∀ x, x ∈ l → ¬ P x) → filter P l = [].
Proof.
  induction l as [|x l IH]; intros Hl; [done|].
  rewrite filter_cons, decide_False by (apply Hl; left).
  apply IH. intros y Hy. apply Hl. by right.
Qed.

Lemma replaced_rows {A} (gid : A → string) (g g' : string) (rows new : list A) :
  (∀ x, x ∈ new → gid x = g) →
  filter (λ x, gid x = g') (filter (λ x, gid x ≠ g) rows ++ new)
  = if decide (g' = g) then new else filter (λ x, gid x = g') rows.
Proof.
  intros Hnew. rewrite filter_app. case_decide as Hg.
  - subst g'. rewrite list_filter_filter, filter_drop_all by naive_solver.
    simpl. by apply filter_keep_all.
  - rewrite list_filter_filter_l by congruence.
    rewrite (filter_drop_all _ new); [by rewrite app_nil_r|].
    intros x Hx Hgx. apply Hg. rewrite <- Hgx. by apply Hnew.
Qed.

Lemma kept_rows {A} (gid : A → string) (g : string) (rows new : list A) :
  (∀ x, x ∈ new → gid x = g) →
  filter (λ x, gid x ≠ g) (filter (λ x, gid x ≠ g) rows ++ new)
  = filter (λ x, gid x ≠ g) rows.
Proof.
  intros Hnew. rewrite filter_app, list_filter_filter_l by done.
  rewrite (filter_drop_all _ new); [by rewrite app_nil_r|].
  intros x Hx Hgx. by apply Hgx, Hnew.
Qed.

(** The store after a commit, table by table. *)
Lemma sync_store key body now random st g n r t st' :
  sync key body now random st = (Synced g n r t, st') →
  let nodeList := default [] (b_nodes body) in
  let relList := default [] (b_relationships body) in
  let new_nodes := node_rows g now random 0 nodeList in
  let new_rels := rel_rows g now random (node_draws g now random 0 nodeList) relList in
  n = length nodeList ∧ r = length relList ∧ t = now ∧
  NoDup (map node_id new_nodes) ∧ NoDup (map rel_id new_rels) ∧
  graphs st' = upsert_graph (mkGraphRow g g n r t) (graphs st) ∧
  nodes (tables st')
  = filter (λ x, node_graph_id x ≠ g) (nodes (tables st)) ++ new_nodes ∧
  relationships (tables st')
  = filter (λ x, rel_graph_id x ≠ g) (relationships (tables st)) ++ new_rels.
Proof.
  intros (_ & _ & -> & -> & -> & Ht)%sync_Synced.
  apply syncTransaction_Some in Ht as (Hn & Hr & ->). simpl. by split_and!.
Qed.

Lemma sync_graph_rows key body now random st g n r t st' :
  sync key body now random st = (Synced g n r t, st') →
  (∀ g', graph_nodes st' g'
         = if decide (g' = g)
           then node_rows g now random 0 (default [] (b_nodes body))
           else graph_nodes st g') ∧
  (∀ g', graph_rels st' g'
         = if decide (g' = g)
           then rel_rows g now random
                         (node_draws g now random 0 (default [] (b_nodes body)))
                         (default [] (b_relationships body))
           else graph_rels st g') ∧
  get_graph st' g = Some (mkGraphRow g g n r t) ∧
  (∀ g', g' ≠ g → get_graph st' g' = get_graph st g').
Proof.
  intros Hs. destruct (sync_store _ _ _ _ _ _ _ _ _ _ Hs)
    as (_ & _ & _ & _ & _ & Hg & Hn & Hr).
  unfold graph_nodes, graph_rels, get_graph. rewrite Hg, Hn, Hr. split_and!.
  - intros g'. apply replaced_rows. intros x. apply node_rows_graph.
  - intros g'. apply replaced_rows. intros x. apply rel_rows_graph.
  - apply (upsert_graph_find_new (mkGraphRow g g n r t)).
  - intros g' Hg'. by apply upsert_graph_find.
Qed.

(** A committed [sync] replaces the rows of its graph by the rows made of
    the body, in the order posted, and sets the row of the graph in
    [graphs]; the rows of every other graph, its row in [graphs] and the
    answer of [GET /api/graph/:id] for it stay as they were. *)
Theorem sync_replaces_graph key body now random st g n r t st' :
  sync key body now random st = (Synced g n r t, st') →
  graph_nodes st' g = node_rows g now random 0 (default [] (b_nodes body)) ∧
  graph_rels st' g
  = rel_rows g now random (node_draws g now random 0 (default [] (b_nodes body)))
             (default [] (b_relationships body)) ∧
  get_graph st' g = Some (mkGraphRow g g n r t) ∧
  ∀ g', g' ≠ g →
        graph_nodes st' g' = graph_nodes st g' ∧
        graph_rels st' g' = graph_rels st g' ∧
        get_graph st' g' = get_graph st g' ∧
        getGraph st' g' = getGraph st g'.
Proof.
  intros Hs. destruct (sync_graph_rows _ _ _ _ _ _ _ _ _ _ Hs) as (Hn & Hr & Hg & Hg').
  split_and!.
  - by rewrite Hn, decide_True.
  - by rewrite Hr, decide_True.
  - done.
  - intros g' Hne. unfold getGraph, Routes.getGraph.
    rewrite Hn, Hr, Hg', !decide_False by done. done.
Qed.

(** Posting the same body again, at the same time and with the same random
    draws, leaves the database a committed [sync] produced as it is. *)
Theorem sync_idempotent key body now random st g n r t st' :
  sync key body now random st = (Synced g n r t, st') →
  sync key body now random st' = (Synced g n r t, st').
Proof.
  intros Hs. pose proof (sync_store _ _ _ _ _ _ _ _ _ _ Hs)
    as (Hn & Hr & Ht & Hnd1 & Hnd2 & Hg & Hnodes & Hrels). simpl in *.
  apply sync_Synced in Hs as (Hk & Hid & _ & _ & _ & _).
  apply sync_Synced. split_and!; try done.
  apply syncTransaction_Some. split_and!; try done.
  destruct st' as [gs' [ns' rs']]. simpl in *. subst gs' ns' rs'.
  rewrite (kept_rows node_graph_id), (kept_rows rel_graph_id);
    [|intros x; apply rel_rows_graph|intros x; apply node_rows_graph].
  subst n r t. by rewrite upsert_graph_idem.
Qed.

(** *** The invariant of the database *)

Lemma keys_of_graph_rows {A} (gid ident : A → string) (g : string) (rows new : list A) :
  (∀ x, x ∈ new → gid x = g) →
  NoDup (map (λ x, (gid x, ident x)) rows) →
  NoDup (map ident new) →
  NoDup (map (λ x, (gid x, ident x)) (filter (λ x, gid x ≠ g) rows ++ new)).
Proof.
  intros Hnew Hrows Hids. rewrite map_app. apply NoDup_app. split_and!.
  - eapply sublist_NoDup; [exact Hrows|].
    apply (fmap_sublist (λ x, (gid x, ident x))), sublist_filter.
  - intros k (x & -> & Hx)%list_elem_of_fmap (y & Hk & Hy)%list_elem_of_fmap.
    apply list_elem_of_filter in Hx as [Hne _]. apply Hne.
    injection Hk as -> _. by apply Hnew.
  - assert (map (λ x, (gid x, ident x)) new = map (pair g) (map ident new)) as ->.
    { rewrite map_map. apply map_ext_in. intros x Hx%list_elem_of_In.
      by rewrite (Hnew x Hx). }
    by apply NoDup_pair.
Qed.

Lemma empty_store_consistent : consistent empty_store.
Proof.
  unfold consistent, keys_unique, registered, counts_cached. simpl.
  split_and!; try apply NoDup_nil_2; by intros ? ?%elem_of_nil.
Qed.

(** The empty database is consistent and [sync] keeps a consistent database
    consistent, whatever it answers: primary keys stay unique, every row
    belongs to a graph listed in [graphs], and the counts cached there are
    the numbers of rows in the two tables. *)
Theorem sync_keeps_consistent key body now random st :
  consistent empty_store ∧
  (consistent st → consistent (sync key body now random st).2).
Proof.
  split; [apply empty_store_consistent|].
  intros (Hkeys & Hreg & Hcounts).
  destruct (sync key body now random st) as [resp st'] eqn:Hs.
  assert (st' = (sync key body now random st).2) as Hst' by by rewrite Hs.
  destruct resp as [| | |g n r t];
    try (simpl; rewrite Hst', sync_unchanged; [done|]; rewrite Hs; done).
  simpl. clear Hst'.
  pose proof (sync_store _ _ _ _ _ _ _ _ _ _ Hs)
    as (Hn & Hr & Ht & Hnd1 & Hnd2 & Hg & Hnodes & Hrels). simpl in *.
  destruct (sync_graph_rows _ _ _ _ _ _ _ _ _ _ Hs) as (Hgn & Hgr & _ & _).
  destruct Hkeys as (Hk1 & Hk2 & Hk3). destruct Hreg as [Hreg1 Hreg2].
  unfold consistent, keys_unique, registered, counts_cached. split_and!.
  - rewrite Hg. by apply upsert_graph_NoDup.
  - rewrite Hnodes. apply (keys_of_graph_rows node_graph_id node_id); try done.
    intros x. apply node_rows_graph.
  - rewrite Hrels. apply (keys_of_graph_rows rel_graph_id rel_id); try done.
    intros x. apply rel_rows_graph.
  - intros x. rewrite Hnodes, Hg, elem_of_app, upsert_graph_ids. simpl.
    intros [Hx|Hx].
    + apply list_elem_of_filter in Hx as [_ Hx]. right. by apply Hreg1.
    + left. by eapply node_rows_graph.
  - intros x. rewrite Hrels, Hg, elem_of_app, upsert_graph_ids. simpl.
    intros [Hx|Hx].
    + apply list_elem_of_filter in Hx as [_ Hx]. right. by apply Hreg2.
    + left. by eapply rel_rows_graph.
  - intros x. rewrite Hg. intros [->|[Hx Hne]]%upsert_graph_elem.
    + simpl. rewrite Hgn, Hgr, !decide_True by done.
      by rewrite node_rows_length, rel_rows_length.
    + simpl in Hne. rewrite Hgn, Hgr, !decide_False by done. by apply Hcounts.
Qed.

(** In a consistent database the totals of [GET /api/stats] are the sums of
    the counts cached per graph, which [GET /api/graphs] lists. *)
Theorem stats_totals st :
  consistent st →
  total_nodes (stats st) = sum_list (map g_node_count (graphs st)) ∧
  total_relationships (stats st) = sum_list (map g_rel_count (graphs st)).
Proof.
  intros ((Hk & _ & _) & [Hreg1 Hreg2] & Hcounts). unfold stats. simpl. split.
  - rewrite <- (ViewFacts.sum_count_keys node_graph_id (map g_id (graphs st))
                  (nodes (tables st)) Hk Hreg1).
    rewrite map_map. apply ViewFacts.sum_list_ext.
    intros g Hg. symmetry. by apply Hcounts.
  - rewrite <- (ViewFacts.sum_count_keys rel_graph_id (map g_id (graphs st))
                  (relationships (tables st)) Hk Hreg2).
    rewrite map_map. apply ViewFacts.sum_list_ext.
    intros g Hg. symmetry. by apply Hcounts.
Qed.

(** *** Reading back what was posted *)

Lemma posted_node_row_fields id now random k node :
  node_name (posted_node_row id now random k node).1 = or_else (p_name node) "" ∧
  node_type (posted_node_row id now random k node).1 = or_else (p_type node) "Unknown" ∧
  node_properties (posted_node_row id now random k node).1
  = Some (props_text (p_properties node)).
Proof.
  unfold posted_node_row, Routes.posted_node_row. by repeat case_match.
Qed.

Lemma posted_rel_row_fields id now random k rel :
  rel_source (posted_rel_row id now random k rel).1 = or_else (q_source rel) "" ∧
  rel_target (posted_rel_row id now random k rel).1 = or_else (q_target rel) "" ∧
  rel_type (posted_rel_row id now random k rel).1 = or_else (q_type rel) "RELATES_TO" ∧
  rel_properties (posted_rel_row id now random k rel).1
  = Some (props_text (q_properties rel)).
Proof.
  unfold posted_rel_row, Routes.posted_rel_row. by repeat case_match.
Qed.

Lemma node_rows_fields id now random k nodeList :
  Forall2 (λ node row,
             node_name row = or_else (p_name node) "" ∧
             node_type row = or_else (p_type node) "Unknown" ∧
             node_properties row = Some (props_text (p_properties node)))
          nodeList (node_rows id now random k nodeList).
Proof.
  revert k. induction nodeList as [|node rest IH]; intros k; simpl; constructor.
  - apply posted_node_row_fields.
  - apply IH.
Qed.

Lemma rel_rows_fields id now random k relList :
  Forall2 (λ rel row,
             rel_source row = or_else (q_source rel) "" ∧
             rel_target row = or_else (q_target rel) "" ∧
             rel_type row = or_else (q_type rel) "RELATES_TO" ∧
             rel_properties row = Some (props_text (q_properties rel)))
          relList (rel_rows id now random k relList).
Proof.
  revert k. induction relList as [|rel rest IH]; intros k; simpl; constructor.
  - apply posted_rel_row_fields.
  - apply IH.
Qed.

Lemma read_back_posted (p : @Posted Json) :
  json_round_trip →
  read_back p
  = match p with
    | PostedText s => parse_properties (Some s)
    | PostedValue j => Some j
    | PostedFalsy => Some empty_object
    end.
Proof.
  intros Hrt. unfold read_back, Routes.read_back, parse_properties, Server.parse_properties.
  destruct p as [s|j|]; simpl; [done| |].
  - destruct (Hrt j) as [Hne Hp]. by rewrite decide_False.
  - destruct (Hrt empty_object) as [Hne Hp]. by rewrite decide_False.
Qed.

Lemma mapM_Forall2 {A B C} (f : B → option C) (R : A → B → Prop)
    (S : A → C → Prop) (l : list A) (k : list B) :
  Forall2 R l k →
  (∀ a b, a ∈ l → R a b → ∃ c, f b = Some c ∧ S a c) →
  ∃ m, mapM f k = Some m ∧ Forall2 S l m.
Proof.
  induction 1 as [|a b l k Hab Hlk IH]; intros Hf.
  - exists []. by split.
  - destruct (Hf a b) as (c & Hc & Hs); [left|done|].
    destruct IH as (m & Hm & HS).
    { intros a' b' Ha'. apply Hf. by right. }
    exists (c :: m). split; [|by constructor].
    simpl. by rewrite Hc, Hm.
Qed.

(** After a committed [sync], [GET /api/graph/:id] answers with the posted
    nodes and relationships in the order posted, names and types with their
    defaults; properties that were posted as a value come back as that
    value, missing ones as the empty object, provided [JSON.parse] undoes
    [JSON.stringify] and every properties string posted is JSON or empty. *)
Theorem sync_then_getGraph key body now random st g n r t st' :
  json_round_trip →
  sync key body now random st = (Synced g n r t, st') →
  (∀ node s, node ∈ default [] (b_nodes body) →
             p_properties node = PostedText s → s = "" ∨ is_Some (JSON_parse s)) →
  (∀ rel s, rel ∈ default [] (b_relationships body) →
            q_properties rel = PostedText s → s = "" ∨ is_Some (JSON_parse s)) →
  ∃ ns rs,
    getGraph st' g = Graph g g ns rs ∧
    Forall2 (λ node o,
               node_name (node_row o) = or_else (p_name node) "" ∧
               node_type (node_row o) = or_else (p_type node) "Unknown" ∧
               match p_properties node with
               | PostedText s => parse_properties (Some s) = Some (node_props o)
               | PostedValue j => node_props o = j
               | PostedFalsy => node_props o = empty_object
               end)
            (default [] (b_nodes body)) ns ∧
    Forall2 (λ rel o,
               rel_source (rel_row o) = or_else (q_source rel) "" ∧
               rel_target (rel_row o) = or_else (q_target rel) "" ∧
               rel_type (rel_row o) = or_else (q_type rel) "RELATES_TO" ∧
               match q_properties rel with
               | PostedText s => parse_properties (Some s) = Some (rel_props o)
               | PostedValue j => rel_props o = j
               | PostedFalsy => rel_props o = empty_object
               end)
            (default [] (b_relationships body)) rs.
Proof.
  intros Hrt Hs Hnodes Hrels.
  destruct (sync_graph_rows _ _ _ _ _ _ _ _ _ _ Hs) as (Hgn & Hgr & Hg & _).
  assert (∀ s, s = "" ∨ is_Some (JSON_parse s) →
               is_Some (parse_properties (Some s))) as Htext.
  { intros s [->|Hp]; unfold parse_properties, Server.parse_properties.
    - by rewrite decide_True.
    - case_decide; [done|exact Hp]. }
  destruct (mapM_Forall2 node_obj _
              (λ node o,
                 node_name (node_row o) = or_else (p_name node) "" ∧
                 node_type (node_row o) = or_else (p_type node) "Unknown" ∧
                 match p_properties node with
                 | PostedText s => parse_properties (Some s) = Some (node_props o)
                 | PostedValue j => node_props o = j
                 | PostedFalsy => node_props o = empty_object
                 end)
              _ _ (node_rows_fields g now random 0 (default [] (b_nodes body))))
    as (ns & Hns & Hfn).
  { intros node row Hin (Hname & Htype & Hprops).
    unfold node_obj, Server.node_obj. rewrite Hprops.
    pose proof (read_back_posted (p_properties node) Hrt) as Hrb.
    unfold read_back, Routes.read_back in Hrb. rewrite Hrb.
    destruct (p_properties node) as [s|j|] eqn:Hp; simpl.
    - destruct (Htext s (Hnodes node s Hin Hp)) as [v Hv].
      unfold parse_properties, Server.parse_properties in Hv. rewrite Hv. simpl.
      eexists. split; [done|]. simpl. by split_and!.
    - eexists. split; [done|]. simpl. by split_and!.
    - eexists. split; [done|]. simpl. by split_and!. }
  destruct (mapM_Forall2 rel_obj _
              (λ rel o,
                 rel_source (rel_row o) = or_else (q_source rel) "" ∧
                 rel_target (rel_row o) = or_else (q_target rel) "" ∧
                 rel_type (rel_row o) = or_else (q_type rel) "RELATES_TO" ∧
                 match q_properties rel with
                 | PostedText s => parse_properties (Some s) = Some (rel_props o)
                 | PostedValue j => rel_props o = j
                 | PostedFalsy => rel_props o = empty_object
                 end)
              _ _ (rel_rows_fields g now random
                     (node_draws g now random 0 (default [] (b_nodes body)))
                     (default [] (b_relationships body))))
    as (rs & Hrs & Hfr).
  { intros rel row Hin (Hsrc & Htgt & Htype & Hprops).
    unfold rel_obj, Server.rel_obj. rewrite Hprops.
    pose proof (read_back_posted (q_properties rel) Hrt) as Hrb.
    unfold read_back, Routes.read_back in Hrb. rewrite Hrb.
    destruct (q_properties rel) as [s|j|] eqn:Hp; simpl.
    - destruct (Htext s (Hrels rel s Hin Hp)) as [v Hv].
      unfold parse_properties, Server.parse_properties in Hv. rewrite Hv. simpl.
      eexists. split; [done|]. simpl. by split_and!.
    - eexists. split; [done|]. simpl. by split_and!.
    - eexists. split; [done|]. simpl. by split_and!. }
  exists ns, rs. split; [|done].
  unfold getGraph, Routes.getGraph.
  by rewrite Hg, Hgn, Hgr, !decide_True, Hns, Hrs by done.
Qed.

(** [sync] stores a properties string as it is: when one that is neither
    empty nor JSON was posted and committed, [GET /api/graph/:id] answers
    500 for that graph. *)
Theorem sync_stores_unreadable_text key body now random st g n r t st' :
  sync key body now random st = (Synced g n r t, st') →
  (∃ node s, node ∈ default [] (b_nodes body) ∧
             p_properties node = PostedText s ∧ s ≠ "" ∧ JSON_parse s = None) ∨
  (∃ rel s, rel ∈ default [] (b_relationships body) ∧
            q_properties rel = PostedText s ∧ s ≠ "" ∧ JSON_parse s = None) →
  getGraph st' g = GraphError.
Proof.
  intros Hs Hbad.
  destruct (sync_graph_rows _ _ _ _ _ _ _ _ _ _ Hs) as (Hgn & Hgr & Hg & _).
  unfold getGraph, Routes.getGraph. rewrite Hg, Hgn, Hgr, !decide_True by done.
  destruct Hbad as [(node & s & Hin & Hp & Hne & Hparse)
                   |(rel & s & Hin & Hp & Hne & Hparse)].
  - rewrite (mapM_None_2 node_obj); [done|].
    apply list_elem_of_lookup_1 in Hin as [i Hi].
    destruct (Forall2_lookup_l _ _ _ _ _
                (node_rows_fields g now random 0 (default [] (b_nodes body))) Hi)
      as (row & Hrow & _ & _ & Hprops).
    apply Exists_exists. exists row. split; [by eapply list_elem_of_lookup_2|].
    unfold node_obj, Server.node_obj, Server.parse_properties.
    rewrite Hprops, Hp. simpl. by rewrite decide_False, Hparse.
  - destruct (mapM node_obj _); [|done].
    rewrite (mapM_None_2 rel_obj); [done|].
    apply list_elem_of_lookup_1 in Hin as [i Hi].
    destruct (Forall2_lookup_l _ _ _ _ _
                (rel_rows_fields g now random
                   (node_draws g now random 0 (default [] (b_nodes body)))
                   (default [] (b_relationships body))) Hi)
      as (row & Hrow & _ & _ & _ & Hprops).
    apply Exists_exists. exists row. split; [by eapply list_elem_of_lookup_2|].
    unfold rel_obj, Server.rel_obj, Server.parse_properties.
    rewrite Hprops, Hp. simpl. by rewrite decide_False, Hparse.
Qed.

End Facts.

(** *** The expansion and the search against the full graph *)

Lemma sublist_filter_weaken {A} (P Q : A → Prop)
    `{∀ x, Decision (P x)} `{∀ x, Decision (Q x)} (l : list A) :
  (∀ x, P x → Q x) → filter P l `sublist_of` filter Q l.
Proof.
  intros HPQ. induction l as [|x l IH]; [done|].
  rewrite !filter_cons. destruct (decide (P x)) as [HP|HP].
  - rewrite decide_True by auto. by apply sublist_skip.
  - case_decide; [by apply sublist_cons|done].
Qed.

Lemma mapM_sublist {A B} (f : A → option B) (l k : list A) (m : list B) :
  l `sublist_of` k → mapM f k = Some m →
  ∃ m', mapM f l = Some m' ∧ m' `sublist_of` m.
Proof.
  intros Hsub. revert m. induction Hsub as [|x l k Hsub IH|x l k Hsub IH]; intros m.
  - intros _. exists []. split; [done|]. apply sublist_nil_l.
  - simpl. destruct (f x) as [y|]; simpl; [|done].
    destruct (mapM f k) as [m0|]; simpl; [|done]. intros [= <-].
    destruct (IH m0 eq_refl) as (m' & -> & Hm'). simpl.
    exists (y :: m'). split; [done|]. by apply sublist_skip.
  - simpl. destruct (f x) as [y|]; simpl; [|done].
    destruct (mapM f k) as [m0|]; simpl; [|done]. intros [= <-].
    destruct (IH m0 eq_refl) as (m' & -> & Hm').
    exists m'. split; [done|]. by apply sublist_cons.
Qed.

Lemma mapM_elem {A B} (f : A → option B) (l : list A) (m : list B) (x : A) (y : B) :
  mapM f l = Some m → x ∈ l → f x = Some y → y ∈ m.
Proof.
  intros Hm Hx Hy. apply mapM_Some_1 in Hm.
  apply list_elem_of_lookup_1 in Hx as [i Hi].
  destruct (Forall2_lookup_l _ _ _ _ _ Hm Hi) as (y' & Hy' & Hf).
  rewrite Hy in Hf. injection Hf as <-. by eapply list_elem_of_lookup_2.
Qed.

Section Reading.

Context {Json : Type}.
Variable JSON_parse : string → option Json.
Variable empty_object : Json.
Variable like : string → string → bool.

Local Abbreviation node_obj := (node_obj JSON_parse empty_object).
Local Abbreviation rel_obj := (rel_obj JSON_parse empty_object).
Local Abbreviation getGraph := (getGraph JSON_parse empty_object).
Local Abbreviation search := (search JSON_parse empty_object like).

(** A search answers with at most 50 nodes, each of which matches the
    pattern, and with none for an empty or absent [q]; when the full graph
    can be read the search can, and what it finds is part of the nodes of
    the full graph, in their order. *)
Theorem search_within_graph (st : Store) (graphId : string) (q : option string)
    i nm gns grs :
  getGraph st graphId = Graph i nm gns grs →
  ∃ found,
    search st graphId q = Some found ∧
    length found ≤ 50 ∧
    found `sublist_of` gns ∧
    (∀ o, o ∈ found →
          like ("%" +:+ default "" q +:+ "%") (node_name (node_row o)) = true) ∧
    (default "" q = "" → found = []).
Proof.
  unfold getGraph, Routes.getGraph, search, Routes.search.
  destruct (get_graph st graphId) as [graph|]; [|done].
  destruct (mapM node_obj (graph_nodes st graphId)) as [ns|] eqn:Hns; [|done].
  destruct (mapM rel_obj (graph_rels st graphId)) as [rs|]; [|done].
  intros [= <- <- <- <-]. case_decide as Hq.
  - exists []. split_and!; [done|simpl; lia|apply sublist_nil_l| |done].
    by intros o ?%elem_of_nil.
  - set (rows := filter (λ n, node_graph_id n = graphId
                              ∧ like ("%" +:+ default "" q +:+ "%") (node_name n) = true)
                        (nodes (tables st))).
    assert (take 50 rows `sublist_of` graph_nodes st graphId) as Hsub.
    { etrans; [apply sublist_take|].
      apply sublist_filter_weaken. by intros n [? _]. }
    destruct (mapM_sublist _ _ _ _ Hsub Hns) as (found & Hfound & Hfs).
    exists found. split_and!; [done| |done| |done].
    + rewrite <- (length_mapM _ _ _ Hfound), length_take. lia.
    + intros o Ho. apply mapM_Some_1 in Hfound.
      apply list_elem_of_lookup_1 in Ho as [j Hj].
      destruct (Forall2_lookup_r _ _ _ _ _ Hfound Hj) as (row & Hrow & Hobj).
      assert (row ∈ rows) as Hin.
      { eapply elem_of_sublist; [by eapply list_elem_of_lookup_2|apply sublist_take]. }
      apply list_elem_of_filter in Hin as [[_ Hlike] _].
      unfold node_obj, Server.node_obj in Hobj.
      destruct (parse_properties _ _ _); [|done]. simpl in Hobj.
      by injection Hobj as <-.
Qed.

Variable db : Db.
Variable graphId : string.

Local Abbreviation visit := (visit JSON_parse empty_object db graphId).
Local Abbreviation scan_rel := (scan_rel JSON_parse empty_object db graphId).
Local Abbreviation scan_rels := (scan_rels JSON_parse empty_object db graphId).
Local Abbreviation round := (round JSON_parse empty_object db graphId).
Local Abbreviation loop := (loop JSON_parse empty_object db graphId).
Local Abbreviation expand := (expand JSON_parse empty_object db graphId).
Local Abbreviation collected := (collected JSON_parse empty_object db graphId).

Lemma visit_collected name s s' :
  collected s → visit name s = Some s' → collected s'.
Proof.
  intros (Hn & Hr & Hnd & Hv). unfold visit, Server.visit.
  case_decide as Hin; [by intros [= <-]|].
  destruct (get_node db graphId name) as [neighbor|] eqn:Hg.
  - destruct (node_obj neighbor) as [o|] eqn:Ho; simpl; [|done].
    intros [= <-]. simpl.
    pose proof (ServerFacts.node_obj_row _ _ _ _ Ho) as Hrow.
    apply ServerFacts.get_node_Some in Hg as (Hdb & Hgid & Hname).
    split_and!; simpl; [|done| |].
    + intros o' [Ho'| ->%list_elem_of_singleton]%elem_of_app; [by apply Hn|].
      by rewrite Hrow.
    + unfold node_names. rewrite map_app. simpl. rewrite Hrow, Hname.
      apply NoDup_app. split_and!; [done| |apply NoDup_singleton].
      intros x Hx ->%list_elem_of_singleton. by apply Hin, Hv.
    + unfold node_names. rewrite map_app. simpl. rewrite Hrow, Hname.
      intros x [Hx| ->%list_elem_of_singleton]%elem_of_app.
      * apply elem_of_union_r. by apply Hv.
      * apply elem_of_union_l. by apply elem_of_singleton.
  - intros [= <-]. split_and!; simpl; try done.
    intros x Hx. apply elem_of_union_r. by apply Hv.
Qed.

Lemma scan_rels_collected rels s s' :
  (∀ r, r ∈ rels → r ∈ relationships db ∧ rel_graph_id r = graphId) →
  collected s → scan_rels rels s = Some s' → collected s'.
Proof.
  revert s. induction rels as [|rel rest IH]; intros s Hrels Hc; simpl.
  - by intros [= <-].
  - unfold scan_rel, Server.scan_rel.
    destruct (rel_obj rel) as [o|] eqn:Ho; simpl; [|done].
    destruct (visit (rel_source rel) _) as [s1|] eqn:H1; simpl; [|done].
    destruct (visit (rel_target rel) s1) as [s2|] eqn:H2; simpl; [|done].
    apply IH; [intros r Hr; apply Hrels; by right|].
    eapply visit_collected; [|exact H2]. eapply visit_collected; [|exact H1].
    destruct Hc as (Hn & Hr & Hnd & Hv). split_and!; simpl; try done.
    intros o' [Ho'| ->%list_elem_of_singleton]%elem_of_app; [by apply Hr|].
    rewrite (ServerFacts.rel_obj_row _ _ _ _ Ho).
    destruct (Hrels rel) as [? ?]; [left|]. done.
Qed.

Lemma round_collected s s' : collected s → round s = Some s' → collected s'.
Proof.
  intros Hc. unfold round, Server.round. apply scan_rels_collected.
  - intros r [Hr|Hr]%elem_of_app; apply list_elem_of_filter in Hr as [[? _] ?]; done.
  - destruct Hc as (Hn & Hr & Hnd & Hv). by split_and!.
Qed.

Lemma loop_collected n s s' : collected s → loop n s = Some s' → collected s'.
Proof.
  revert s. induction n as [|n IH]; intros s Hc; simpl; [by intros [= <-]|].
  destruct (frontier s); [by intros [= <-]|].
  destruct (round s) as [s1|] eqn:Hr; simpl; [|done].
  apply IH. by eapply round_collected.
Qed.

Lemma expand_collected nodeName depth nd ns rs :
  expand nodeName depth = Ok nd ns rs →
  ∃ s o, collected s ∧ ns = allNodes s ∧ rs = uniqueRels (allRels s) ∧
         nd = head ns ∧ head ns = Some o ∧ node_name (node_row o) = nodeName.
Proof.
  intros (node & s & Hg & Hc & -> & -> & ->)%ServerFacts.expand_Ok.
  apply ServerFacts.collect_Some in Hc as (o & Ho & Hl).
  pose proof (ServerFacts.node_obj_row _ _ _ _ Ho) as Hrow.
  apply ServerFacts.get_node_Some in Hg as (Hdb & Hgid & Hname).
  exists s, o. split_and!; try done.
  - eapply loop_collected; [|exact Hl]. unfold start_state. split_and!; simpl.
    + intros o' ->%list_elem_of_singleton. by rewrite Hrow.
    + by intros o' ?%elem_of_nil.
    + rewrite Hrow. apply NoDup_singleton.
    + rewrite Hrow, Hname. intros x ->%list_elem_of_singleton.
      by apply elem_of_singleton.
  - destruct (ServerFacts.loop_grows _ _ _ _ _ _ _ Hl) as [[l ->] _]. done.
  - by rewrite Hrow.
Qed.

Lemma unique_from_elem seen (rs : list (@RelObj Json)) o :
  o ∈ unique_from seen rs → o ∈ rs.
Proof.
  revert seen. induction rs as [|r rest IH]; intros seen; simpl; [done|].
  case_decide as Hseen.
  - intros Ho. right. by eapply IH.
  - intros [->|Ho]%elem_of_cons; [left|right; by eapply IH].
Qed.

Lemma expand_names_distinct nodeName depth nd ns rs :
  expand nodeName depth = Ok nd ns rs →
  NoDup (node_names ns) ∧ nd = head ns ∧ head (node_names ns) = Some nodeName.
Proof.
  intros (s & o & (_ & _ & Hnd & _) & -> & _ & -> & Hhead & Hname)%expand_collected.
  split_and!; [done|done|].
  destruct (allNodes s) as [|o' l]; [done|]. simpl in *.
  injection Hhead as ->. by rewrite Hname.
Qed.

(** In a 200 answer of the node route the node objects bear pairwise
    distinct names; the first of them bears the name the handler looked up,
    which is the route parameter decoded once more, and it is the [node] of
    the answer. *)
Theorem node_route_names_distinct (decodeURIComponent : string → option string)
    name depth nd ns rs :
  node_route JSON_parse empty_object decodeURIComponent db graphId name depth
  = Ok nd ns rs →
  ∃ nodeName,
    decodeURIComponent name = Some nodeName ∧
    NoDup (node_names ns) ∧ nd = head ns ∧ head (node_names ns) = Some nodeName.
Proof.
  unfold node_route.
  destruct (decodeURIComponent name) as [nodeName|]; [|done].
  intros He. exists nodeName. split; [done|].
  by apply expand_names_distinct in He.
Qed.

End Reading.

(** Whatever an expansion returns is part of the full graph: when
    [GET /api/graph/:id] can be read, every node object and every
    relationship object of an expansion in that graph is one of its. *)
Theorem expand_within_graph {Json} (JSON_parse : string → option Json)
    (empty_object : Json) (st : Store) (graphId nodeName : string)
    (depth : option Z) i nm gns grs nd ns rs :
  getGraph JSON_parse empty_object st graphId = Graph i nm gns grs →
  expand JSON_parse empty_object (tables st) graphId nodeName depth = Ok nd ns rs →
  (∀ o, o ∈ ns → o ∈ gns) ∧ (∀ o, o ∈ rs → o ∈ grs).
Proof.
  unfold getGraph.
  destruct (get_graph st graphId) as [graph|]; [|done].
  destruct (mapM _ (graph_nodes st graphId)) as [ns0|] eqn:Hns; [|done].
  destruct (mapM _ (graph_rels st graphId)) as [rs0|] eqn:Hrs; [|done].
  intros [= <- <- <- <-].
  intros (s & o & (Hn & Hr & _ & _) & -> & -> & _)%expand_collected.
  split.
  - intros o' Ho'. destruct (Hn o' Ho') as (Hdb & Hgid & Hobj).
    eapply mapM_elem; [exact Hns| |exact Hobj].
    apply list_elem_of_filter. by split.
  - intros o' Ho'%unique_from_elem. destruct (Hr o' Ho') as (Hdb & Hgid & Hobj).
    eapply mapM_elem; [exact Hrs| |exact Hobj].
    apply list_elem_of_filter. by split.
Qed.

Section Own.

Context {Json : Type}.
Variable JSON_parse : string → option Json.
Variable empty_object : Json.
Variable db : Db.
Variable graphId : string.

(** The rows of the graph alone. *)
Local Abbreviation own :=
  (mkDb (filter (λ n, node_graph_id n = graphId) (nodes db))
        (filter (λ r, rel_graph_id r = graphId) (relationships db))).

Lemma get_node_own name : get_node own graphId name = get_node db graphId name.
Proof.
  unfold get_node. simpl. induction (nodes db) as [|n l IH]; [done|].
  rewrite filter_cons. simpl. case_decide as Hg.
  - simpl. by rewrite IH.
  - rewrite bool_decide_eq_false_2; [done|]. by intros [? _].
Qed.

Lemma out_rels_own fr : out_rels own graphId fr = out_rels db graphId fr.
Proof. unfold out_rels. simpl. apply list_filter_filter_l. by intros r [? _]. Qed.

Lemma in_rels_own fr : in_rels own graphId fr = in_rels db graphId fr.
Proof. unfold in_rels. simpl. apply list_filter_filter_l. by intros r [? _]. Qed.

Lemma visit_own name s :
  visit JSON_parse empty_object own graphId name s
  = visit JSON_parse empty_object db graphId name s.
Proof. unfold visit. by rewrite get_node_own. Qed.

Lemma scan_rels_own rels s :
  scan_rels JSON_parse empty_object own graphId rels s
  = scan_rels JSON_parse empty_object db graphId rels s.
Proof.
  revert s. induction rels as [|rel rest IH]; intros s; simpl; [done|].
  unfold scan_rel. destruct (rel_obj _ _ rel) as [o|]; simpl; [|done].
  rewrite visit_own. destruct (visit _ _ db _ _ _) as [s1|]; simpl; [|done].
  rewrite visit_own. destruct (visit _ _ db _ _ _) as [s2|]; simpl; [|done].
  apply IH.
Qed.

Lemma loop_own n s :
  loop JSON_parse empty_object own graphId n s
  = loop JSON_parse empty_object db graphId n s.
Proof.
  revert s. induction n as [|n IH]; intros s; simpl; [done|].
  destruct (frontier s); [done|].
  unfold round. rewrite out_rels_own, in_rels_own, scan_rels_own.
  destruct (scan_rels _ _ db _ _ _) as [s1|]; simpl; [|done]. apply IH.
Qed.

Lemma expand_own nodeName depth :
  expand JSON_parse empty_object own graphId nodeName depth
  = expand JSON_parse empty_object db graphId nodeName depth.
Proof.
  unfold expand, collect. rewrite get_node_own.
  destruct (get_node db graphId nodeName) as [node|]; [|done].
  destruct (node_obj _ _ node) as [o|]; simpl; [|done].
  by rewrite loop_own.
Qed.

End Own.

Lemma expand_reads_what_graph_reads {Json} (JSON_parse : string → option Json)
    (empty_object : Json) (st : Store) (graphId nodeName : string)
    (depth : option Z) i nm gns grs :
  getGraph JSON_parse empty_object st graphId = Graph i nm gns grs →
  expand JSON_parse empty_object (tables st) graphId nodeName depth ≠ ServerError.
Proof.
  unfold getGraph.
  destruct (get_graph st graphId) as [graph|]; [|done].
  destruct (mapM _ (graph_nodes st graphId)) as [ns0|] eqn:Hns; [|done].
  destruct (mapM _ (graph_rels st graphId)) as [rs0|] eqn:Hrs; [|done].
  intros _. rewrite <- expand_own. apply ServerFacts.expand_answers. split; simpl.
  - intros n Hn. assert (is_Some (mapM (node_obj JSON_parse empty_object)
                                       (graph_nodes st graphId))) as Hsome by by eexists.
    apply mapM_is_Some_1 in Hsome. rewrite Forall_forall in Hsome. by apply Hsome.
  - intros r Hr. assert (is_Some (mapM (rel_obj JSON_parse empty_object)
                                       (graph_rels st graphId))) as Hsome by by eexists.
    apply mapM_is_Some_1 in Hsome. rewrite Forall_forall in Hsome. by apply Hsome.
Qed.

(** When [GET /api/graph/:id] can read a graph, the node route answers 500
    in that graph for exactly the route parameters that [decodeURIComponent]
    rejects, whatever the depth. *)
Theorem node_route_500_when_undecodable {Json} (JSON_parse : string → option Json)
    (empty_object : Json) (decodeURIComponent : string → option string)
    (st : Store) (graphId name : string) (depth : option Z) i nm gns grs :
  getGraph JSON_parse empty_object st graphId = Graph i nm gns grs →
  node_route JSON_parse empty_object decodeURIComponent (tables st) graphId name depth
  = ServerError
  ↔ decodeURIComponent name = None.
Proof.
  intros Hg. unfold node_route.
  destruct (decodeURIComponent name) as [nodeName|]; [|done].
  split; [|done]. intros He.
  by destruct (expand_reads_what_graph_reads _ _ _ _ nodeName depth _ _ _ _ Hg).
Qed.

Import Scenario Posts.

Lemma sync_commits_iff_ids_distinct_witness :
  ∃ g n r t,
    (sync stringify_any () "key" (Some "key") pair_body "2024-01-01" draws
          empty_store).1 = Synced g n r t.
Proof.
  apply (proj1 (sync_commits_iff_ids_distinct stringify_any () "key" (Some "key")
                  pair_body "2024-01-01" draws empty_store)).
  split; [reflexivity|]. exists "mind-a".
  split_and!; [reflexivity| |]; apply (bool_decide_unpack _); vm_compute; exact I.
Defined.

Lemma sync_replaces_graph_witness :
  graph_nodes pair_store "mind-a"
  = node_rows stringify_any () "mind-a" "2024-01-01" draws 0
              (default [] (b_nodes pair_body)).
Proof.
  refine (proj1 (sync_replaces_graph parse_object stringify_any () "key" (Some "key")
                   pair_body "2024-01-01" draws empty_store
                   "mind-a" 2 1 "2024-01-01" pair_store _)).
  vm_compute. reflexivity.
Defined.

Lemma sync_idempotent_witness :
  sync stringify_any () "key" (Some "key") pair_body "2024-01-01" draws pair_store
  = (Synced "mind-a" 2 1 "2024-01-01", pair_store).
Proof.
  apply (sync_idempotent stringify_any () "key" (Some "key") pair_body
           "2024-01-01" draws empty_store).
  vm_compute. reflexivity.
Defined.

Lemma sync_keeps_consistent_witness : consistent pair_store.
Proof.
  apply (proj2 (sync_keeps_consistent stringify_any () "key" (Some "key") pair_body
                  "2024-01-01" draws empty_store)).
  apply empty_store_consistent.
Defined.

Lemma stats_totals_witness :
  total_nodes (stats pair_store) = sum_list (map g_node_count (graphs pair_store)).
Proof.
  refine (proj1 (stats_totals pair_store _)).
  unfold consistent, keys_unique, registered, counts_cached.
  split_and!; try (apply (bool_decide_unpack _); vm_compute; exact I).
  - intros n Hn. vm_compute in Hn.
    repeat (apply elem_of_cons in Hn as [-> | Hn];
            [apply (bool_decide_unpack _); vm_compute; exact I|]).
    by apply elem_of_nil in Hn.
  - intros r Hr. vm_compute in Hr.
    repeat (apply elem_of_cons in Hr as [-> | Hr];
            [apply (bool_decide_unpack _); vm_compute; exact I|]).
    by apply elem_of_nil in Hr.
  - intros g Hg. vm_compute in Hg.
    repeat (apply elem_of_cons in Hg as [-> | Hg]; [split; vm_compute; reflexivity|]).
    by apply elem_of_nil in Hg.
Defined.

Lemma sync_then_getGraph_witness :
  ∃ ns rs,
    getGraph parse_object () pair_store "mind-a" = Graph "mind-a" "mind-a" ns rs ∧
    length ns = 2 ∧ length rs = 1.
Proof.
  destruct (sync_then_getGraph parse_object stringify_any () "key" (Some "key")
              pair_body "2024-01-01" draws empty_store
              "mind-a" 2 1 "2024-01-01" pair_store)
    as (ns & rs & Hg & Hn & Hr).
  - intros []. split; [discriminate|reflexivity].
  - vm_compute. reflexivity.
  - intros node s Hin Hp. simpl in Hin.
    repeat (apply elem_of_cons in Hin as [-> | Hin]; [discriminate Hp|]).
    by apply elem_of_nil in Hin.
  - intros rel s Hin Hp. simpl in Hin.
    repeat (apply elem_of_cons in Hin as [-> | Hin]; [discriminate Hp|]).
    by apply elem_of_nil in Hin.
  - exists ns, rs. split; [exact Hg|].
    apply Forall2_length in Hn, Hr. simpl in Hn, Hr. by split.
Defined.

Lemma sync_stores_unreadable_text_witness :
  getGraph parse_object () text_store "mind-a" = GraphError.
Proof.
  apply (sync_stores_unreadable_text parse_object stringify_any () "key" (Some "key")
           text_body "2024-01-01" draws empty_store "mind-a" 1 0 "2024-01-01").
  - vm_compute. reflexivity.
  - left. eexists _, "plain words". split_and!; [left|reflexivity|discriminate|reflexivity].
Defined.

Lemma search_within_graph_witness :
  ∃ found,
    search parse_object () like_exact pair_store "mind-a" (Some "A") = Some found ∧
    length found ≤ 50.
Proof.
  assert (∃ i nm gns grs,
            getGraph parse_object () pair_store "mind-a" = Graph i nm gns grs)
    as (i & nm & gns & grs & Hg) by (do 4 eexists; vm_compute; reflexivity).
  destruct (search_within_graph parse_object () like_exact pair_store "mind-a"
              (Some "A") i nm gns grs Hg) as (found & Hs & Hlen & _ & _ & _).
  by exists found.
Defined.

Lemma node_route_names_distinct_witness :
  ∃ nd ns rs,
    node_route parse_any () decode_uri diamond "g" "%41" (Some 2%Z) = Ok nd ns rs ∧
    head (node_names ns) = Some "A".
Proof.
  assert (∃ nd ns rs,
            node_route parse_any () decode_uri diamond "g" "%41" (Some 2%Z)
            = Ok nd ns rs)
    as (nd & ns & rs & He) by (do 3 eexists; vm_compute; reflexivity).
  exists nd, ns, rs. split; [exact He|].
  destruct (node_route_names_distinct parse_any () diamond "g" decode_uri "%41"
              (Some 2%Z) nd ns rs He) as (nodeName & Hd & _ & _ & Hhead).
  vm_compute in Hd. injection Hd as <-. exact Hhead.
Defined.

Lemma expand_within_graph_witness :
  ∃ nd ns rs gns,
    expand parse_object () (tables pair_store) "mind-a" "A" (Some 1%Z) = Ok nd ns rs ∧
    (∃ i nm grs, getGraph parse_object () pair_store "mind-a" = Graph i nm gns grs) ∧
    ∀ o, o ∈ ns → o ∈ gns.
Proof.
  assert (∃ i nm gns grs,
            getGraph parse_object () pair_store "mind-a" = Graph i nm gns grs)
    as (i & nm & gns & grs & Hg) by (do 4 eexists; vm_compute; reflexivity).
  assert (∃ nd ns rs,
            expand parse_object () (tables pair_store) "mind-a" "A" (Some 1%Z)
            = Ok nd ns rs)
    as (nd & ns & rs & He) by (do 3 eexists; vm_compute; reflexivity).
  exists nd, ns, rs, gns. split_and!; [exact He|by exists i, nm, grs|].
  exact (proj1 (expand_within_graph parse_object () pair_store "mind-a" "A"
                  (Some 1%Z) i nm gns grs nd ns rs Hg He)).
Defined.

Lemma node_route_500_when_undecodable_witness :
  node_route parse_object () decode_uri (tables pair_store) "mind-a" "100%" (Some 3%Z)
  = ServerError.
Proof.
  assert (∃ i nm gns grs,
            getGraph parse_object () pair_store "mind-a" = Graph i nm gns grs)
    as (i & nm & gns & grs & Hg) by (do 4 eexists; vm_compute; reflexivity).
  apply (node_route_500_when_undecodable parse_object () decode_uri pair_store
           "mind-a" "100%" (Some 3%Z) i nm gns grs Hg).
  reflexivity.
Defined.

End RoutesFacts.
